(** * Dependency management for tools: resolution engine and caching layer

    A shallow embedding of [lib/galaxy/tools/deps/__init__.py]:
    [DependencyManager._requirements_to_dependencies_dict], [find_dep],
    [CachedDependencyManager.build_cache], [dependency_shell_commands],
    [hash_dependencies], [get_hashed_dependencies_path],
    [NullDependencyManager.find_dep], and of the manager's settings:
    [set_enabled_container_types], [get_destination_info_for_container_type],
    [get_app_option] and [get_resolver_option].

    Conventions.
    - Python objects are values: a resolver is a function of its arguments
      and answers with a fresh [Dependency] at every call, as every resolver
      of the repository does, so an attribute assignment is a record update
      of that value and resolving twice gives the same answer.
    - Resolvers, dependency objects' methods, the file system primitives,
      [json.dumps] and the digest are collaborators living outside this
      module; resolvers are data (records of functions), the others are
      gathered in [Collaborators]. They are taken to return: the only
      exceptions in the model are the engine's own assertion, what
      [shutil.rmtree] raises, a manager attribute that is not there, and the
      [TypeError] of [sorted] in [Python3].
    - [sorted] orders tuples whose components may be [None]. Python 2 puts
      [None] before every string; Python 3 raises [TypeError] when it has to
      compare the two. The caching layer is written over the total order,
      that is, for the calls in which the digest is computed; [Python3] holds
      [sorted] and [hash_dependencies] with the exception, and
      [hash_dependencies_returned] relates the two.
    - Calls into collaborators and writes to the result mapping are logged as
      [Event]s, in chronological order, so that "is invoked" and "is never
      invoked" are statements about the emitted trace. *)

From Stdlib Require Import Ascii String OrderedTypeEx.
From stdpp Require Import base list strings gmap sorting.

Local Open Scope string_scope.
Local Open Scope list_scope.
Local Open Scope nat_scope.

#[local] Set Warnings "-clear-no-such-hyp".
#[local] Set Warnings "-register-all".

(** ** Requirements *)

(** [ToolRequirement]: equality is by value on (name, version, type). *)
Record ToolRequirement := {
  req_name : string;
  req_version : option string;
  req_type : string
}.

#[global] Instance ToolRequirement_eq_dec : EqDecision ToolRequirement.
Proof. solve_decision. Defined.

(** [ToolRequirements] as the engine sees it: the [resolvable] view. *)
Record ToolRequirements := { resolvable : list ToolRequirement }.

(** ** Dependencies *)

Record ContainerDescription := {
  identifier : string;
  container_type : string
}.

(** The class of a dependency object, as tested by [isinstance]. *)
Inductive DependencyClass :=
| NullDependencyClass
| ContainerDependencyClass (container_description : ContainerDescription)
| PackageDependencyClass.

Record Dependency := {
  dep_class : DependencyClass;
  dep_name : string;
  dep_version : option string;
  dep_exact : bool;
  dependency_type : option string;
  cacheable : bool;
  resolver_msg : string;
  cache_path : option string
}.

(** [isinstance(v, NullDependency)] *)
Definition is_NullDependency (d : Dependency) : bool :=
  match dep_class d with NullDependencyClass => true | _ => false end.

(** [isinstance(v, ContainerDependency)] *)
Definition is_ContainerDependency (d : Dependency) : bool :=
  match dep_class d with ContainerDependencyClass _ => true | _ => false end.

(** Modelled from the spec: the resolvers module defining [NullDependency]
    is not among the sources. "Null: unresolved; carries the original
    name/version and a human-readable reason." *)
Definition NullDependency (version : option string) (name : string) : Dependency :=
  {| dep_class := NullDependencyClass;
     dep_name := name;
     dep_version := version;
     dep_exact := true;
     dependency_type := None;
     cacheable := false;
     resolver_msg := "Dependency " +:+ name +:+ " not found.";
     cache_path := None |}.

(** Modelled from the spec: the resolvers module defining
    [ContainerDependency] is not among the sources. "Container: wraps a
    ContainerDescription and carries the same name/version/exact metadata." *)
Definition ContainerDependency (cd : ContainerDescription)
    (name : string) (version : option string) : Dependency :=
  {| dep_class := ContainerDependencyClass cd;
     dep_name := name;
     dep_version := version;
     dep_exact := true;
     dependency_type := Some "container";
     cacheable := false;
     resolver_msg := "Using container description " +:+ identifier cd;
     cache_path := None |}.

(** [dependency.version = v] *)
Definition set_version (v : option string) (d : Dependency) : Dependency :=
  {| dep_class := dep_class d; dep_name := dep_name d; dep_version := v;
     dep_exact := dep_exact d; dependency_type := dependency_type d;
     cacheable := cacheable d; resolver_msg := resolver_msg d;
     cache_path := cache_path d |}.

(** [dep.set_cache_path(p)] *)
Definition set_cache_path (p : string) (d : Dependency) : Dependency :=
  {| dep_class := dep_class d; dep_name := dep_name d;
     dep_version := dep_version d; dep_exact := dep_exact d;
     dependency_type := dependency_type d; cacheable := cacheable d;
     resolver_msg := resolver_msg d; cache_path := Some p |}.

(** ** Call options ([**kwds]) *)

Record Kwds := {
  kw_index : option nat;
  kw_install : bool;
  kw_resolver_type : option string;
  kw_exact : bool;
  kw_return_null : bool;
  kw_search : bool;
  kw_force_rebuild : bool;
  kw_tool_instance : bool
}.

(** [search] is a named parameter of [_requirements_to_dependencies_dict]:
    it is bound there and not forwarded in [**kwds]. *)
Definition forwarded (kw : Kwds) : Kwds :=
  {| kw_index := kw_index kw; kw_install := kw_install kw;
     kw_resolver_type := kw_resolver_type kw; kw_exact := kw_exact kw;
     kw_return_null := kw_return_null kw; kw_search := false;
     kw_force_rebuild := kw_force_rebuild kw;
     kw_tool_instance := kw_tool_instance kw |}.

(** ** Resolvers *)

(** What a whole-set resolution returns: nothing ([None]/[False]), a
    sequence of dependencies, or one shared container description. *)
Inductive BatchResult :=
| BatchNone
| BatchList (dependencies : list Dependency)
| BatchContainer (cd : ContainerDescription).

(** A whole-set resolution receives the enabled container types, the call
    options and the resolvable requirements; the destination lookup and the
    [ToolInfo] it is also handed are fixed by the manager and by these
    requirements. *)
Definition BatchResolve := list string → Kwds → list ToolRequirement → BatchResult.

(** [resolve] is single-item for a plain resolver and whole-set for a
    [ContainerResolver]. *)
Inductive ResolverClass :=
| DependencyResolver (resolve : Kwds → ToolRequirement → Dependency)
| ContainerResolver (resolve : BatchResolve).

Record Resolver := {
  resolver_type : string;
  resolve_all : option BatchResolve;   (* [hasattr(resolver, "resolve_all")] *)
  resolver_class : ResolverClass
}.

(** ** Ordered mapping *)

(** [OrderedDict]: insertion-ordered, keys unique by value. *)
Definition OrderedDict := list (ToolRequirement * Dependency).

Definition od_keys (m : OrderedDict) : list ToolRequirement := m.*1.
Definition od_values (m : OrderedDict) : list Dependency := m.*2.

Fixpoint od_get (k : ToolRequirement) (m : OrderedDict) : option Dependency :=
  match m with
  | [] => None
  | (k', v) :: m' => if decide (k = k') then Some v else od_get k m'
  end.

(** [m[k] = v]: an existing key keeps its position, a new key goes last. *)
Fixpoint od_set (k : ToolRequirement) (v : Dependency) (m : OrderedDict) : OrderedDict :=
  match m with
  | [] => [(k, v)]
  | (k', v') :: m' => if decide (k = k') then (k', v) :: m' else (k', v') :: od_set k v m'
  end.

(** [k in m] *)
Definition od_mem (k : ToolRequirement) (m : OrderedDict) : bool :=
  bool_decide (k ∈ od_keys m).

(** ** Events and outcomes *)

Inductive Path := BatchPath | PerItemPath.

Inductive LogLevel := Debug | Warning.

Inductive Event :=
| EvResolveAll (i : nat)
| EvResolve (i : nat) (requirement : ToolRequirement)
| EvRecord (i : nat) (via : Path) (requirement : ToolRequirement) (dependency : Dependency)
| EvLog (level : LogLevel) (msg : string)
| EvToolDependencies (dependencies : list Dependency)
| EvRmtree (path : string)
| EvBuildCache (dependency : Dependency) (path : string)
| EvSetCachePath (dependency : Dependency) (path : string)
| EvShellCommands (dependency : Dependency).

Inductive Exception :=
| AssertionError
| OSError (msg : string).

Inductive Outcome (A : Type) :=
| Returned (a : A)
| Raised (e : Exception).
Arguments Returned {A} a.
Arguments Raised {A} e.

(** An event reporting a call into a resolver. *)
Definition is_invocation (e : Event) : bool :=
  match e with
  | EvResolveAll _ | EvResolve _ _ => true
  | _ => false
  end.

(** ** The resolution engine *)

(** Loop state: the mapping under construction and the trace so far. *)
Record State := {
  requirement_to_dependency : OrderedDict;
  trace : list Event
}.

Definition emit (e : Event) (st : State) : State :=
  {| requirement_to_dependency := requirement_to_dependency st;
     trace := trace st ++ [e] |}.

(** [log.debug(dependency.resolver_msg); requirement_to_dependency[requirement] = dependency] *)
Definition record (i : nat) (via : Path) (requirement : ToolRequirement)
    (dependency : Dependency) (st : State) : State :=
  {| requirement_to_dependency := od_set requirement dependency (requirement_to_dependency st);
     trace := trace st ++ [EvLog Debug (resolver_msg dependency);
                           EvRecord i via requirement dependency] |}.

(** The entries whose value is not a [NullDependency]. *)
Definition non_null (m : OrderedDict) : OrderedDict :=
  filter (λ kv, is_NullDependency kv.2 = false) m.

(** The body of [for requirement in resolvable_requirements] for one
    requirement; [met] is the snapshot [_requirement_to_dependency]. *)
Definition per_item_body (kw : Kwds) (i : nat)
    (resolve : Kwds → ToolRequirement → Dependency) (met : OrderedDict)
    (requirement : ToolRequirement) (st : State) : State :=
  if od_mem requirement met then st
  else
    let dependency := resolve (forwarded kw) requirement in
    let st := emit (EvResolve i requirement) st in
    if kw_exact kw && negb (dep_exact dependency) then st
    else if negb (is_NullDependency dependency) then
      record i PerItemPath requirement dependency st
    else if kw_return_null kw then
      record i PerItemPath requirement (set_version (req_version requirement) dependency) st
    else st.

Fixpoint per_item_loop (kw : Kwds) (i : nat)
    (resolve : Kwds → ToolRequirement → Dependency) (met : OrderedDict)
    (requirements : list ToolRequirement) (st : State) : State :=
  match requirements with
  | [] => st
  | requirement :: rest =>
      per_item_loop kw i resolve met rest (per_item_body kw i resolve met requirement st)
  end.

(** [for requirement, dependency in zip(resolvable_requirements, dependencies)] *)
Fixpoint batch_record (i : nat) (requirements : list ToolRequirement)
    (dependencies : list Dependency) (st : State) : State :=
  match requirements, dependencies with
  | requirement :: rs, dependency :: ds =>
      batch_record i rs ds (record i BatchPath requirement dependency st)
  | _, _ => st
  end.

(** Python truth value of what a whole-set resolution returned. *)
Definition truthy (b : BatchResult) : bool :=
  match b with
  | BatchNone => false
  | BatchList ds => negb (bool_decide (ds = []))
  | BatchContainer _ => true
  end.

(** The dependency sequence a truthy batch result stands for. *)
Definition batch_dependencies (requirements : list ToolRequirement) (b : BatchResult)
    : list Dependency :=
  match b with
  | BatchNone => []
  | BatchList ds => ds
  | BatchContainer cd =>
      (λ r, ContainerDependency cd (req_name r) (req_version r)) <$> requirements
  end.

(** Selection of the whole-set [resolve]: [None] is the [continue] of the
    container branch, [Some None] is [resolve = None]. *)
Definition select_resolve (kw : Kwds) (resolver : Resolver) : option (option BatchResolve) :=
  match resolve_all resolver with
  | Some f => Some (Some f)
  | None =>
      match resolver_class resolver with
      | ContainerResolver f =>
          if negb (String.prefix "cached" (resolver_type resolver)
                   || String.prefix "explicit" (resolver_type resolver))
             && negb (kw_search kw || kw_install kw)
          then None
          else Some (Some f)
      | DependencyResolver _ => Some None
      end
  end.

(** The per-item part of one iteration: only for non-container resolvers. *)
Definition per_item_pass (kw : Kwds) (i : nat) (resolver : Resolver)
    (met : OrderedDict) (requirements : list ToolRequirement) (st : State) : State :=
  match resolver_class resolver with
  | DependencyResolver resolve => per_item_loop kw i resolve met requirements st
  | ContainerResolver _ => st
  end.

Inductive Ctl := Next | Break.

(** [index is not None and i != index] *)
Definition index_excludes (kw : Kwds) (i : nat) : bool :=
  match kw_index kw with
  | Some index => bool_decide (i ≠ index)
  | None => false
  end.

(** [resolver_type is not None and resolver.resolver_type != resolver_type] *)
Definition resolver_type_excludes (kw : Kwds) (resolver : Resolver) : bool :=
  match kw_resolver_type kw with
  | Some t => bool_decide (resolver_type resolver ≠ t)
  | None => false
  end.

(** One iteration of [for i, resolver in enumerate(self.dependency_resolvers)].
    The result is the control decision and the state, or the exception
    together with the trace up to it. *)
Definition resolver_step (enabled_container_types : list string) (kw : Kwds)
    (resolvable_requirements : list ToolRequirement)
    (i : nat) (resolver : Resolver) (st : State)
    : (Ctl * State) + (Exception * list Event) :=
  if index_excludes kw i then inl (Next, st)
  else if resolver_type_excludes kw resolver then inl (Next, st)
  else
    let met := non_null (requirement_to_dependency st) in
    if bool_decide (length met = length resolvable_requirements) then inl (Break, st)
    else if String.prefix "build_mulled" (resolver_type resolver) && negb (kw_install kw)
    then inl (Next, st)
    else
      let all_unmet := bool_decide (length met = 0) in
      match select_resolve kw resolver with
      | None => inl (Next, st)
      | Some resolve =>
          match (if all_unmet then resolve else None) with
          | Some f =>
              let dependencies := f enabled_container_types (forwarded kw) resolvable_requirements in
              let st := emit (EvResolveAll i) st in
              if truthy dependencies then
                let dependencies := batch_dependencies resolvable_requirements dependencies in
                if bool_decide (length dependencies = length resolvable_requirements)
                then inl (Break, batch_record i resolvable_requirements dependencies st)
                else inr (AssertionError, trace st)
              else inl (Next, per_item_pass kw i resolver met resolvable_requirements st)
          | None => inl (Next, per_item_pass kw i resolver met resolvable_requirements st)
          end
      end.

(** The loop over the chain from position [i] on. *)
Fixpoint resolve_chain (enabled_container_types : list string) (kw : Kwds)
    (resolvable_requirements : list ToolRequirement)
    (i : nat) (resolvers : list Resolver) (st : State)
    : (Ctl * State) + (Exception * list Event) :=
  match resolvers with
  | [] => inl (Next, st)
  | resolver :: rest =>
      match resolver_step enabled_container_types kw resolvable_requirements i resolver st with
      | inl (Next, st') =>
          resolve_chain enabled_container_types kw resolvable_requirements (S i) rest st'
      | other => other
      end
  end.

(** ** Dependency managers *)

(** The attributes the modelled methods read. The two options of the
    cached manager are what [get_app_option] finds: the cache directory
    (configured, a path) and the truth value of [precache_dependencies]. *)
Record DependencyManager := {
  dependency_resolvers : list Resolver;
  enabled_container_types : list string;
  tool_dependency_cache_dir : string;
  precache_dependencies : bool
}.

Definition initial_state : State :=
  {| requirement_to_dependency := []; trace := [] |}.

(** [DependencyManager._requirements_to_dependencies_dict]: the outcome and
    the events emitted by the call. *)
Definition _requirements_to_dependencies_dict (self : DependencyManager)
    (requirements : ToolRequirements) (kw : Kwds)
    : Outcome OrderedDict * list Event :=
  match resolve_chain (enabled_container_types self) kw (resolvable requirements)
          0 (dependency_resolvers self) initial_state with
  | inl (_, st) => (Returned (requirement_to_dependency st), trace st)
  | inr (e, tr) => (Raised e, tr)
  end.

(** Modelled from the spec: the requirements module ([ToolRequirement],
    [ToolRequirements]) is not among the sources. "An ordered collection of
    ToolRequirement, unique by value; exposes a derived read-only view
    resolvable (requirements the engine is allowed to act on, excluding
    informational-only entries)". Which types are informational is left to
    [is_resolvable_type]. *)
Fixpoint ordered_set (l : list ToolRequirement) : list ToolRequirement :=
  match l with
  | [] => []
  | r :: l' => r :: filter (λ r', r' ≠ r) (ordered_set l')
  end.

Definition make_ToolRequirements (is_resolvable_type : string → bool)
    (l : list ToolRequirement) : ToolRequirements :=
  {| resolvable := filter (λ r, is_resolvable_type (req_type r) = true) (ordered_set l) |}.

(** ** Container destinations *)

Module Containers.
(** A job destination, as far as this module reads it: [destination.id]
    and [destination.params]. *)
Record Destination := {
  dest_id : string;
  dest_params : list (string * string)
}.

(** The two attributes of the manager that [set_enabled_container_types]
    writes. The dictionary it is handed has no order of its own: its keys
    are listed in the order of the map. *)
Record Settings := {
  _enabled_container_types : list string;
  _destination_for_container_type : gmap string (list Destination)
}.

(** What [DependencyManager.__init__] sets: [[]] and [{}]. *)
Definition init : Settings :=
  {| _enabled_container_types := []; _destination_for_container_type := ∅ |}.

(** [DependencyManager.set_enabled_container_types] *)
Definition set_enabled_container_types
    (container_types_to_destinations : gmap string (list Destination))
    (self : Settings) : Settings :=
  {| _enabled_container_types := (map_to_list container_types_to_destinations).*1;
     _destination_for_container_type := container_types_to_destinations |}.

(** The [enabled_container_types] property. *)
Definition enabled_container_types (self : Settings) : list string :=
  _enabled_container_types self.

Inductive LookupError :=
| KeyError (key : string)
| StopIteration.

(** [for destination in ...: if destination.id == destination_id: return
    destination.params]; falling off the loop returns [None]. *)
Fixpoint params_of_id (destination_id : string) (destinations : list Destination)
    : option (list (string * string)) :=
  match destinations with
  | [] => None
  | destination :: rest =>
      if decide (dest_id destination = destination_id)
      then Some (dest_params destination)
      else params_of_id destination_id rest
  end.

(** [DependencyManager.get_destination_info_for_container_type]: the value
    returned ([None] is Python's [None]) or the exception raised. *)
Definition get_destination_info_for_container_type (self : Settings)
    (container_type : string) (destination_id : option string)
    : option (list (string * string)) + LookupError :=
  match _destination_for_container_type self !! container_type with
  | None => inr (KeyError container_type)
  | Some destinations =>
      match destination_id with
      | None =>
          match destinations with
          | destination :: _ => inl (Some (dest_params destination))
          | [] => inr StopIteration
          end
      | Some destination_id => inl (params_of_id destination_id destinations)
      end
  end.
End Containers.

(** ** Configuration options *)

(** The configuration values this module handles. A dictionary is the list
    of its items. *)
Inductive PyValue :=
| PyNone
| PyBool (b : bool)
| PyInt (n : Z)
| PyStr (s : string)
| PyDict (items : list (string * PyValue)).

(** [d.get(key, CONFIG_VAL_NOT_FOUND)]: [None] stands for the sentinel. *)
Fixpoint dict_get (key : string) (items : list (string * PyValue)) : option PyValue :=
  match items with
  | [] => None
  | (k, v) :: rest => if decide (k = key) then Some v else dict_get key rest
  end.

(** [app_config]: a dictionary, or an object with attributes. *)
Inductive AppConfig :=
| ConfigDict (items : list (string * PyValue))
| ConfigObject (attributes : list (string * PyValue)).

Inductive ConfigError :=
| AttributeError (attribute : string).

(** The private attribute [self.__app_config]. Python mangles such a name
    with the class in whose body it is written: [DependencyManager.__init__]
    and [get_app_option] write and read [_DependencyManager__app_config],
    while [NullDependencyManager.__init__], which does not call the base
    constructor, writes [_NullDependencyManager__app_config]. An attribute
    that was never written is [None] here. *)
Record ManagerAttributes := {
  _DependencyManager__app_config : option AppConfig;
  _NullDependencyManager__app_config : option AppConfig
}.

(** [DependencyManager.__init__], which [CachedDependencyManager.__init__]
    calls through [super], as far as the configuration goes. *)
Definition DependencyManager__init__ (app_config : AppConfig) : ManagerAttributes :=
  {| _DependencyManager__app_config := Some app_config;
     _NullDependencyManager__app_config := None |}.

(** [NullDependencyManager.__init__], as far as the configuration goes. *)
Definition NullDependencyManager__init__ (app_config : AppConfig) : ManagerAttributes :=
  {| _DependencyManager__app_config := None;
     _NullDependencyManager__app_config := Some app_config |}.

(** [DependencyManager.get_app_option]. Reading [self.__app_config] fails
    on a manager that never wrote it. A dictionary has no attribute
    [config_dict]; on an object that has one, [.get] needs it to be a
    dictionary. *)
Definition get_app_option (self : ManagerAttributes) (key : string) (default : PyValue)
    : PyValue + ConfigError :=
  match _DependencyManager__app_config self with
  | None => inr (AttributeError "_DependencyManager__app_config")
  | Some app_config =>
      let value :=
        match app_config with
        | ConfigDict items => dict_get key items
        | ConfigObject attributes => dict_get key attributes
        end in
      let value :=
        match value, app_config with
        | None, ConfigObject attributes =>
            match dict_get "config_dict" attributes with
            | Some (PyDict items) => inl (dict_get key items)
            | Some _ => inr (AttributeError "get")
            | None => inl value
            end
        | _, _ => inl value
        end in
      match value with
      | inl (Some value) => inl value
      | inl None => inl default
      | inr e => inr e
      end
  end.

(** [DependencyManager.get_resolver_option]; [config_options] is
    [resolver.config_options]. *)
Definition get_resolver_option (self : ManagerAttributes) (resolver : Resolver)
    (config_options : list (string * PyValue)) (key : string)
    (explicit_resolver_options : list (string * PyValue)) : PyValue + ConfigError :=
  let default := default PyNone (dict_get key config_options) in
  let config_prefix := resolver_type resolver in
  let global_key := config_prefix +:+ "_" +:+ key in
  match dict_get key explicit_resolver_options with
  | Some value => inl value
  | None => get_app_option self global_key default
  end.

(** ** Collaborators of the caching layer *)

(** The file system: the directory entries found under each existing path. *)
Abbreviation FileSystem := (gmap string (list string)).

(** What is hashed of a dependency:
    [(dep.name, dep.version, dep.exact, dep.dependency_type)]. *)
Definition DepTuple : Type := string * option string * bool * option string.

Record Collaborators := {
  (* requirement types eligible for resolution *)
  is_resolvable_type : string → bool;
  (* [json.dumps], on a list of such tuples *)
  json_dumps : list DepTuple → string;
  (* [hash_util.new_secure_hash] *)
  new_secure_hash : string → string;
  (* [os.path.abspath] *)
  abspath : string → string;
  (* [shutil.rmtree]: the exception it raises, if any, and the tree it leaves *)
  rmtree : string → FileSystem → option Exception * FileSystem;
  (* [dep.build_cache(path)] *)
  dep_build_cache : Dependency → string → FileSystem → FileSystem;
  (* [dep.shell_commands()] *)
  shell_commands : Dependency → list string
}.

(** ** Effects of the caching layer *)

(** A computation reads and writes the file system, emits events, and
    returns or raises. *)
Definition M (A : Type) : Type := FileSystem → Outcome A * FileSystem * list Event.

#[global] Instance M_ret : MRet M := λ A a fs, (Returned a, fs, []).

#[global] Instance M_bind : MBind M := λ A B k c fs,
  match c fs with
  | (Returned a, fs', tr) =>
      match k a fs' with
      | (o, fs'', tr') => (o, fs'', tr ++ tr')
      end
  | (Raised e, fs', tr) => (Raised e, fs', tr)
  end.

Definition tell (e : Event) : M unit := λ fs, (Returned (), fs, [e]).

(** [os.path.exists(path)] *)
Definition os_path_exists (path : string) : M bool :=
  λ fs, (Returned (bool_decide (is_Some (fs !! path))), fs, []).

(** [[f(dep) for dep in deps]] *)
Fixpoint for_each {A B} (f : A → M B) (l : list A) : M (list B) :=
  match l with
  | [] => mret []
  | a :: l' => b ← f a; bs ← for_each f l'; mret (b :: bs)
  end.

(** ** Hashing a resolved dependency set *)

Definition lex (c1 c2 : comparison) : comparison :=
  match c1 with Eq => c2 | _ => c1 end.

Definition bool_compare (a b : bool) : comparison :=
  match a, b with
  | false, true => Lt
  | true, false => Gt
  | _, _ => Eq
  end.

(** [None] orders before every string: the ordering of Python 2. Python 3
    does not order [None] and a string at all; what [sorted] and
    [hash_dependencies] do there is in [Python3], below. *)
Definition option_compare (a b : option string) : comparison :=
  match a, b with
  | None, None => Eq
  | None, Some _ => Lt
  | Some _, None => Gt
  | Some x, Some y => String.compare x y
  end.

(** Comparison of tuples: the first differing component decides. *)
Definition tuple_compare (a b : DepTuple) : comparison :=
  let '(n1, v1, e1, t1) := a in
  let '(n2, v2, e2, t2) := b in
  lex (String.compare n1 n2)
    (lex (option_compare v1 v2)
      (lex (bool_compare e1 e2) (option_compare t1 t2))).

Definition tuple_le (a b : DepTuple) : Prop := tuple_compare a b ≠ Gt.

#[global] Instance tuple_le_dec : RelDecision tuple_le.
Proof. intros a b. unfold tuple_le. solve_decision. Defined.

(** [sorted(resolved_dependencies)] on Python 2, and on Python 3 whenever
    it returns. *)
Definition sorted (l : list DepTuple) : list DepTuple := merge_sort tuple_le l.

Definition hex_digit (n : nat) : ascii :=
  match n with
  | 0 => "0" | 1 => "1" | 2 => "2" | 3 => "3" | 4 => "4" | 5 => "5"
  | 6 => "6" | 7 => "7" | 8 => "8" | 9 => "9" | 10 => "a" | 11 => "b"
  | 12 => "c" | 13 => "d" | 14 => "e" | _ => "f"
  end%char.

(** [s[:n]] *)
Fixpoint slice_to (n : nat) (s : string) : string :=
  match n, s with
  | S n', String c s' => String c (slice_to n' s')
  | _, _ => ""
  end.

Definition dep_tuple (dep : Dependency) : DepTuple :=
  (dep_name dep, dep_version dep, dep_exact dep, dependency_type dep).

(** [CachedDependencyManager.hash_dependencies] on Python 2, and on
    Python 3 whenever it returns. *)
Definition hash_dependencies (X : Collaborators) (resolved_dependencies : list Dependency)
    : string :=
  let resolved_dependencies := dep_tuple <$> resolved_dependencies in
  let hash_str := json_dumps X (sorted resolved_dependencies) in
  slice_to 8 (new_secure_hash X hash_str).

(** On Python 3, [None < "1.9"] raises [TypeError], and so does the
    comparison of two tuples that first differ at a component which is
    [None] in one and a string in the other. [sorted] learns the order of
    its items from such comparisons only. If it finished on a list holding
    two such tuples, it would have made only comparisons on which the order
    placing [None] first and the order placing it last agree
    ([comparable_agree]), and its result would be in order for both, which
    no arrangement of that list is ([not_sortable_no_order]). So [sorted]
    raises exactly on the lists that hold two such tuples, and on the
    others, where every comparison has its answer ([sortable_one_order]),
    it returns what the order placing [None] first gives. *)
Module Python3.
Inductive Error := TypeError.

(** Both [None], or both strings. *)
Definition same_kind (a b : option string) : bool :=
  match a, b with
  | None, Some _ | Some _, None => false
  | _, _ => true
  end.

(** Whether [a < b] is defined: the components are compared from the left
    with [==], and the first two that differ with [<]. *)
Definition comparable (a b : DepTuple) : bool :=
  let '(n1, v1, e1, t1) := a in
  let '(n2, v2, e2, t2) := b in
  if bool_decide (n1 ≠ n2) then true
  else if bool_decide (v1 ≠ v2) then same_kind v1 v2
  else if bool_decide (e1 ≠ e2) then true
  else same_kind t1 t2.

Definition sortable (l : list DepTuple) : bool :=
  forallb (λ a, forallb (comparable a) l) l.

(** [sorted(resolved_dependencies)] *)
Definition sorted (l : list DepTuple) : list DepTuple + Error :=
  if sortable l then inl (merge_sort tuple_le l) else inr TypeError.

(** The order that places [None] after every string, to compare with
    [option_compare], which places it first. *)
Definition option_compare_last (a b : option string) : comparison :=
  match a, b with
  | None, None => Eq
  | None, Some _ => Gt
  | Some _, None => Lt
  | Some x, Some y => String.compare x y
  end.

Definition tuple_compare_last (a b : DepTuple) : comparison :=
  let '(n1, v1, e1, t1) := a in
  let '(n2, v2, e2, t2) := b in
  lex (String.compare n1 n2)
    (lex (option_compare_last v1 v2)
      (lex (bool_compare e1 e2) (option_compare_last t1 t2))).

Definition tuple_le_last (a b : DepTuple) : Prop := tuple_compare_last a b ≠ Gt.

(** [CachedDependencyManager.hash_dependencies] *)
Definition hash_dependencies (X : Collaborators) (resolved_dependencies : list Dependency)
    : string + Error :=
  let resolved_dependencies := dep_tuple <$> resolved_dependencies in
  match sorted resolved_dependencies with
  | inl sorted_dependencies =>
      let hash_str := json_dumps X sorted_dependencies in
      inl (slice_to 8 (new_secure_hash X hash_str))
  | inr e => inr e
  end.
End Python3.

Definition ends_with_slash (s : string) : bool :=
  match String.get (String.length s - 1) s with
  | Some c => bool_decide (c = "/"%char)
  | None => false
  end.

(** [os.path.join(a, b)] *)
Definition os_path_join (a b : string) : string :=
  if String.prefix "/" b then b
  else if bool_decide (a = "") || ends_with_slash a then a +:+ b
  else a +:+ "/" +:+ b.

(** [CachedDependencyManager.get_hashed_dependencies_path] *)
Definition get_hashed_dependencies_path (X : Collaborators) (self : DependencyManager)
    (resolved_dependencies : list Dependency) : string :=
  let req_hashes := hash_dependencies X resolved_dependencies in
  abspath X (os_path_join (tool_dependency_cache_dir self) req_hashes).




(** Component-wise comparison of pairs. *)
Definition prod_compare {A B} (c1 : A → A → comparison) (c2 : B → B → comparison)
    (x y : A * B) : comparison :=
  lex (c1 x.1 y.1) (c2 x.2 y.2).

(** A three-way comparison that is a strict total order. *)
Record Comparator {A} (cmp : A → A → comparison) : Prop := {
  cmp_eq : ∀ x y, cmp x y = Eq ↔ x = y;
  cmp_opp : ∀ x y, cmp y x = CompOpp (cmp x y);
  cmp_lt_trans : ∀ x y z, cmp x y = Lt → cmp y z = Lt → cmp x z = Lt
}.

(** ** Manager operations *)

(** [DependencyManager.requirements_to_dependencies] *)
Definition requirements_to_dependencies (self : DependencyManager)
    (requirements : ToolRequirements) (kw : Kwds) : M OrderedDict :=
  λ fs,
    match _requirements_to_dependencies_dict self requirements kw with
    | (Returned requirement_to_dependency, tr) =>
        (Returned requirement_to_dependency, fs,
         tr ++ (if kw_tool_instance kw
                then [EvToolDependencies (od_values requirement_to_dependency)]
                else []))
    | (Raised e, tr) => (Raised e, fs, tr)
    end.

Definition format_version (version : option string) : string :=
  default "None" version.

(** [DependencyManager.find_dep] *)
Definition find_dep (X : Collaborators) (self : DependencyManager)
    (name : string) (version : option string) (type : string) (kw : Kwds)
    : Outcome Dependency * list Event :=
  let log_event :=
    EvLog Debug ("Find dependency " +:+ name +:+ " version " +:+ format_version version) in
  let requirements :=
    make_ToolRequirements (is_resolvable_type X)
      [ {| req_name := name; req_version := version; req_type := type |} ] in
  match _requirements_to_dependencies_dict self requirements kw with
  | (Returned dep_dict, tr) =>
      match od_values dep_dict with
      | dep :: _ => (Returned dep, log_event :: tr)
      | [] => (Returned (NullDependency version name), log_event :: tr)
      end
  | (Raised e, tr) => (Raised e, log_event :: tr)
  end.

(** [NullDependencyManager]: no resolvers, nothing configured. *)
Definition NullDependencyManager : DependencyManager :=
  {| dependency_resolvers := [];
     enabled_container_types := [];
     tool_dependency_cache_dir := "";
     precache_dependencies := false |}.

(** [NullDependencyManager.find_dep] *)
Definition NullDependencyManager_find_dep
    (name : string) (version : option string) (type : string) (kw : Kwds) : Dependency :=
  NullDependency version name.

(** [shutil.rmtree(path)] inside [try ... except Exception: log.warning; raise] *)
Definition guarded_rmtree (X : Collaborators) (path : string) : M unit :=
  λ fs,
    match rmtree X path fs with
    | (None, fs') => (Returned (), fs', [EvRmtree path])
    | (Some e, fs') =>
        (Raised e, fs',
         [EvRmtree path;
          EvLog Warning ("Could not delete cached dependencies directory '" +:+ path +:+ "'")])
    end.

(** One [dep.build_cache(hashed_dependencies_dir)] *)
Definition build_one (X : Collaborators) (path : string) (dep : Dependency) : M unit :=
  λ fs, (Returned (), dep_build_cache X dep path fs, [EvBuildCache dep path]).

(** [CachedDependencyManager.build_cache] *)
Definition build_cache (X : Collaborators) (self : DependencyManager)
    (requirements : ToolRequirements) (kw : Kwds) : M unit :=
  resolved_dependencies ← requirements_to_dependencies self requirements kw;
  let cacheable_dependencies :=
    filter (λ dep, cacheable dep = true) (od_values resolved_dependencies) in
  let hashed_dependencies_dir := get_hashed_dependencies_path X self cacheable_dependencies in
  present ← os_path_exists hashed_dependencies_dir;
  if (present : bool) then
    if kw_force_rebuild kw then
      guarded_rmtree X hashed_dependencies_dir;;
      for_each (build_one X hashed_dependencies_dir) cacheable_dependencies;;
      mret ()
    else
      tell (EvLog Debug ("Cached dependencies directory '" +:+ hashed_dependencies_dir
                         +:+ "' already exists, skipping build"))
  else
    for_each (build_one X hashed_dependencies_dir) cacheable_dependencies;;
    mret ().

(** [dep.set_cache_path(path)] on the cacheable ones among the resolved
    dependency objects: the list of values sees the update. *)
Definition point_at_cache (path : string) (dep : Dependency) : Dependency :=
  if cacheable dep then set_cache_path path dep else dep.

Definition ask_shell_commands (X : Collaborators) (dep : Dependency) : M (list string) :=
  tell (EvShellCommands dep);; mret (shell_commands X dep).

(** [CachedDependencyManager.dependency_shell_commands] *)
Definition dependency_shell_commands (X : Collaborators) (self : DependencyManager)
    (requirements : ToolRequirements) (kw : Kwds) : M (list (list string)) :=
  resolved_dependencies ← requirements_to_dependencies self requirements kw;
  let cacheable_dependencies :=
    filter (λ dep, cacheable dep = true) (od_values resolved_dependencies) in
  let hashed_dependencies_dir := get_hashed_dependencies_path X self cacheable_dependencies in
  present ← os_path_exists hashed_dependencies_dir;
  (if negb present && precache_dependencies self
   then build_cache X self requirements kw
   else mret ());;
  present ← os_path_exists hashed_dependencies_dir;
  values ←
    (if (present : bool) then
       for_each (λ dep, tell (EvSetCachePath dep hashed_dependencies_dir))
         cacheable_dependencies;;
       mret (point_at_cache hashed_dependencies_dir <$> od_values resolved_dependencies)
     else mret (od_values resolved_dependencies));
  for_each (ask_shell_commands X) values.

(** ** Notions used in the proofs *)

(** The mapping after a run of assignments [m[k] = v], in order. *)
Definition od_update (kvs : list (ToolRequirement * Dependency)) (m : OrderedDict)
    : OrderedDict :=
  foldl (λ m kv, od_set kv.1 kv.2 m) m kvs.

(** What the per-item body assigns for one requirement, if anything. *)
Definition contribution (kw : Kwds) (resolve : Kwds → ToolRequirement → Dependency)
    (met : OrderedDict) (requirement : ToolRequirement)
    : option (ToolRequirement * Dependency) :=
  if od_mem requirement met then None
  else
    let dependency := resolve (forwarded kw) requirement in
    if kw_exact kw && negb (dep_exact dependency) then None
    else if negb (is_NullDependency dependency) then Some (requirement, dependency)
    else if kw_return_null kw
    then Some (requirement, set_version (req_version requirement) dependency)
    else None.

(** The events of one assignment. *)
Definition record_events (i : nat) (via : Path) (kv : ToolRequirement * Dependency)
    : list Event :=
  [EvLog Debug (resolver_msg kv.2); EvRecord i via kv.1 kv.2].

(** The events of the per-item body for one requirement. *)
Definition per_item_events (kw : Kwds) (i : nat)
    (resolve : Kwds → ToolRequirement → Dependency) (met : OrderedDict)
    (requirement : ToolRequirement) : list Event :=
  if od_mem requirement met then []
  else EvResolve i requirement ::
       from_option (record_events i PerItemPath) [] (contribution kw resolve met requirement).

(** The resolver an event belongs to, by position in the chain. *)
Definition event_index (e : Event) : option nat :=
  match e with
  | EvResolveAll i | EvResolve i _ | EvRecord i _ _ _ => Some i
  | _ => None
  end.

(** The trace of an iteration or of a run, however it ended. *)
Definition result_trace (res : (Ctl * State) + (Exception * list Event)) : list Event :=
  match res with
  | inl (_, st) => trace st
  | inr (_, tr) => tr
  end.

(** The events a resolution emits: calls into resolvers, assignments and
    their debug messages. *)
Definition is_resolution_event (e : Event) : bool :=
  match e with
  | EvResolveAll _ | EvResolve _ _ | EvRecord _ _ _ _ | EvLog Debug _ => true
  | _ => false
  end.

(** The ways one iteration of the chain loop can go. *)
Inductive StepCase (ect : list string) (kw : Kwds) (reqs : list ToolRequirement)
    (i : nat) (resolver : Resolver) (st : State)
    : (Ctl * State) + (Exception * list Event) → Prop :=
| case_skip :
    StepCase ect kw reqs i resolver st (inl (Next, st))
| case_complete :
    length (non_null (requirement_to_dependency st)) = length reqs →
    StepCase ect kw reqs i resolver st (inl (Break, st))
| case_batch f :
    length (non_null (requirement_to_dependency st)) = 0 →
    select_resolve kw resolver = Some (Some f) →
    truthy (f ect (forwarded kw) reqs) = true →
    length (batch_dependencies reqs (f ect (forwarded kw) reqs)) = length reqs →
    StepCase ect kw reqs i resolver st
      (inl (Break, batch_record i reqs (batch_dependencies reqs (f ect (forwarded kw) reqs))
                     (emit (EvResolveAll i) st)))
| case_assert f :
    length (non_null (requirement_to_dependency st)) = 0 →
    select_resolve kw resolver = Some (Some f) →
    truthy (f ect (forwarded kw) reqs) = true →
    length (batch_dependencies reqs (f ect (forwarded kw) reqs)) ≠ length reqs →
    StepCase ect kw reqs i resolver st (inr (AssertionError, trace st ++ [EvResolveAll i]))
| case_fallback f :
    length (non_null (requirement_to_dependency st)) = 0 →
    select_resolve kw resolver = Some (Some f) →
    truthy (f ect (forwarded kw) reqs) = false →
    StepCase ect kw reqs i resolver st
      (inl (Next, per_item_pass kw i resolver (non_null (requirement_to_dependency st)) reqs
                    (emit (EvResolveAll i) st)))
| case_per_item :
    StepCase ect kw reqs i resolver st
      (inl (Next, per_item_pass kw i resolver (non_null (requirement_to_dependency st)) reqs st)).

(** What one iteration did: the assignments [kvs], all made along [via], and
    the events [new]. *)
Record StepSummary (kw : Kwds) (reqs : list ToolRequirement) (i : nat)
    (st st' : State) (via : Path) (kvs : list (ToolRequirement * Dependency))
    (new : list Event) : Prop := {
  ss_map : requirement_to_dependency st' = od_update kvs (requirement_to_dependency st);
  ss_trace : trace st' = trace st ++ new;
  ss_keys : kvs.*1 `sublist_of` reqs;
  ss_index : ∀ e j, e ∈ new → event_index e = Some j → j = i;
  ss_record_in : ∀ j via' r d, EvRecord j via' r d ∈ new → via' = via ∧ (r, d) ∈ kvs;
  ss_record_out : ∀ r d, (r, d) ∈ kvs → EvRecord i via r d ∈ new;
  ss_unmet : ∀ r d, (r, d) ∈ kvs →
    od_mem r (non_null (requirement_to_dependency st)) = false;
  ss_resolve : ∀ j r, EvResolve j r ∈ new →
    od_mem r (non_null (requirement_to_dependency st)) = false;
  ss_exact : via = PerItemPath → kw_exact kw = true →
    ∀ r d, (r, d) ∈ kvs → dep_exact d = true;
  ss_null : via = PerItemPath →
    ∀ r d, (r, d) ∈ kvs → is_NullDependency d = true →
    kw_return_null kw = true ∧ dep_version d = req_version r
}.

(** The invariant of the chain loop, before the iteration of position [i]. *)
Record Inv (kw : Kwds) (reqs : list ToolRequirement) (i : nat) (st : State) : Prop := {
  inv_nodup : NoDup (od_keys (requirement_to_dependency st));
  inv_keys : od_keys (requirement_to_dependency st) ⊆ reqs;
  inv_bound : ∀ e j, e ∈ trace st → event_index e = Some j → j < i;
  inv_kept : ∀ j via r d,
    EvRecord j via r d ∈ trace st → is_NullDependency d = false →
    od_get r (requirement_to_dependency st) = Some d;
  inv_origin : ∀ r d,
    od_get r (requirement_to_dependency st) = Some d →
    ∃ j via, EvRecord j via r d ∈ trace st;
  inv_precedence : ∀ j j' via r d,
    EvRecord j via r d ∈ trace st → is_NullDependency d = false →
    EvResolve j' r ∈ trace st → (j' ≤ j)%nat;
  inv_exact : kw_exact kw = true →
    ∀ j r d, EvRecord j PerItemPath r d ∈ trace st → dep_exact d = true;
  inv_null : ∀ j r d,
    EvRecord j PerItemPath r d ∈ trace st → is_NullDependency d = true →
    kw_return_null kw = true ∧ dep_version d = req_version r
}.

(** The events of a successful [requirements_to_dependencies]. *)
Definition resolution_events (kw : Kwds) (m : OrderedDict) (tr : list Event) : list Event :=
  tr ++ (if kw_tool_instance kw then [EvToolDependencies (od_values m)] else []).

(** The file system after the build routines of [deps] ran against [path]. *)
Definition built (X : Collaborators) (path : string) (deps : list Dependency)
    (fs : FileSystem) : FileSystem :=
  foldl (λ fs dep, dep_build_cache X dep path fs) fs deps.

(** The cacheable ones among the resolved dependencies. *)
Definition cacheable_values (m : OrderedDict) : list Dependency :=
  filter (λ dep, cacheable dep = true) (od_values m).

(** The calls into resolvers among the events of a trace. *)
Definition invocations (tr : list Event) : list Event :=
  filter (λ e, is_invocation e = true) tr.

(** A resolver that the filters on position and type let through and that
    is not a [build_mulled] resolver met without [install]. *)
Definition eligible (kw : Kwds) (i : nat) (resolver : Resolver) : bool :=
  negb (index_excludes kw i)
  && negb (resolver_type_excludes kw resolver)
  && negb (String.prefix "build_mulled" (resolver_type resolver) && negb (kw_install kw)).

(** A single-item answer that meets a requirement. *)
Definition acceptable (kw : Kwds) (d : Dependency) : bool :=
  negb (kw_exact kw && negb (dep_exact d)) && negb (is_NullDependency d).

(** What the resolver at position [i] has to offer for one requirement. *)
Definition answer (kw : Kwds) (i : nat) (resolver : Resolver) (r : ToolRequirement)
    : option Dependency :=
  if eligible kw i resolver then
    match resolver_class resolver with
    | DependencyResolver resolve =>
        if acceptable kw (resolve (forwarded kw) r) then Some (resolve (forwarded kw) r)
        else None
    | ContainerResolver _ => None
    end
  else None.

(** The first offer along the chain, from position [i] on. *)
Fixpoint first_answer (kw : Kwds) (i : nat) (resolvers : list Resolver)
    (r : ToolRequirement) : option Dependency :=
  match resolvers with
  | [] => None
  | resolver :: rest =>
      match answer kw i resolver r with
      | Some d => Some d
      | None => first_answer kw (S i) rest r
      end
  end.

(** No whole-set resolution of the chain gives a result for these
    requirements. *)
Definition no_whole_set_result (ect : list string) (kw : Kwds)
    (reqs : list ToolRequirement) (resolvers : list Resolver) : Prop :=
  ∀ resolver f, resolver ∈ resolvers →
    select_resolve kw resolver = Some (Some f) →
    truthy (f ect (forwarded kw) reqs) = false.

(** What the engine requires of the resolver it calls as [e] reports: a
    single-item call goes to a plain resolver, for a resolvable
    requirement; a whole-set call goes to what [select_resolve] selects. *)
Definition call_allowed (kw : Kwds) (reqs : list ToolRequirement) (resolver : Resolver)
    (e : Event) : Prop :=
  match e with
  | EvResolve _ r => r ∈ reqs ∧ ∃ f, resolver_class resolver = DependencyResolver f
  | EvResolveAll _ => ∃ f, select_resolve kw resolver = Some (Some f)
  | _ => False
  end.

(** The mapping has an entry for every resolvable requirement, in their
    order, unless no single-item resolution was made and it is empty. *)
Definition covered (reqs : list ToolRequirement) (st : State) : Prop :=
  od_keys (requirement_to_dependency st) = reqs
  ∨ requirement_to_dependency st = [] ∧ ∀ j r, EvResolve j r ∉ trace st.

(** No whole-set call comes after a resolver that recorded a result. *)
Definition whole_set_first (tr : list Event) : Prop :=
  ∀ i j via r d,
    EvResolveAll i ∈ tr → EvRecord j via r d ∈ tr → is_NullDependency d = false → i ≤ j.

(** ** Concrete scenarios *)

Module Scenario.
Definition package (name : string) (version : option string) : ToolRequirement :=
  {| req_name := name; req_version := version; req_type := "package" |}.

(** An installed package, as a package resolver reports it. *)
Definition installed (name : string) (version : option string) (is_exact : bool)
    : Dependency :=
  {| dep_class := PackageDependencyClass;
     dep_name := name;
     dep_version := version;
     dep_exact := is_exact;
     dependency_type := Some "galaxy_package";
     cacheable := true;
     resolver_msg := "Using dependency " +:+ name;
     cache_path := None |}.

Definition default_kwds : Kwds :=
  {| kw_index := None; kw_install := false; kw_resolver_type := None;
     kw_exact := false; kw_return_null := false; kw_search := false;
     kw_force_rebuild := false; kw_tool_instance := false |}.

Definition with_exact (kw : Kwds) : Kwds :=
  {| kw_index := kw_index kw; kw_install := kw_install kw;
     kw_resolver_type := kw_resolver_type kw; kw_exact := true;
     kw_return_null := kw_return_null kw; kw_search := kw_search kw;
     kw_force_rebuild := kw_force_rebuild kw;
     kw_tool_instance := kw_tool_instance kw |}.

Definition with_return_null (kw : Kwds) : Kwds :=
  {| kw_index := kw_index kw; kw_install := kw_install kw;
     kw_resolver_type := kw_resolver_type kw; kw_exact := kw_exact kw;
     kw_return_null := true; kw_search := kw_search kw;
     kw_force_rebuild := kw_force_rebuild kw;
     kw_tool_instance := kw_tool_instance kw |}.

Definition with_force_rebuild (kw : Kwds) : Kwds :=
  {| kw_index := kw_index kw; kw_install := kw_install kw;
     kw_resolver_type := kw_resolver_type kw; kw_exact := kw_exact kw;
     kw_return_null := kw_return_null kw; kw_search := kw_search kw;
     kw_force_rebuild := true;
     kw_tool_instance := kw_tool_instance kw |}.

(** The single-item [resolve] of a resolver that has exactly the package
    [name] installed, whatever the version asked for; [is_exact] is what it
    reports. *)
Definition knows_resolve (name : string) (is_exact : bool)
    (_ : Kwds) (requirement : ToolRequirement) : Dependency :=
  if bool_decide (req_name requirement = name)
  then installed name (req_version requirement) is_exact
  else NullDependency (req_version requirement) (req_name requirement).

Definition knows (type name : string) (is_exact : bool) : Resolver :=
  {| resolver_type := type;
     resolve_all := None;
     resolver_class := DependencyResolver (knows_resolve name is_exact) |}.

(** A resolver with [resolve_all] answering with the fixed [result]. *)
Definition answers_all (type : string) (result : BatchResult) : Resolver :=
  {| resolver_type := type;
     resolve_all := Some (λ _ _ _, result);
     resolver_class :=
       DependencyResolver (λ _ requirement,
         NullDependency (req_version requirement) (req_name requirement)) |}.

(** A resolver with both methods, as the Conda resolver has: a
    [resolve_all] that gives nothing and a [resolve] that has the package
    [name]. *)
Definition conda_like (name : string) : Resolver :=
  {| resolver_type := "conda";
     resolve_all := Some (λ _ _ _, BatchNone);
     resolver_class := DependencyResolver (knows_resolve name true) |}.

Definition manager (chain : list Resolver) : DependencyManager :=
  {| dependency_resolvers := chain;
     enabled_container_types := [];
     tool_dependency_cache_dir := "/galaxy/database/dependencies/_cache";
     precache_dependencies := true |}.

Definition samtools : ToolRequirement := package "samtools" (Some "1.9").
Definition bwa : ToolRequirement := package "bwa" (Some "0.7.17").
Definition both : ToolRequirements := {| resolvable := [samtools; bwa] |}.

(** A stand-in digest for running the caching layer: a polynomial
    checksum of the text, written as 8 hexadecimal digits and padded. *)
Fixpoint checksum (acc : N) (s : string) : N :=
  match s with
  | EmptyString => acc
  | String c s' => checksum ((acc * 31 + N_of_ascii c) mod 65536)%N s'
  end.

Definition nibble (n : N) (k : N) : ascii :=
  hex_digit (N.to_nat ((n / 16 ^ k) mod 16)%N).

Definition checksum_digest (s : string) : string :=
  let n := checksum 7%N s in
  String (nibble n 3) (String (nibble n 2) (String (nibble n 1) (String (nibble n 0) "0000"))).

Definition dquote : ascii := ascii_of_nat 34.

(** A stand-in for [json.dumps] on a list of tuples, following its output
    on ASCII text: the two characters with a short escape, the control
    characters with one, and [\u00XX] for what else is outside the
    printable range. *)
Definition json_escape_char (c : ascii) : string :=
  let n := nat_of_ascii c in
  if bool_decide (n = 34) then "\" +:+ String dquote ""
  else if bool_decide (n = 92) then "\\"
  else if bool_decide (n = 8) then "\b"
  else if bool_decide (n = 12) then "\f"
  else if bool_decide (n = 10) then "\n"
  else if bool_decide (n = 13) then "\r"
  else if bool_decide (n = 9) then "\t"
  else if bool_decide (n < 32 ∨ 126 < n) then
    "\u00" +:+ String (hex_digit (n / 16)) (String (hex_digit (n mod 16)) "")
  else String c "".

Fixpoint json_escape (s : string) : string :=
  match s with
  | EmptyString => ""
  | String c s' => json_escape_char c +:+ json_escape s'
  end.

Definition json_string (s : string) : string :=
  String dquote (json_escape s) +:+ String dquote "".

Definition json_option_string (o : option string) : string :=
  match o with
  | None => "null"
  | Some s => json_string s
  end.

Definition json_bool (b : bool) : string := if b then "true" else "false".

Definition json_array (items : list string) : string :=
  "[" +:+ String.concat ", " items +:+ "]".

Definition json_tuple (t : DepTuple) : string :=
  let '(n, v, e, ty) := t in
  json_array [json_string n; json_option_string v; json_bool e; json_option_string ty].

Definition json_dumps_ascii (l : list DepTuple) : string := json_array (json_tuple <$> l).

(** A host where directories can be removed and every build creates the
    cache directory and adds an entry for its dependency. *)
Definition host : Collaborators :=
  {| is_resolvable_type := λ t, bool_decide (t = "package") || bool_decide (t = "set_environment");
     json_dumps := json_dumps_ascii;
     new_secure_hash := checksum_digest;
     abspath := λ path, path;
     rmtree := λ path fs, (None, delete path fs);
     dep_build_cache := λ dep path fs,
       <[path := default [] (fs !! path) ++ [dep_name dep]]> fs;
     shell_commands := λ dep,
       match cache_path dep with
       | Some path => ["source " +:+ path +:+ "/env.sh"]
       | None => ["source " +:+ dep_name dep +:+ "/env.sh"]
       end |}.

(** The same host with a cache that cannot be removed. *)
Definition read_only_host : Collaborators :=
  {| is_resolvable_type := is_resolvable_type host;
     json_dumps := json_dumps host;
     new_secure_hash := new_secure_hash host;
     abspath := abspath host;
     rmtree := λ path fs, (Some (OSError "Permission denied"), fs);
     dep_build_cache := dep_build_cache host;
     shell_commands := shell_commands host |}.

Definition with_index (index : nat) (kw : Kwds) : Kwds :=
  {| kw_index := Some index; kw_install := kw_install kw;
     kw_resolver_type := kw_resolver_type kw; kw_exact := kw_exact kw;
     kw_return_null := kw_return_null kw; kw_search := kw_search kw;
     kw_force_rebuild := kw_force_rebuild kw;
     kw_tool_instance := kw_tool_instance kw |}.

Definition with_search (kw : Kwds) : Kwds :=
  {| kw_index := kw_index kw; kw_install := kw_install kw;
     kw_resolver_type := kw_resolver_type kw; kw_exact := kw_exact kw;
     kw_return_null := kw_return_null kw; kw_search := true;
     kw_force_rebuild := kw_force_rebuild kw;
     kw_tool_instance := kw_tool_instance kw |}.

(** Two destinations able to run Docker containers. *)
Definition local_docker : Containers.Destination :=
  {| Containers.dest_id := "local_docker";
     Containers.dest_params := [("docker_enabled", "true")] |}.

Definition cluster_docker : Containers.Destination :=
  {| Containers.dest_id := "cluster_docker";
     Containers.dest_params := [("docker_enabled", "true"); ("docker_sudo", "false")] |}.

Definition docker_destinations : gmap string (list Containers.Destination) :=
  {[ "docker" := [local_docker; cluster_docker] ]}.

(** An application configuration object: one option as an attribute, one
    in its [config_dict]. *)
Definition app_config : AppConfig :=
  ConfigObject
    [("conda_auto_install", PyBool true);
     ("config_dict", PyDict [("conda_prefix", PyStr "/galaxy/conda")])].
End Scenario.

(** ** Facts on the ordered mapping *)

Section ordered_dict.
Implicit Types (k : ToolRequirement) (v : Dependency) (m : OrderedDict).

Lemma od_get_od_set k k' v m :
  od_get k' (od_set k v m) = if decide (k' = k) then Some v else od_get k' m.
Proof.
  induction m as [|[k0 v0] m IH]; csimpl.
  - repeat case_decide; congruence.
  - destruct (decide (k = k0)) as [->|Hne]; csimpl.
    + repeat case_decide; congruence.
    + rewrite IH. repeat case_decide; congruence.
Qed.

Lemma od_keys_od_set k v m :
  od_keys (od_set k v m)
  = if decide (k ∈ od_keys m) then od_keys m else od_keys m ++ [k].
Proof.
  unfold od_keys. induction m as [|[k0 v0] m IH]; csimpl.
  - destruct (decide (k ∈ [])) as [H|_]; [by apply elem_of_nil in H | done].
  - destruct (decide (k = k0)) as [->|Hne]; csimpl.
    + rewrite decide_True by left. done.
    + rewrite IH. destruct (decide (k ∈ m.*1)) as [Hin|Hnin].
      * rewrite decide_True by (by right). done.
      * rewrite decide_False; [done|]. rewrite elem_of_cons. naive_solver.
Qed.

Lemma od_get_None k m : od_get k m = None ↔ k ∉ od_keys m.
Proof.
  unfold od_keys. induction m as [|[k0 v0] m IH]; csimpl.
  - split; [intros _; apply not_elem_of_nil | done].
  - rewrite not_elem_of_cons. case_decide; naive_solver.
Qed.

Lemma od_get_Some_elem k v m : od_get k m = Some v → (k, v) ∈ m.
Proof.
  induction m as [|[k0 v0] m IH]; csimpl; [done|].
  case_decide; intros ?; simplify_eq; [left | right; auto].
Qed.

Lemma od_get_is_Some k m : is_Some (od_get k m) ↔ k ∈ od_keys m.
Proof.
  rewrite <-not_eq_None_Some, od_get_None.
  split; [apply dec_stable | auto].
Qed.

Lemma od_get_elem k v m : NoDup (od_keys m) → (k, v) ∈ m → od_get k m = Some v.
Proof.
  unfold od_keys. induction m as [|[k0 v0] m IH]; csimpl.
  - intros _ H. by apply elem_of_nil in H.
  - rewrite NoDup_cons, elem_of_cons. intros [Hk0 Hnd] [Heq|Hin].
    + simplify_eq. by rewrite decide_True.
    + rewrite decide_False; [auto|]. intros ->. apply Hk0.
      apply (list_elem_of_fmap_2 fst) in Hin. done.
Qed.

Lemma od_keys_NoDup_od_set k v m : NoDup (od_keys m) → NoDup (od_keys (od_set k v m)).
Proof.
  intros Hnd. rewrite od_keys_od_set. case_decide; [done|].
  apply NoDup_app. split_and!; [done| |apply NoDup_singleton].
  intros x Hx ->%list_elem_of_singleton. done.
Qed.

(** Filtering the null entries. *)
Lemma non_null_cons k v m :
  non_null ((k, v) :: m)
  = if is_NullDependency v then non_null m else (k, v) :: non_null m.
Proof.
  unfold non_null.
  rewrite (filter_cons (λ kv : ToolRequirement * Dependency, is_NullDependency kv.2 = false)).
  csimpl. destruct (is_NullDependency v); by case_decide.
Qed.

Lemma od_get_non_null k m :
  NoDup (od_keys m) →
  od_get k (non_null m)
  = match od_get k m with
    | Some v => if is_NullDependency v then None else Some v
    | None => None
    end.
Proof.
  induction m as [|[k0 v0] m IH]; [done|].
  unfold od_keys in *. csimpl. rewrite NoDup_cons. intros [Hk0 Hnd].
  rewrite non_null_cons. destruct (decide (k = k0)) as [->|Hne].
  - destruct (is_NullDependency v0) eqn:Hnull.
    + apply od_get_None. intros Hin. apply Hk0.
      unfold od_keys in Hin. apply list_elem_of_fmap in Hin as [[k1 v1] [-> Hin]].
      apply list_elem_of_filter in Hin as [_ Hin].
      by apply (list_elem_of_fmap_2 fst) in Hin.
    + csimpl. by rewrite decide_True.
  - destruct (is_NullDependency v0); csimpl; [|rewrite decide_False by done]; auto.
Qed.

Lemma od_keys_non_null_subseteq m : od_keys (non_null m) ⊆ od_keys m.
Proof.
  intros k. unfold od_keys, non_null. rewrite !list_elem_of_fmap.
  intros [kv [-> Hin]]. apply list_elem_of_filter in Hin as [_ Hin]. eauto.
Qed.

Lemma od_keys_non_null_NoDup m : NoDup (od_keys m) → NoDup (od_keys (non_null m)).
Proof.
  induction m as [|[k0 v0] m IH]; [done|].
  unfold od_keys in *. csimpl. rewrite NoDup_cons. intros [Hk0 Hnd].
  rewrite non_null_cons. destruct (is_NullDependency v0); csimpl; [auto|].
  apply NoDup_cons. split; [|auto].
  intros Hin. apply Hk0. by apply (od_keys_non_null_subseteq m).
Qed.

Lemma od_mem_non_null k m :
  NoDup (od_keys m) →
  od_mem k (non_null m) = true
  ↔ ∃ v, od_get k m = Some v ∧ is_NullDependency v = false.
Proof.
  intros Hnd. unfold od_mem. rewrite bool_decide_eq_true, <-od_get_is_Some.
  rewrite od_get_non_null by done. unfold is_Some.
  destruct (od_get k m) as [v|]; [destruct (is_NullDependency v) eqn:E|].
  - split; [intros [? ?]; done | intros (? & ? & ?); congruence].
  - split; [eauto | intros _; eauto].
  - split; [intros [? ?]; done | intros (? & ? & ?); done].
Qed.

Lemma non_null_nil_inv k v m :
  length (non_null m) = 0 → od_get k m = Some v → is_NullDependency v = true.
Proof.
  intros Hlen Hget. apply od_get_Some_elem in Hget.
  apply nil_length_inv in Hlen.
  destruct (is_NullDependency v) eqn:E; [done|].
  assert ((k, v) ∈ non_null m) as Hin by (by apply list_elem_of_filter).
  rewrite Hlen in Hin. by apply elem_of_nil in Hin.
Qed.

(** Runs of assignments. *)
Lemma od_keys_od_update kvs m :
  ∃ block, od_keys (od_update kvs m) = od_keys m ++ block
           ∧ block `sublist_of` kvs.*1
           ∧ (∀ k, k ∈ block → k ∉ od_keys m).
Proof.
  revert m. induction kvs as [|[k v] kvs IH]; intros m; csimpl.
  - exists []. rewrite app_nil_r. split_and!; [done|done|].
    intros k H. by apply elem_of_nil in H.
  - destruct (IH (od_set k v m)) as (block & Hk & Hsub & Hfresh).
    rewrite od_keys_od_set in Hk, Hfresh. case_decide as Hin.
    + exists block. split_and!; [done|by apply sublist_cons|done].
    + exists (k :: block). split_and!.
      * by rewrite Hk, <-app_assoc.
      * by apply sublist_skip.
      * intros k' [->|Hk']%elem_of_cons; [done|].
        intros ?. apply (Hfresh k' Hk'). apply elem_of_app. by left.
Qed.

Lemma od_keys_NoDup_od_update kvs m :
  NoDup (od_keys m) → NoDup (od_keys (od_update kvs m)).
Proof.
  revert m. induction kvs as [|[k v] kvs IH]; intros m Hnd; csimpl; [done|].
  apply IH. by apply od_keys_NoDup_od_set.
Qed.

Lemma od_keys_od_update_elem k v kvs m : (k, v) ∈ kvs → k ∈ od_keys (od_update kvs m).
Proof.
  revert m. induction kvs as [|[k0 v0] kvs IH]; intros m; csimpl.
  - intros H. by apply elem_of_nil in H.
  - intros [Heq|Hin]%elem_of_cons; [|by apply IH]. simplify_eq.
    destruct (od_keys_od_update kvs (od_set k0 v0 m)) as (block & -> & _).
    apply elem_of_app. left. rewrite od_keys_od_set.
    case_decide; [done|]. apply elem_of_app. right. by left.
Qed.

Lemma od_get_od_update_notin k kvs m :
  k ∉ kvs.*1 → od_get k (od_update kvs m) = od_get k m.
Proof.
  revert m. induction kvs as [|[k0 v0] kvs IH]; intros m; csimpl; [done|].
  rewrite not_elem_of_cons. intros [Hne Hnin].
  rewrite IH by done. rewrite od_get_od_set. by rewrite decide_False.
Qed.

Lemma od_get_od_update_in k v kvs m :
  NoDup kvs.*1 → (k, v) ∈ kvs → od_get k (od_update kvs m) = Some v.
Proof.
  revert m. induction kvs as [|[k0 v0] kvs IH]; intros m; csimpl.
  - intros _ H. by apply elem_of_nil in H.
  - rewrite NoDup_cons, elem_of_cons. intros [Hk0 Hnd] [Heq|Hin].
    + simplify_eq. rewrite od_get_od_update_notin by done.
      rewrite od_get_od_set. by rewrite decide_True.
    + by apply IH.
Qed.

(** A position once taken is kept. *)
Lemma od_keys_od_update_lookup kvs m n k :
  od_keys m !! n = Some k → od_keys (od_update kvs m) !! n = Some k.
Proof.
  intros Hn. destruct (od_keys_od_update kvs m) as (block & -> & _).
  by apply lookup_app_l_Some.
Qed.
End ordered_dict.

(** ** Closed forms of the two inner loops *)

Section inner_loops.
Context (kw : Kwds).
Implicit Types (st : State) (met : OrderedDict) (rs : list ToolRequirement).
Implicit Types (f : Kwds → ToolRequirement → Dependency).

Lemma per_item_body_closed i f met r st :
  per_item_body kw i f met r st
  = {| requirement_to_dependency :=
         od_update (option_list (contribution kw f met r)) (requirement_to_dependency st);
       trace := trace st ++ per_item_events kw i f met r |}.
Proof.
  unfold per_item_body, per_item_events, contribution, record, emit.
  destruct st as [m tr]; simpl.
  destruct (od_mem r met); simpl; [by rewrite app_nil_r|].
  destruct (kw_exact kw && negb (dep_exact (f (forwarded kw) r))); simpl; [done|].
  destruct (negb (is_NullDependency (f (forwarded kw) r))); simpl.
  { unfold record_events; simpl. by rewrite <-app_assoc. }
  destruct (kw_return_null kw); simpl; [|done].
  unfold record_events; simpl. by rewrite <-app_assoc.
Qed.

Lemma per_item_loop_closed i f met rs st :
  per_item_loop kw i f met rs st
  = {| requirement_to_dependency :=
         od_update (omap (contribution kw f met) rs) (requirement_to_dependency st);
       trace := trace st ++ (rs ≫= per_item_events kw i f met) |}.
Proof.
  revert st. induction rs as [|r rs IH]; intros st; csimpl.
  - destruct st; simpl. by rewrite app_nil_r.
  - rewrite IH, per_item_body_closed; simpl. f_equal.
    + destruct (contribution kw f met r); simpl; done.
    + by rewrite <-app_assoc.
Qed.

Lemma batch_record_closed i rs ds st :
  batch_record i rs ds st
  = {| requirement_to_dependency := od_update (zip rs ds) (requirement_to_dependency st);
       trace := trace st ++ (zip rs ds ≫= record_events i BatchPath) |}.
Proof.
  revert ds st. induction rs as [|r rs IH]; intros [|d ds] st; csimpl;
    try (destruct st; simpl; by rewrite app_nil_r).
  rewrite IH. unfold record, record_events; simpl. by rewrite <-app_assoc.
Qed.

(** What a contribution is made of. *)
Lemma contribution_Some f met r kv :
  contribution kw f met r = Some kv →
  kv.1 = r ∧ od_mem r met = false
  ∧ (kw_exact kw = true → dep_exact kv.2 = true)
  ∧ (is_NullDependency kv.2 = false → kv.2 = f (forwarded kw) r)
  ∧ (is_NullDependency kv.2 = true →
       kw_return_null kw = true ∧ dep_version kv.2 = req_version r).
Proof.
  unfold contribution. destruct (od_mem r met); [done|].
  destruct (kw_exact kw) eqn:Hex, (dep_exact (f (forwarded kw) r)) eqn:Hd;
    simpl; try done;
    destruct (is_NullDependency (f (forwarded kw) r)) eqn:Hnull; simpl;
    try (destruct (kw_return_null kw) eqn:Hrn; [|done]);
    intros [= <-]; simpl; split_and!; try done;
    unfold is_NullDependency in *; simpl in *; congruence.
Qed.

Lemma contributions_keys f met rs :
  (omap (contribution kw f met) rs).*1 `sublist_of` rs.
Proof.
  induction rs as [|r rs IH]; csimpl; [done|].
  destruct (contribution kw f met r) as [kv|] eqn:Hc; csimpl.
  - apply contribution_Some in Hc as [<- _]. by apply sublist_skip.
  - by apply sublist_cons.
Qed.

Lemma elem_of_contributions f met rs kv :
  kv ∈ omap (contribution kw f met) rs
  ↔ kv.1 ∈ rs ∧ contribution kw f met kv.1 = Some kv.
Proof.
  rewrite list_elem_of_omap. split.
  - intros (r & Hr & Hc). pose proof Hc as [<- _]%contribution_Some. done.
  - intros [Hr Hc]. eauto.
Qed.

(** The events of the per-item loop. *)
Lemma per_item_events_record i f met rs j via r d :
  EvRecord j via r d ∈ (rs ≫= per_item_events kw i f met)
  ↔ j = i ∧ via = PerItemPath ∧ (r, d) ∈ omap (contribution kw f met) rs.
Proof.
  rewrite list_elem_of_bind, elem_of_contributions. simpl.
  unfold per_item_events. split.
  - intros (r' & Hin & Hr'). destruct (od_mem r' met); [by apply elem_of_nil in Hin|].
    apply elem_of_cons in Hin as [?|Hin]; [done|].
    destruct (contribution kw f met r') as [kv|] eqn:Hc; simpl in Hin;
      [|by apply elem_of_nil in Hin].
    pose proof Hc as [Hk _]%contribution_Some.
    unfold record_events in Hin.
    apply elem_of_cons in Hin as [?|Hin]; [done|].
    apply list_elem_of_singleton in Hin. simplify_eq. simpl.
    destruct kv; simpl in *. done.
  - intros (-> & -> & Hr & Hc). exists r. split; [|done].
    pose proof Hc as (_ & -> & _)%contribution_Some. rewrite Hc. simpl.
    unfold record_events. simpl. set_solver.
Qed.

Lemma per_item_events_resolve i f met rs j r :
  EvResolve j r ∈ (rs ≫= per_item_events kw i f met)
  ↔ j = i ∧ r ∈ rs ∧ od_mem r met = false.
Proof.
  rewrite list_elem_of_bind. unfold per_item_events. split.
  - intros (r' & Hin & Hr'). destruct (od_mem r' met) eqn:Hm;
      [by apply elem_of_nil in Hin|].
    apply elem_of_cons in Hin as [?|Hin]; [by simplify_eq|].
    destruct (contribution kw f met r') as [kv|]; simpl in Hin;
      [|by apply elem_of_nil in Hin].
    unfold record_events in Hin. set_solver.
  - intros (-> & Hr & Hm). exists r. rewrite Hm. split; [left|done].
Qed.

Lemma per_item_events_resolve_all i f met rs j :
  EvResolveAll j ∉ (rs ≫= per_item_events kw i f met).
Proof.
  rewrite list_elem_of_bind. unfold per_item_events.
  intros (r' & Hin & Hr'). destruct (od_mem r' met); [by apply elem_of_nil in Hin|].
  apply elem_of_cons in Hin as [?|Hin]; [done|].
  destruct (contribution kw f met r') as [kv|]; simpl in Hin;
    [|by apply elem_of_nil in Hin].
  unfold record_events in Hin. set_solver.
Qed.

(** The events of the batch loop. *)
Lemma batch_events_record i (kvs : list (ToolRequirement * Dependency)) j via r d :
  EvRecord j via r d ∈ (kvs ≫= record_events i BatchPath)
  ↔ j = i ∧ via = BatchPath ∧ (r, d) ∈ kvs.
Proof.
  rewrite list_elem_of_bind. unfold record_events. split.
  - intros ([r' d'] & Hin & Hkv). simpl in Hin.
    apply elem_of_cons in Hin as [?|Hin]; [done|].
    apply list_elem_of_singleton in Hin. by simplify_eq.
  - intros (-> & -> & Hin). exists (r, d). split; [|done]. simpl. set_solver.
Qed.

Lemma batch_events_no_invocation i (kvs : list (ToolRequirement * Dependency)) :
  Forall (λ e, is_invocation e = false) (kvs ≫= record_events i BatchPath).
Proof.
  apply Forall_forall. intros e. rewrite list_elem_of_bind.
  intros (kv & Hin & _). unfold record_events in Hin.
  apply elem_of_cons in Hin as [->|Hin]; [done|].
  apply list_elem_of_singleton in Hin as ->. done.
Qed.
End inner_loops.

(** ** One iteration of the chain loop *)

(** Closes a goal with a membership in the empty list among its premises. *)
Ltac by_nil :=
  intros;
  match goal with
  | H : _ ∈ [] |- _ => by apply elem_of_nil in H
  end.

Section engine.
Context (ect : list string) (kw : Kwds) (reqs : list ToolRequirement).
Implicit Types (st : State) (resolver : Resolver) (rs : list Resolver).

Lemma resolver_step_case i resolver st :
  StepCase ect kw reqs i resolver st (resolver_step ect kw reqs i resolver st).
Proof.
  unfold resolver_step.
  destruct (index_excludes kw i); [constructor|].
  destruct (resolver_type_excludes kw resolver); [constructor|].
  case_bool_decide as Hlen; [by constructor|].
  destruct (_ && _); [constructor|].
  destruct (select_resolve kw resolver) as [[f|]|] eqn:Hsel; [| |constructor].
  - case_bool_decide as Hall; [|constructor].
    destruct (truthy _) eqn:Htruthy; [|by econstructor].
    case_bool_decide; by econstructor.
  - destruct (bool_decide _); constructor.
Qed.

Lemma summary_nothing i st : StepSummary kw reqs i st st PerItemPath [] [].
Proof.
  split; simpl; try done; try by_nil.
  - by rewrite app_nil_r.
  - apply sublist_nil_l.
Qed.

(** The per-item pass after [pre] (nothing, or the failed whole-set try). *)
Lemma summary_per_item i resolver st pre :
  (∀ e, e ∈ pre → e = EvResolveAll i) →
  ∃ kvs,
    StepSummary kw reqs i st
      (per_item_pass kw i resolver (non_null (requirement_to_dependency st)) reqs
         {| requirement_to_dependency := requirement_to_dependency st;
            trace := trace st ++ pre |})
      PerItemPath kvs
      (pre ++ match resolver_class resolver with
              | DependencyResolver f =>
                  reqs ≫= per_item_events kw i f (non_null (requirement_to_dependency st))
              | ContainerResolver _ => []
              end).
Proof.
  intros Hpre. unfold per_item_pass.
  destruct (resolver_class resolver) as [f|f].
  - set (met := non_null (requirement_to_dependency st)).
    exists (omap (contribution kw f met) reqs).
    rewrite per_item_loop_closed. split; simpl.
    + done.
    + by rewrite app_assoc.
    + apply contributions_keys.
    + intros e j [He|He]%elem_of_app Hj.
      * apply Hpre in He as ->. by simplify_eq/=.
      * apply list_elem_of_bind in He as (r & He & _). unfold per_item_events in He.
        destruct (od_mem r met); [by apply elem_of_nil in He|].
        apply elem_of_cons in He as [->|He]; [by simplify_eq/=|].
        destruct (contribution kw f met r); simpl in He; [|by apply elem_of_nil in He].
        unfold record_events in He.
        apply elem_of_cons in He as [->|He]; [done|].
        apply list_elem_of_singleton in He as ->. by simplify_eq/=.
    + intros j via' r d [He|He]%elem_of_app.
      * by apply Hpre in He.
      * by apply per_item_events_record in He as (_ & -> & ?).
    + intros r d Hin. apply elem_of_app. right. by apply per_item_events_record.
    + intros r d Hin%elem_of_contributions. simpl in Hin.
      by destruct Hin as [_ (_ & ? & _)%contribution_Some].
    + intros j r [He|He]%elem_of_app.
      * by apply Hpre in He.
      * by apply per_item_events_resolve in He as (_ & _ & ?).
    + intros _ Hex r d Hin%elem_of_contributions. simpl in Hin.
      destruct Hin as [_ (_ & _ & H & _)%contribution_Some]. auto.
    + intros _ r d Hin%elem_of_contributions. simpl in Hin.
      destruct Hin as [_ (_ & _ & _ & _ & H)%contribution_Some]. auto.
  - exists []. split; simpl; try done; try by_nil.
    + by rewrite app_nil_r.
    + apply sublist_nil_l.
    + intros e j He Hj. rewrite app_nil_r in He. apply Hpre in He as ->.
      by simplify_eq/=.
    + intros j via' r d He. rewrite app_nil_r in He. by apply Hpre in He.
    + intros j r He. rewrite app_nil_r in He. by apply Hpre in He.
Qed.

(** The successful whole-set pass. *)
Lemma summary_batch i st ds :
  length (non_null (requirement_to_dependency st)) = 0 →
  length ds = length reqs →
  StepSummary kw reqs i st (batch_record i reqs ds (emit (EvResolveAll i) st))
    BatchPath (zip reqs ds)
    (EvResolveAll i :: (zip reqs ds ≫= record_events i BatchPath)).
Proof.
  intros Hnone Hlen. rewrite batch_record_closed. split; simpl; try done.
  - by rewrite <-app_assoc.
  - rewrite fst_zip by lia. done.
  - intros e j [->|He]%elem_of_cons Hj; [by simplify_eq/=|].
    apply list_elem_of_bind in He as (kv & He & _). unfold record_events in He.
    apply elem_of_cons in He as [->|He]; [done|].
    apply list_elem_of_singleton in He as ->. by simplify_eq/=.
  - intros j via' r d [?|He]%elem_of_cons; [done|].
    by apply batch_events_record in He as (_ & -> & ?).
  - intros r d Hin. right. by apply batch_events_record.
  - intros r d _. apply nil_length_inv in Hnone. rewrite Hnone. done.
  - intros j r _. apply nil_length_inv in Hnone. rewrite Hnone. done.
Qed.

Lemma step_summary i resolver st c st' :
  resolver_step ect kw reqs i resolver st = inl (c, st') →
  ∃ via kvs new, StepSummary kw reqs i st st' via kvs new.
Proof.
  intros Hstep. pose proof (resolver_step_case i resolver st) as Hcase.
  rewrite Hstep in Hcase. inversion Hcase as [| |f ? ? ? Hlen|f|f|]; subst.
  - eauto using summary_nothing.
  - eauto using summary_nothing.
  - eauto using summary_batch.
  - destruct (summary_per_item i resolver st [EvResolveAll i]) as [kvs Hs].
    { by intros e ->%list_elem_of_singleton. }
    eauto.
  - destruct (summary_per_item i resolver st []) as [kvs Hs].
    { intros e He. by apply elem_of_nil in He. }
    rewrite app_nil_r in Hs. destruct st. eauto.
Qed.
End engine.

(** ** The invariant along the chain *)

Section chain.
Context (ect : list string) (kw : Kwds) (reqs : list ToolRequirement).
Context (Hreqs : NoDup reqs).
Implicit Types (st : State) (resolver : Resolver) (rs : list Resolver).

Lemma inv_initial : Inv kw reqs 0 initial_state.
Proof.
  split; simpl; try by_nil; try done.
  - apply NoDup_nil_2.
  - intros r Hr. by apply elem_of_nil in Hr.
Qed.

Lemma inv_weaken i j st : i ≤ j → Inv kw reqs i st → Inv kw reqs j st.
Proof.
  intros Hij [Hnd Hk Hb Hkept Ho Hp Hex Hnull].
  split; try done. intros e n He Hn. specialize (Hb e n He Hn). lia.
Qed.

(** A requirement that is met is not assigned again. *)
Lemma met_not_assigned i st st' via kvs new r d :
  Inv kw reqs i st → StepSummary kw reqs i st st' via kvs new →
  od_get r (requirement_to_dependency st) = Some d →
  is_NullDependency d = false →
  r ∉ kvs.*1.
Proof.
  intros HI Hs Hget Hnn Hin.
  apply list_elem_of_fmap in Hin as ([r' d'] & -> & Hin). simpl in *.
  apply (ss_unmet _ _ _ _ _ _ _ _ Hs) in Hin.
  assert (od_mem r' (non_null (requirement_to_dependency st)) = true) as Hmem.
  { apply od_mem_non_null; [apply (inv_nodup _ _ _ _ HI)|eauto]. }
  congruence.
Qed.

Lemma inv_summary i st st' via kvs new :
  Inv kw reqs i st → StepSummary kw reqs i st st' via kvs new → Inv kw reqs (S i) st'.
Proof.
  intros HI Hs.
  pose proof (λ r d, met_not_assigned i st st' via kvs new r d HI Hs) as Hmet.
  destruct HI as [Hnd Hk Hb Hkept Ho Hp Hex Hnull].
  destruct Hs as [Hmap Htr Hkeys Hidx Hrin Hrout Hunmet Hres Hsex Hsnull].
  assert (NoDup kvs.*1) as Hkvs by (by apply (sublist_NoDup _ reqs)).
  split; rewrite ?Hmap, ?Htr.
  - by apply od_keys_NoDup_od_update.
  - destruct (od_keys_od_update kvs (requirement_to_dependency st))
      as (block & -> & Hsub & _).
    intros r [Hr|Hr]%elem_of_app; [by apply Hk|].
    eapply sublist_subseteq; [|done]. by etrans.
  - intros e j [He|He]%elem_of_app Hj.
    + specialize (Hb e j He Hj). lia.
    + rewrite (Hidx e j He Hj). lia.
  - intros j via' r d [He|He]%elem_of_app Hnn.
    + rewrite od_get_od_update_notin; eauto.
    + apply Hrin in He as [_ Hin]. by apply od_get_od_update_in.
  - intros r d Hget. destruct (decide (r ∈ kvs.*1)) as [Hin|Hnin].
    + apply list_elem_of_fmap in Hin as ([r' d'] & -> & Hin). simpl in *.
      rewrite (od_get_od_update_in r' d') in Hget by done. simplify_eq.
      exists i, via. apply elem_of_app. right. by apply Hrout.
    + rewrite od_get_od_update_notin in Hget by done.
      destruct (Ho r d Hget) as (j & via' & He). exists j, via'.
      apply elem_of_app. by left.
  - intros j j' via' r d [He|He]%elem_of_app Hnn [He'|He']%elem_of_app.
    + eauto.
    + exfalso. apply Hres in He'.
      assert (od_mem r (non_null (requirement_to_dependency st)) = true) as Hmem.
      { apply od_mem_non_null; eauto. }
      congruence.
    + rewrite (Hidx _ j He eq_refl). specialize (Hb _ j' He' eq_refl). lia.
    + by rewrite (Hidx _ j He eq_refl), (Hidx _ j' He' eq_refl).
  - intros Hexact j r d [He|He]%elem_of_app; [eauto|].
    apply Hrin in He as [<- Hin]. eauto.
  - intros j r d [He|He]%elem_of_app Hn; [eauto|].
    apply Hrin in He as [<- Hin]. eauto.
Qed.

Lemma inv_step i resolver st c st' :
  Inv kw reqs i st →
  resolver_step ect kw reqs i resolver st = inl (c, st') →
  Inv kw reqs (S i) st'.
Proof.
  intros HI (via & kvs & new & Hs)%step_summary. by eapply inv_summary.
Qed.

Lemma inv_chain rs i st c st' :
  Inv kw reqs i st →
  resolve_chain ect kw reqs i rs st = inl (c, st') →
  Inv kw reqs (i + length rs) st'.
Proof.
  revert i st. induction rs as [|resolver rs IH]; intros i st HI; simpl.
  - intros [= <- <-]. by rewrite Nat.add_0_r.
  - destruct (resolver_step ect kw reqs i resolver st) as [[[] st1]|[e tr]] eqn:Hstep;
      [| |done].
    + intros Hrest. replace (i + S (length rs)) with (S i + length rs) by lia.
      eapply IH; [|done]. by eapply inv_step.
    + intros [= <- <-]. eapply inv_weaken; [|by eapply inv_step]. lia.
Qed.

(** Splitting the chain. *)
Lemma resolve_chain_app rs1 rs2 i st :
  resolve_chain ect kw reqs i (rs1 ++ rs2) st
  = match resolve_chain ect kw reqs i rs1 st with
    | inl (Next, st') => resolve_chain ect kw reqs (i + length rs1) rs2 st'
    | other => other
    end.
Proof.
  revert i st. induction rs1 as [|resolver rs1 IH]; intros i st; simpl.
  - by rewrite Nat.add_0_r.
  - destruct (resolver_step ect kw reqs i resolver st) as [[[] st1]|[e tr]]; [| |done..].
    + rewrite IH. replace (S i + length rs1) with (i + S (length rs1)) by lia. done.
    + done.
Qed.

(** Every step and every run only extends the mapping's keys and the trace. *)
Lemma chain_extends rs i st c st' :
  resolve_chain ect kw reqs i rs st = inl (c, st') →
  (∃ new, trace st' = trace st ++ new
          ∧ ∀ e j, e ∈ new → event_index e = Some j → i ≤ j)
  ∧ (∃ added, od_keys (requirement_to_dependency st')
              = od_keys (requirement_to_dependency st) ++ added).
Proof.
  revert i st. induction rs as [|resolver rs IH]; intros i st; simpl.
  - intros [= <- <-]. split; [exists []|exists []]; rewrite ?app_nil_r; [|done].
    split; [done|by_nil].
  - destruct (resolver_step ect kw reqs i resolver st) as [[ctl st1]|[e tr]] eqn:Hstep;
      [|done].
    apply step_summary in Hstep as (via & kvs & new & Hs).
    destruct (od_keys_od_update kvs (requirement_to_dependency st)) as (block & Hb & _).
    rewrite <-(ss_map _ _ _ _ _ _ _ _ Hs) in Hb.
    assert (∀ e j, e ∈ new → event_index e = Some j → i ≤ j) as Hnew.
    { intros e j He Hj. rewrite (ss_index _ _ _ _ _ _ _ _ Hs e j He Hj). done. }
    destruct ctl.
    + intros Hrest. apply IH in Hrest as [(new' & Htr & Hidx) (added & Hadd)]. split.
      * exists (new ++ new'). rewrite Htr, (ss_trace _ _ _ _ _ _ _ _ Hs), app_assoc.
        split; [done|]. intros e j [He|He]%elem_of_app Hj; [eauto|].
        specialize (Hidx e j He Hj). lia.
      * exists (block ++ added). by rewrite Hadd, Hb, app_assoc.
    + intros [= <- <-]. split; [exists new|exists block]; [|done].
      split; [by apply (ss_trace _ _ _ _ _ _ _ _ Hs)|done].
Qed.
End chain.

(** ** Order of the keys of the result *)

Section key_order.
Context (ect : list string) (kw : Kwds) (reqs : list ToolRequirement).

Lemma step_block i resolver st c st' :
  resolver_step ect kw reqs i resolver st = inl (c, st') →
  ∃ block new,
    od_keys (requirement_to_dependency st')
    = od_keys (requirement_to_dependency st) ++ block
    ∧ trace st' = trace st ++ new
    ∧ block `sublist_of` reqs
    ∧ (∀ r, r ∈ block →
         (r ∉ od_keys (requirement_to_dependency st))
         ∧ ∃ via d, EvRecord i via r d ∈ new)
    ∧ (∀ e j, e ∈ new → event_index e = Some j → j = i)
    ∧ (∀ j via r d, EvRecord j via r d ∈ new →
         r ∈ od_keys (requirement_to_dependency st')).
Proof.
  intros (via & kvs & new & Hs)%step_summary.
  destruct (od_keys_od_update kvs (requirement_to_dependency st))
    as (block & Hb & Hsub & Hfresh).
  rewrite <-(ss_map _ _ _ _ _ _ _ _ Hs) in Hb.
  exists block, new. split_and!; [done|apply Hs| | |apply Hs|].
  - etrans; [done|apply Hs].
  - intros r Hr. split; [by apply Hfresh|].
    eapply sublist_subseteq in Hr; [|done].
    apply list_elem_of_fmap in Hr as ([r' d] & -> & Hin).
    exists via, d. by apply (ss_record_out _ _ _ _ _ _ _ _ Hs).
  - intros j via' r d [_ Hin]%(ss_record_in _ _ _ _ _ _ _ _ Hs).
    rewrite (ss_map _ _ _ _ _ _ _ _ Hs). by eapply od_keys_od_update_elem.
Qed.

Lemma chain_blocks rs i st c st' :
  (∀ e j, e ∈ trace st → event_index e = Some j → j < i) →
  (∀ j via r d, EvRecord j via r d ∈ trace st →
                r ∈ od_keys (requirement_to_dependency st)) →
  resolve_chain ect kw reqs i rs st = inl (c, st') →
  ∃ blocks,
    od_keys (requirement_to_dependency st')
    = od_keys (requirement_to_dependency st) ++ concat blocks
    ∧ length blocks = length rs
    ∧ ∀ n block, blocks !! n = Some block →
        block `sublist_of` reqs
        ∧ ∀ r, r ∈ block →
            (∃ via d, EvRecord (i + n) via r d ∈ trace st')
            ∧ ∀ j via d, EvRecord j via r d ∈ trace st' → i + n ≤ j.
Proof.
  revert i st. induction rs as [|resolver rs IH]; intros i st Hbound Hkeys; simpl.
  - intros [= <- <-]. exists []. rewrite app_nil_r. split_and!; [done..|].
    intros n block Hn. by rewrite lookup_nil in Hn.
  - destruct (resolver_step ect kw reqs i resolver st) as [[ctl st1]|[e tr]] eqn:Hstep;
      [|done].
    apply step_block in Hstep as (block0 & new & Hk & Htr & Hsub & Hrec & Hidx & Hnewkeys).
    assert (∀ e j, e ∈ trace st1 → event_index e = Some j → j < S i) as Hbound1.
    { intros e j He Hj. rewrite Htr in He. apply elem_of_app in He as [He|He].
      - specialize (Hbound e j He Hj). lia.
      - rewrite (Hidx e j He Hj). lia. }
    assert (∀ j via r d, EvRecord j via r d ∈ trace st1 →
                         r ∈ od_keys (requirement_to_dependency st1)) as Hkeys1.
    { intros j via r d He. rewrite Htr in He. apply elem_of_app in He as [He|He].
      - rewrite Hk. apply elem_of_app. left. by eapply Hkeys.
      - by eapply Hnewkeys. }
    assert (∀ tail, (∀ e j, e ∈ tail → event_index e = Some j → S i ≤ j) →
              ∀ r, r ∈ block0 →
                (∃ via d, EvRecord (i + 0) via r d ∈ trace st1 ++ tail)
                ∧ ∀ j via d, EvRecord j via r d ∈ trace st1 ++ tail → i + 0 ≤ j) as Hhead.
    { intros tail Htail r [Hfresh (via & d & He)]%Hrec. rewrite Nat.add_0_r. split.
      - exists via, d. rewrite Htr. apply elem_of_app. left. apply elem_of_app. by right.
      - intros j via' d' Hin. rewrite Htr in Hin.
        apply elem_of_app in Hin as [[Hin|Hin]%elem_of_app|Hin].
        + exfalso. apply Hfresh. by eapply Hkeys.
        + by rewrite (Hidx _ j Hin eq_refl).
        + specialize (Htail _ j Hin eq_refl). lia. }
    destruct ctl.
    + intros Hrest. pose proof Hrest as [(new' & Htr' & Hidx') _]%chain_extends.
      apply IH in Hrest as (blocks & Hk' & Hlen & Hblocks); [|done..].
      exists (block0 :: blocks). simpl. split_and!.
      * by rewrite Hk', Hk, app_assoc.
      * by rewrite Hlen.
      * intros [|n] block Hn; simpl in Hn.
        -- simplify_eq. split; [done|]. rewrite Htr'. by apply Hhead.
        -- apply Hblocks in Hn as [? Hn]. split; [done|].
           by replace (i + S n) with (S i + n) by lia.
    + intros [= <- <-]. exists (block0 :: replicate (length rs) []). simpl.
      split_and!.
      * rewrite Hk. f_equal.
        assert (∀ n, concat (replicate n (@nil ToolRequirement)) = []) as ->.
        { intros n. induction n; simpl; auto. }
        by rewrite app_nil_r.
      * by rewrite length_replicate.
      * intros [|n] block Hn; simpl in Hn.
        -- simplify_eq. split; [done|]. rewrite <-(app_nil_r (trace st1)).
           apply Hhead. by_nil.
        -- apply lookup_replicate in Hn as [-> _]. split; [apply sublist_nil_l|].
           intros r Hr. by apply elem_of_nil in Hr.
Qed.

Lemma chain_keys_NoDup rs i st c st' :
  NoDup (od_keys (requirement_to_dependency st)) →
  resolve_chain ect kw reqs i rs st = inl (c, st') →
  NoDup (od_keys (requirement_to_dependency st')).
Proof.
  revert i st. induction rs as [|resolver rs IH]; intros i st Hnd; simpl.
  - by intros [= <- <-].
  - destruct (resolver_step ect kw reqs i resolver st) as [[ctl st1]|[e tr]] eqn:Hstep;
      [|done].
    apply step_summary in Hstep as (via & kvs & new & Hs).
    assert (NoDup (od_keys (requirement_to_dependency st1))) as Hnd1.
    { rewrite (ss_map _ _ _ _ _ _ _ _ Hs). by apply od_keys_NoDup_od_update. }
    destruct ctl; [by apply IH|]. by intros [= <- <-].
Qed.
End key_order.

(** C1, as amended. The keys of the returned mapping are pairwise distinct
    and come in blocks, one per resolver of the chain and in chain order: the
    block of a resolver holds the requirements whose first recording is by
    that resolver, and within a block the requirements are in the order of
    the input's resolvable requirements. *)
Theorem keys_in_order_of_first_recording self requirements kw m tr :
  _requirements_to_dependencies_dict self requirements kw = (Returned m, tr) →
  NoDup (od_keys m)
  ∧ ∃ blocks,
      od_keys m = concat blocks
      ∧ length blocks = length (dependency_resolvers self)
      ∧ ∀ i block, blocks !! i = Some block →
          block `sublist_of` resolvable requirements
          ∧ ∀ r, r ∈ block →
              (∃ via d, EvRecord i via r d ∈ tr)
              ∧ ∀ j via d, EvRecord j via r d ∈ tr → i ≤ j.
Proof.
  unfold _requirements_to_dependencies_dict.
  destruct (resolve_chain _ _ _ _ _ _) as [[c st]|[e tr']] eqn:Hrun; [|done].
  intros [= <- <-]. split.
  - eapply chain_keys_NoDup; [|done]. apply NoDup_nil_2.
  - apply chain_blocks in Hrun as (blocks & Hk & Hlen & Hblocks);
      [|simpl; by_nil|simpl; by_nil].
    exists blocks. split_and!; [done..|]. apply Hblocks.
Qed.

(** C1, as stated, fails: the first resolver of the chain knows only the
    second requirement and the second resolver only the first one; the keys
    come out in the order of recording, not in the input's order. *)
Lemma keys_not_in_input_order :
  ∃ m tr,
    _requirements_to_dependencies_dict
      (Scenario.manager [Scenario.knows "galaxy_packages" "bwa" true;
                         Scenario.knows "conda" "samtools" true])
      Scenario.both Scenario.default_kwds = (Returned m, tr)
    ∧ resolvable Scenario.both = [Scenario.samtools; Scenario.bwa]
    ∧ od_keys m = [Scenario.bwa; Scenario.samtools]
    ∧ ¬ od_keys m `sublist_of` resolvable Scenario.both.
Proof.
  eexists _, _. split; [vm_compute; reflexivity|].
  split; [done|]. split; [done|].
  vm_compute. intros H.
  apply sublist_cons_l in H as (k1 & k2 & Hk & H).
  destruct k1 as [|x [|y k1]]; simplify_eq/=.
  - by apply sublist_nil_r in H.
  - destruct k1; simplify_eq/=.
Qed.

(** ** Whole-set resolution *)

Section batch.
Context (ect : list string) (kw : Kwds) (reqs : list ToolRequirement).
Implicit Types (st : State) (resolver : Resolver) (rs : list Resolver).

(** Whatever the outcome, an iteration appends events of its own position. *)
Lemma step_trace i resolver st :
  ∃ new,
    result_trace (resolver_step ect kw reqs i resolver st) = trace st ++ new
    ∧ ∀ e j, e ∈ new → event_index e = Some j → j = i.
Proof.
  destruct (resolver_step ect kw reqs i resolver st) as [[c st']|[e tr]] eqn:Hstep.
  - apply step_summary in Hstep as (via & kvs & new & Hs).
    exists new. split; [apply Hs|]. apply Hs.
  - pose proof (resolver_step_case ect kw reqs i resolver st) as Hcase.
    rewrite Hstep in Hcase. inversion Hcase; subst.
    exists [EvResolveAll i]. split; [done|].
    intros e' j ->%list_elem_of_singleton [= <-]. done.
Qed.

Lemma chain_trace rs i st :
  ∃ new,
    result_trace (resolve_chain ect kw reqs i rs st) = trace st ++ new
    ∧ ∀ e j, e ∈ new → event_index e = Some j → i ≤ j.
Proof.
  revert i st. induction rs as [|resolver rs IH]; intros i st; simpl.
  - exists []. rewrite app_nil_r. split; [done|by_nil].
  - destruct (step_trace i resolver st) as (new & Htr & Hidx).
    destruct (resolver_step ect kw reqs i resolver st) as [[[] st1]|[e tr]] eqn:Hstep;
      simpl in Htr.
    + destruct (IH (S i) st1) as (new' & Htr' & Hidx').
      exists (new ++ new'). rewrite Htr', Htr, app_assoc. split; [done|].
      intros e j [He|He]%elem_of_app Hj.
      * rewrite (Hidx e j He Hj). done.
      * specialize (Hidx' e j He Hj). lia.
    + exists new. split; [done|]. intros e' j He Hj. by rewrite (Hidx e' j He Hj).
    + exists new. split; [done|]. intros e' j He Hj. by rewrite (Hidx e' j He Hj).
Qed.



(** A resolution emits resolution events only. *)
Lemma step_events i resolver st :
  Forall (λ e, is_resolution_event e = true) (trace st) →
  Forall (λ e, is_resolution_event e = true)
    (result_trace (resolver_step ect kw reqs i resolver st)).
Proof.
  intros Hst. pose proof (resolver_step_case ect kw reqs i resolver st) as Hcase.
  assert (∀ st0, Forall (λ e, is_resolution_event e = true) (trace st0) →
            Forall (λ e, is_resolution_event e = true)
              (trace (per_item_pass kw i resolver
                        (non_null (requirement_to_dependency st)) reqs st0))) as Hpass.
  { intros st0 Hst0. unfold per_item_pass. destruct (resolver_class resolver); [|done].
    rewrite per_item_loop_closed. simpl. apply Forall_app. split; [done|].
    apply Forall_forall. intros e (r & He & _)%list_elem_of_bind.
    unfold per_item_events in He. destruct (od_mem r _); [by apply elem_of_nil in He|].
    apply elem_of_cons in He as [->|He]; [done|].
    destruct (contribution _ _ _ _); simpl in He; [|by apply elem_of_nil in He].
    apply elem_of_cons in He as [->|He]; [done|].
    by apply list_elem_of_singleton in He as ->. }
  assert (Forall (λ e, is_resolution_event e = true) (trace (emit (EvResolveAll i) st)))
    as Hemit.
  { simpl. apply Forall_app. split; [done|]. by constructor. }
  inversion Hcase; simpl; auto.
  rewrite batch_record_closed. simpl. apply Forall_app. split; [done|].
  apply Forall_forall. intros e (kv & He & _)%list_elem_of_bind.
  apply elem_of_cons in He as [->|He]; [done|].
  by apply list_elem_of_singleton in He as ->.
Qed.

Lemma chain_events rs i st :
  Forall (λ e, is_resolution_event e = true) (trace st) →
  Forall (λ e, is_resolution_event e = true)
    (result_trace (resolve_chain ect kw reqs i rs st)).
Proof.
  revert i st. induction rs as [|resolver rs IH]; intros i st Hst; simpl; [done|].
  pose proof (step_events i resolver st Hst) as Hstep.
  destruct (resolver_step ect kw reqs i resolver st) as [[[] st1]|[e tr]]; auto.
Qed.
End batch.


(** ** Precedence, early stop and open slots *)

Section precedence.
Context (ect : list string) (kw : Kwds) (reqs : list ToolRequirement).
Context (Hreqs : NoDup reqs).
Implicit Types (st : State) (resolver : Resolver) (rs : list Resolver).

(** A run can only raise at a whole-set call made while nothing is met. *)
Lemma chain_raises rs i st e tr :
  Inv kw reqs i st →
  resolve_chain ect kw reqs i rs st = inr (e, tr) →
  ∃ j st1 new,
    Inv kw reqs j st1
    ∧ trace st1 = trace st ++ new
    ∧ length (non_null (requirement_to_dependency st1)) = 0
    ∧ tr = trace st1 ++ [EvResolveAll j]
    ∧ e = AssertionError.
Proof.
  revert i st. induction rs as [|resolver rs IH]; intros i st HI; simpl; [done|].
  destruct (resolver_step ect kw reqs i resolver st) as [[[] st1]|[e' tr']] eqn:Hstep;
    [| done |].
  - intros Hrest. pose proof Hstep as (via & kvs & new & Hs)%step_summary.
    apply IH in Hrest as (j & st2 & new' & HI2 & Htr & Hnone & -> & ->);
      [|by eapply inv_step].
    exists j, st2, (new ++ new'). split_and!; try done.
    by rewrite Htr, (ss_trace _ _ _ _ _ _ _ _ Hs), app_assoc.
  - intros [= -> ->].
    pose proof (resolver_step_case ect kw reqs i resolver st) as Hcase.
    rewrite Hstep in Hcase. inversion Hcase; subst.
    exists i, st, []. by rewrite app_nil_r.
Qed.

(** Once the count of met requirements equals the count of resolvable
    ones, the rest of the chain does nothing. *)
Lemma chain_complete rs i st :
  length (non_null (requirement_to_dependency st)) = length reqs →
  ∃ c, resolve_chain ect kw reqs i rs st = inl (c, st).
Proof.
  intros Hlen. revert i. induction rs as [|resolver rs IH]; intros i; simpl; [eauto|].
  unfold resolver_step.
  destruct (index_excludes kw i); [apply IH|].
  destruct (resolver_type_excludes kw resolver); [apply IH|].
  rewrite bool_decide_eq_true_2 by done. eauto.
Qed.

Lemma all_met_length i st :
  Inv kw reqs i st →
  (∀ r, r ∈ reqs →
        ∃ d, od_get r (requirement_to_dependency st) = Some d
             ∧ is_NullDependency d = false) →
  length (non_null (requirement_to_dependency st)) = length reqs.
Proof.
  intros HI Hall. pose proof (inv_nodup _ _ _ _ HI) as Hnd.
  rewrite <-(length_fmap fst). apply Permutation_length.
  apply NoDup_Permutation; [by apply od_keys_non_null_NoDup|done|].
  intros r. split.
  - intros Hr%od_keys_non_null_subseteq. by apply (inv_keys _ _ _ _ HI).
  - intros Hr%Hall. apply od_mem_non_null in Hr; [|done].
    by apply bool_decide_eq_true in Hr.
Qed.

Lemma unmet_length i st r :
  Inv kw reqs i st →
  r ∈ reqs →
  od_mem r (non_null (requirement_to_dependency st)) = false →
  length (non_null (requirement_to_dependency st)) ≠ length reqs.
Proof.
  intros HI Hr Hunmet Hlen. pose proof (inv_nodup _ _ _ _ HI) as Hnd.
  apply bool_decide_eq_false in Hunmet.
  assert (r :: od_keys (non_null (requirement_to_dependency st)) ⊆+ reqs) as Hsub.
  { apply NoDup_submseteq.
    - apply NoDup_cons. split; [done|by apply od_keys_non_null_NoDup].
    - intros x [->|Hx%od_keys_non_null_subseteq]%elem_of_cons; [done|].
      by apply (inv_keys _ _ _ _ HI). }
  apply submseteq_length in Hsub. simpl in Hsub.
  unfold od_keys in Hsub. rewrite length_fmap in Hsub. lia.
Qed.

(** A met requirement keeps its dependency to the end, and the run returns. *)
Lemma chain_keeps rs i st r d :
  Inv kw reqs i st →
  od_get r (requirement_to_dependency st) = Some d →
  is_NullDependency d = false →
  ∃ c st', resolve_chain ect kw reqs i rs st = inl (c, st')
           ∧ od_get r (requirement_to_dependency st') = Some d.
Proof.
  intros HI Hget Hnn.
  destruct (inv_origin _ _ _ _ HI r d Hget) as (j & via & Hev).
  destruct (resolve_chain ect kw reqs i rs st) as [[c st']|[e tr]] eqn:Hrun.
  - exists c, st'. split; [done|].
    pose proof Hrun as [(new & Htr & _) _]%chain_extends.
    eapply inv_chain in Hrun; [|done..].
    eapply (inv_kept _ _ _ _ Hrun); [|done]. rewrite Htr. apply elem_of_app. by left.
  - exfalso. eapply chain_raises in Hrun as (j' & st1 & new & HI1 & Htr & Hnone & _);
      [|done].
    assert (od_get r (requirement_to_dependency st1) = Some d) as Hget1.
    { eapply (inv_kept _ _ _ _ HI1); [|done]. rewrite Htr. apply elem_of_app. by left. }
    apply (non_null_nil_inv _ _ _ Hnone) in Hget1. congruence.
Qed.

(** The per-item pass of an eligible single-item resolver. *)
Lemma eligible_step i resolver f st :
  index_excludes kw i = false →
  resolver_type_excludes kw resolver = false →
  String.prefix "build_mulled" (resolver_type resolver) && negb (kw_install kw) = false →
  resolve_all resolver = None →
  resolver_class resolver = DependencyResolver f →
  length (non_null (requirement_to_dependency st)) ≠ length reqs →
  resolver_step ect kw reqs i resolver st
  = inl (Next, per_item_loop kw i f (non_null (requirement_to_dependency st)) reqs st).
Proof.
  intros Hidx Hty Hbm Hall Hcls Hlen. unfold resolver_step, select_resolve, per_item_pass.
  rewrite Hidx, Hty, Hbm, Hall, Hcls.
  rewrite bool_decide_eq_false_2 by done. by destruct (bool_decide _).
Qed.

(** The iteration of an eligible plain resolver while a requirement is
    unmet: either the per-item pass, right away or after a whole-set call
    that gave nothing, or a whole-set result, which ends the run. *)
Lemma open_step i resolver f st :
  index_excludes kw i = false →
  resolver_type_excludes kw resolver = false →
  String.prefix "build_mulled" (resolver_type resolver) && negb (kw_install kw) = false →
  resolver_class resolver = DependencyResolver f →
  length (non_null (requirement_to_dependency st)) ≠ length reqs →
  (∃ st0,
      requirement_to_dependency st0 = requirement_to_dependency st
      ∧ (trace st0 = trace st ∨ trace st0 = trace st ++ [EvResolveAll i])
      ∧ resolver_step ect kw reqs i resolver st
        = inl (Next, per_item_loop kw i f (non_null (requirement_to_dependency st))
                       reqs st0))
  ∨ (∃ g,
      resolve_all resolver = Some g
      ∧ length (non_null (requirement_to_dependency st)) = 0
      ∧ truthy (g ect (forwarded kw) reqs) = true
      ∧ resolver_step ect kw reqs i resolver st
        = if bool_decide (length (batch_dependencies reqs (g ect (forwarded kw) reqs))
                          = length reqs)
          then inl (Break, batch_record i reqs
                             (batch_dependencies reqs (g ect (forwarded kw) reqs))
                             (emit (EvResolveAll i) st))
          else inr (AssertionError, trace st ++ [EvResolveAll i])).
Proof.
  intros Hidx Hty Hbm Hcls Hlen. unfold resolver_step, select_resolve, per_item_pass.
  rewrite Hidx, Hty, Hbm, Hcls. rewrite bool_decide_eq_false_2 by done.
  destruct (resolve_all resolver) as [g|].
  - destruct (decide (length (non_null (requirement_to_dependency st)) = 0)) as [Hnone|Hsome].
    + rewrite bool_decide_eq_true_2 by done.
      destruct (truthy (g ect (forwarded kw) reqs)) eqn:Htruthy.
      * right. exists g. split_and!; done.
      * left. exists (emit (EvResolveAll i) st). split_and!; [done|by right|done].
    + rewrite bool_decide_eq_false_2 by done.
      left. exists st. split_and!; [done|by left|done].
  - left. exists st. split_and!; [done|by left|]. by destruct (bool_decide _).
Qed.
(** A non-Null dependency recorded on the per-item path is the answer of
    the resolver at that position. *)
Lemma step_record_origin i resolver st j r d :
  EvRecord j PerItemPath r d ∈ result_trace (resolver_step ect kw reqs i resolver st) →
  EvRecord j PerItemPath r d ∈ trace st
  ∨ j = i
    ∧ ∃ f, resolver_class resolver = DependencyResolver f
           ∧ (is_NullDependency d = false → d = f (forwarded kw) r).
Proof.
  pose proof (resolver_step_case ect kw reqs i resolver st) as Hcase.
  assert (∀ st0, trace st0 = trace st ∨ trace st0 = trace st ++ [EvResolveAll i] →
            EvRecord j PerItemPath r d
            ∈ trace (per_item_pass kw i resolver
                       (non_null (requirement_to_dependency st)) reqs st0) →
            EvRecord j PerItemPath r d ∈ trace st
            ∨ j = i
              ∧ ∃ f, resolver_class resolver = DependencyResolver f
                     ∧ (is_NullDependency d = false → d = f (forwarded kw) r)) as Hpass.
  { intros st0 Hst0. unfold per_item_pass.
    destruct (resolver_class resolver) as [f|f] eqn:Hcls.
    - rewrite per_item_loop_closed. simpl. intros [Hin|Hin]%elem_of_app.
      + left. destruct Hst0 as [<-|Heq]; [done|]. rewrite Heq in Hin.
        apply elem_of_app in Hin as [?|Hin]; [done|].
        by apply list_elem_of_singleton in Hin.
      + right. apply per_item_events_record in Hin as (-> & _ & Hin).
        split; [done|]. exists f. split; [done|].
        apply elem_of_contributions in Hin as [_ Hc]. simpl in Hc.
        apply contribution_Some in Hc as (_ & _ & _ & Hanswer & _). done.
    - intros Hin. left. destruct Hst0 as [<-|Heq]; [done|]. rewrite Heq in Hin.
      apply elem_of_app in Hin as [?|Hin]; [done|].
      by apply list_elem_of_singleton in Hin. }
  inversion Hcase as [| |f ? ? ? ?|f|f|]; simpl; try (by left).
  - rewrite batch_record_closed. simpl. intros [Hin|Hin]%elem_of_app.
    + left. apply elem_of_app in Hin as [?|Hin]; [done|].
      by apply list_elem_of_singleton in Hin.
    + by apply batch_events_record in Hin as (_ & ? & _).
  - intros [?|Hin]%elem_of_app; [by left|]. by apply list_elem_of_singleton in Hin.
  - apply Hpass. by right.
  - apply Hpass. by left.
Qed.

Lemma chain_record_origin rs i st j r d :
  EvRecord j PerItemPath r d ∈ result_trace (resolve_chain ect kw reqs i rs st) →
  EvRecord j PerItemPath r d ∈ trace st
  ∨ i ≤ j
    ∧ ∃ resolver f,
        rs !! (j - i) = Some resolver
        ∧ resolver_class resolver = DependencyResolver f
        ∧ (is_NullDependency d = false → d = f (forwarded kw) r).
Proof.
  revert i st. induction rs as [|resolver rs IH]; intros i st; simpl; [by left|].
  pose proof (step_record_origin i resolver st j r d) as Hstep.
  destruct (resolver_step ect kw reqs i resolver st) as [[[] st1]|[e tr]] eqn:Heq;
    simpl in Hstep.
  - intros [Hin|(Hle & resolver' & f & Hlookup & Hcls & Hanswer)]%IH.
    + apply Hstep in Hin as [?|[-> (f & Hcls & Hanswer)]]; [by left|].
      right. split; [done|]. exists resolver, f. by rewrite Nat.sub_diag.
    + right. split; [lia|]. exists resolver', f. split; [|done].
      by replace (j - i) with (S (j - S i)) by lia.
  - intros [?|[-> (f & Hcls & Hanswer)]]%Hstep; [by left|].
    right. split; [done|]. exists resolver, f. by rewrite Nat.sub_diag.
  - intros [?|[-> (f & Hcls & Hanswer)]]%Hstep; [by left|].
    right. split; [done|]. exists resolver, f. by rewrite Nat.sub_diag.
Qed.
End precedence.

(** C3. Chain precedence and early stop. If the resolver at position [i]
    records a non-Null dependency [d] for [R], the call returns, the final
    mapping has [d] for [R], and the single-item [resolve] of no resolver
    after [i] is invoked for [R]; recorded on the per-item path, [d] is what
    the [resolve] of the resolver at position [i] answers for [R]. Once a
    prefix of the chain has met every resolvable requirement with a non-Null
    dependency, the rest of the chain adds nothing: the call returns that
    mapping and that trace. *)
Theorem chain_precedence_and_early_stop self requirements kw :
  NoDup (resolvable requirements) →
  (∀ o tr i via R d,
      _requirements_to_dependencies_dict self requirements kw = (o, tr) →
      EvRecord i via R d ∈ tr →
      is_NullDependency d = false →
      (∃ m, o = Returned m ∧ od_get R m = Some d)
      ∧ (∀ j, i < j → EvResolve j R ∉ tr)
      ∧ (via = PerItemPath →
         ∃ resolver f,
           dependency_resolvers self !! i = Some resolver
           ∧ resolver_class resolver = DependencyResolver f
           ∧ d = f (forwarded kw) R))
  ∧ (∀ pre post c st,
      dependency_resolvers self = pre ++ post →
      resolve_chain (enabled_container_types self) kw (resolvable requirements)
        0 pre initial_state = inl (c, st) →
      (∀ r, r ∈ resolvable requirements →
            ∃ d, od_get r (requirement_to_dependency st) = Some d
                 ∧ is_NullDependency d = false) →
      _requirements_to_dependencies_dict self requirements kw
      = (Returned (requirement_to_dependency st), trace st)).
Proof.
  intros Hnd. unfold _requirements_to_dependencies_dict.
  set (ect := enabled_container_types self).
  set (reqs := resolvable requirements) in *.
  pose proof (inv_initial kw reqs) as HI0. split.
  - intros o tr i via R d Hrun Hev Hnn.
    pose proof (chain_record_origin ect kw reqs (dependency_resolvers self) 0
                  initial_state i R d) as Horigin.
    destruct (resolve_chain _ _ _ _ _ _) as [[c st]|[e tr']] eqn:Hchain; simplify_eq.
    + eapply inv_chain in Hchain; [|done..]. split_and!.
      * eexists. split; [done|]. by eapply (inv_kept _ _ _ _ Hchain).
      * intros j Hij Hres.
        pose proof (inv_precedence _ _ _ _ Hchain _ _ _ _ _ Hev Hnn Hres). lia.
      * intros ->. destruct (Horigin Hev) as [Hin|(_ & resolver & f & Hl & Hcls & Hd)];
          [by apply elem_of_nil in Hin|].
        rewrite Nat.sub_0_r in Hl. exists resolver, f. auto.
    + exfalso. eapply chain_raises in Hchain as (j & st1 & new & HI1 & _ & Hnone & -> & _);
        [|done..].
      apply elem_of_app in Hev as [Hev|Hev]; [|by apply list_elem_of_singleton in Hev].
      apply (inv_kept _ _ _ _ HI1) in Hev; [|done].
      apply (non_null_nil_inv _ _ _ Hnone) in Hev. congruence.
  - intros pre post c st -> Hpre Hall.
    rewrite resolve_chain_app, Hpre.
    destruct c; [|done].
    destruct (chain_complete ect kw reqs post (0 + length pre) st) as [c' ->]; [|done].
    eapply all_met_length; [done| |done]. by eapply inv_chain.
Qed.

(** C4, as amended. With [exact] set, a single-item result that is not
    exact contributes nothing: the per-item body leaves the mapping as it
    was (the requirement stays open for the resolvers that follow), and
    every dependency recorded on the per-item path is exact. The whole-set
    path is not filtered: a dependency of the final mapping that is not
    exact was recorded from a whole-set result. *)
Theorem exactness_filter_on_per_item_path self requirements kw :
  NoDup (resolvable requirements) →
  kw_exact kw = true →
  (∀ i f met R st,
      dep_exact (f (forwarded kw) R) = false →
      requirement_to_dependency (per_item_body kw i f met R st)
      = requirement_to_dependency st)
  ∧ (∀ m tr i R d,
      _requirements_to_dependencies_dict self requirements kw = (Returned m, tr) →
      EvRecord i PerItemPath R d ∈ tr →
      dep_exact d = true)
  ∧ (∀ m tr R d,
      _requirements_to_dependencies_dict self requirements kw = (Returned m, tr) →
      od_get R m = Some d →
      dep_exact d = false →
      ∃ i, EvRecord i BatchPath R d ∈ tr).
Proof.
  intros Hnd Hexact. unfold _requirements_to_dependencies_dict.
  set (ect := enabled_container_types self).
  set (reqs := resolvable requirements) in *.
  pose proof (inv_initial kw reqs) as HI0. split_and!.
  - intros i f met R st Hd. unfold per_item_body.
    destruct (od_mem R met); [done|]. by rewrite Hexact, Hd.
  - intros m tr i R d Hrun Hev.
    destruct (resolve_chain _ _ _ _ _ _) as [[c st]|[e tr']] eqn:Hchain; simplify_eq.
    eapply inv_chain in Hchain; [|done..].
    by eapply (inv_exact _ _ _ _ Hchain).
  - intros m tr R d Hrun Hget Hd.
    destruct (resolve_chain _ _ _ _ _ _) as [[c st]|[e tr']] eqn:Hchain; simplify_eq.
    eapply inv_chain in Hchain; [|done..].
    destruct (inv_origin _ _ _ _ Hchain R d Hget) as (j & [] & Hev); [eauto|].
    apply (inv_exact _ _ _ _ Hchain Hexact) in Hev. congruence.
Qed.

(** C4, as stated, fails: with [exact] set, a [resolve_all] answering with a
    dependency that is not exact puts it into the final mapping. *)
Lemma batch_result_is_not_filtered :
  let d := Scenario.installed "samtools" None false in
  kw_exact (Scenario.with_exact Scenario.default_kwds) = true
  ∧ is_NullDependency d = false
  ∧ dep_exact d = false
  ∧ ∃ m tr,
      _requirements_to_dependencies_dict
        (Scenario.manager [Scenario.answers_all "conda" (BatchList [d])])
        {| resolvable := [Scenario.samtools] |}
        (Scenario.with_exact Scenario.default_kwds)
      = (Returned m, tr)
      ∧ od_get Scenario.samtools m = Some d.
Proof.
  split_and!; [done..|]. eexists _, _. split; vm_compute; reflexivity.
Qed.

(** C10. A requirement recorded with a [NullDependency] stays open. Every
    Null dependency recorded on the per-item path was recorded under
    [return_null] and carries the version of its requirement, and so does
    every Null entry of the final mapping unless it came out of a whole-set
    result. If, after a prefix of the chain, [R] is mapped to a Null
    dependency, the next resolver, when it is an eligible plain resolver,
    with or without [resolve_all], is consulted for [R], by a whole-set
    call or by its single-item [resolve], and [R] keeps its position in
    the mapping the call returns. Its single-item [resolve] is called for
    [R] unless the resolver has [resolve_all], nothing is met and the
    whole-set call gives a result; and if the answer is a non-Null
    dependency that passes the exactness filter, the call returns a mapping
    in which [R] has that answer, at the position [R] already had. *)
Theorem null_entry_stays_open self requirements kw :
  NoDup (resolvable requirements) →
  (∀ o tr i R d,
      _requirements_to_dependencies_dict self requirements kw = (o, tr) →
      EvRecord i PerItemPath R d ∈ tr →
      is_NullDependency d = true →
      kw_return_null kw = true ∧ dep_version d = req_version R)
  ∧ (∀ m tr R d,
      _requirements_to_dependencies_dict self requirements kw = (Returned m, tr) →
      od_get R m = Some d →
      is_NullDependency d = true →
      dep_version d = req_version R ∨ ∃ i, EvRecord i BatchPath R d ∈ tr)
  ∧ (∀ pre resolver post f st R d0,
      dependency_resolvers self = pre ++ resolver :: post →
      resolve_chain (enabled_container_types self) kw (resolvable requirements)
        0 pre initial_state = inl (Next, st) →
      R ∈ resolvable requirements →
      od_get R (requirement_to_dependency st) = Some d0 →
      is_NullDependency d0 = true →
      index_excludes kw (length pre) = false →
      resolver_type_excludes kw resolver = false →
      String.prefix "build_mulled" (resolver_type resolver) && negb (kw_install kw) = false →
      resolver_class resolver = DependencyResolver f →
      ∃ o tr,
        _requirements_to_dependencies_dict self requirements kw = (o, tr)
        ∧ (EvResolve (length pre) R ∈ tr ∨ EvResolveAll (length pre) ∈ tr)
        ∧ (∀ m n, o = Returned m →
                  od_keys (requirement_to_dependency st) !! n = Some R →
                  od_keys m !! n = Some R)
        ∧ ((∀ g, resolve_all resolver = Some g →
                 length (non_null (requirement_to_dependency st)) = 0 →
                 truthy (g (enabled_container_types self) (forwarded kw)
                           (resolvable requirements)) = false) →
           EvResolve (length pre) R ∈ tr
           ∧ (is_NullDependency (f (forwarded kw) R) = false →
              (kw_exact kw = true → dep_exact (f (forwarded kw) R) = true) →
              ∃ m, o = Returned m
                   ∧ od_get R m = Some (f (forwarded kw) R)
                   ∧ ∀ n, od_keys (requirement_to_dependency st) !! n = Some R →
                          od_keys m !! n = Some R))).
Proof.
  intros Hnd. unfold _requirements_to_dependencies_dict.
  set (ect := enabled_container_types self).
  set (reqs := resolvable requirements) in *.
  pose proof (inv_initial kw reqs) as HI0. split_and!.
  - intros o tr i R d Hrun Hev Hnull.
    destruct (resolve_chain _ _ _ _ _ _) as [[c st]|[e tr']] eqn:Hchain; simplify_eq.
    + eapply inv_chain in Hchain; [|done..]. by eapply (inv_null _ _ _ _ Hchain).
    + eapply chain_raises in Hchain as (j & st1 & new & HI1 & _ & _ & -> & _); [|done..].
      apply elem_of_app in Hev as [Hev|Hev]; [|by apply list_elem_of_singleton in Hev].
      by eapply (inv_null _ _ _ _ HI1).
  - intros m tr R d Hrun Hget Hnull.
    destruct (resolve_chain _ _ _ _ _ _) as [[c st]|[e tr']] eqn:Hchain; simplify_eq.
    eapply inv_chain in Hchain; [|done..].
    destruct (inv_origin _ _ _ _ Hchain R d Hget) as (j & [] & Hev); [eauto|].
    left. by eapply (inv_null _ _ _ _ Hchain).
  - intros pre resolver post f st R d0 -> Hpre HR Hget Hnull Hidx Hty Hbm Hcls.
    pose proof (inv_chain ect kw reqs Hnd _ _ _ _ _ HI0 Hpre) as HI. simpl in HI.
    set (met := non_null (requirement_to_dependency st)).
    assert (od_mem R met = false) as Hunmet.
    { destruct (od_mem R met) eqn:Hm; [|done].
      apply od_mem_non_null in Hm as (v & Hv & Hvn); [|apply HI]. congruence. }
    assert (length met ≠ length reqs) as Hlen by eauto using unmet_length.
    rewrite resolve_chain_app, Hpre. simpl.
    destruct (open_step ect kw reqs (length pre) resolver f st Hidx Hty Hbm Hcls Hlen)
      as [(st0 & Hmap & Htr0 & Hstep)|(g & Hall & Hnone & Htruthy & Hstep)].
    + rewrite Hstep. fold met in Hstep |- *.
      set (st1 := per_item_loop kw (length pre) f met reqs st0) in *.
      assert (EvResolve (length pre) R ∈ trace st1) as Hres.
      { unfold st1. rewrite per_item_loop_closed. simpl. apply elem_of_app. right.
        by apply per_item_events_resolve. }
      assert (∀ n, od_keys (requirement_to_dependency st) !! n = Some R →
                   od_keys (requirement_to_dependency st1) !! n = Some R) as Hkept.
      { intros n Hn. unfold st1. rewrite per_item_loop_closed. simpl. rewrite Hmap.
        by apply od_keys_od_update_lookup. }
      assert (is_NullDependency (f (forwarded kw) R) = false →
              (kw_exact kw = true → dep_exact (f (forwarded kw) R) = true) →
              od_get R (requirement_to_dependency st1) = Some (f (forwarded kw) R))
        as Hget1.
      { intros Hnn Hex. unfold st1. rewrite per_item_loop_closed. simpl.
        apply od_get_od_update_in.
        - eapply sublist_NoDup; [done|]. apply contributions_keys.
        - apply elem_of_contributions. simpl. split; [done|].
          unfold contribution. rewrite Hunmet, Hnn. simpl.
          destruct (kw_exact kw); [by rewrite Hex|done]. }
      pose proof (inv_step ect kw reqs Hnd _ _ _ _ _ HI Hstep) as HI1.
      destruct (chain_trace ect kw reqs post (S (length pre)) st1) as (new & Htr & _).
      destruct (resolve_chain ect kw reqs (S (length pre)) post st1)
        as [[c st2]|[e tr2]] eqn:Hpost; simpl in Htr.
      * assert (∀ n, od_keys (requirement_to_dependency st) !! n = Some R →
                     od_keys (requirement_to_dependency st2) !! n = Some R) as Hkept2.
        { intros n Hn. pose proof Hpost as [_ (added & ->)]%chain_extends.
          apply lookup_app_l_Some. by apply Hkept. }
        eexists _, _. split; [done|]. split_and!.
        -- left. rewrite Htr. apply elem_of_app. by left.
        -- intros m n [= <-]. apply Hkept2.
        -- intros _. split; [rewrite Htr; apply elem_of_app; by left|].
           intros Hnn Hex. eexists. split; [done|].
           destruct (chain_keeps ect kw reqs Hnd post _ st1 R _ HI1 (Hget1 Hnn Hex) Hnn)
             as (c' & st2' & Hpost' & Hget2).
           rewrite Hpost in Hpost'. simplify_eq. done.
      * eexists _, _. split; [done|]. split_and!.
        -- left. rewrite Htr. apply elem_of_app. by left.
        -- by intros m n [=].
        -- intros _. split; [rewrite Htr; apply elem_of_app; by left|].
           intros Hnn Hex. exfalso.
           destruct (chain_keeps ect kw reqs Hnd post _ st1 R _ HI1 (Hget1 Hnn Hex) Hnn)
             as (c' & st2' & Hpost' & Hget2).
           congruence.
    + rewrite Hstep. case_bool_decide as Hright.
      * eexists _, _. split; [done|]. rewrite batch_record_closed. simpl. split_and!.
        -- right. apply elem_of_app. left. apply elem_of_app. right. by left.
        -- intros m n [= <-] Hn. by apply od_keys_od_update_lookup.
        -- intros Hfalsy. rewrite (Hfalsy g Hall Hnone) in Htruthy. done.
      * eexists _, _. split; [done|]. split_and!.
        -- right. apply elem_of_app. right. by left.
        -- by intros m n [=].
        -- intros Hfalsy. rewrite (Hfalsy g Hall Hnone) in Htruthy. done.
Qed.

(** ** The order on dependency tuples *)

Section comparators.
Lemma lex_assoc c1 c2 c3 : lex (lex c1 c2) c3 = lex c1 (lex c2 c3).
Proof. by destruct c1. Qed.

Lemma string_comparator : Comparator String.compare.
Proof.
  split.
  - apply String_as_OT.cmp_eq.
  - intros x y. apply String_as_OT.cmp_antisym.
  - intros x y z Hxy%String_as_OT.cmp_lt Hyz%String_as_OT.cmp_lt.
    apply String_as_OT.cmp_lt. by eapply String_as_OT.lt_trans.
Qed.

Lemma bool_comparator : Comparator bool_compare.
Proof.
  split.
  - intros [] []; simpl; split; congruence.
  - by intros [] [].
  - by intros [] [] [].
Qed.

Lemma option_comparator : Comparator option_compare.
Proof.
  destruct string_comparator as [Heq Hopp Htrans]. split.
  - intros [x|] [y|]; simpl; rewrite ?Heq; split; congruence.
  - intros [x|] [y|]; simpl; auto.
  - intros [x|] [y|] [z|]; simpl; eauto; done.
Qed.

Lemma prod_comparator {A B} (c1 : A → A → comparison) (c2 : B → B → comparison) :
  Comparator c1 → Comparator c2 → Comparator (prod_compare c1 c2).
Proof.
  intros [Heq1 Hopp1 Htrans1] [Heq2 Hopp2 Htrans2]. unfold prod_compare. split.
  - intros [a b] [a' b']; simpl. destruct (c1 a a') eqn:H1; simpl.
    + apply Heq1 in H1 as ->. rewrite Heq2. split; congruence.
    + split; [done|]. intros [= -> ->]. pose proof (proj2 (Heq1 a' a') eq_refl). congruence.
    + split; [done|]. intros [= -> ->]. pose proof (proj2 (Heq1 a' a') eq_refl). congruence.
  - intros [a b] [a' b']; simpl. rewrite Hopp1, Hopp2. by destruct (c1 a a').
  - intros [a b] [a' b'] [a'' b'']; simpl.
    destruct (c1 a a') eqn:H1; simpl; [|intros _|done].
    + apply Heq1 in H1 as ->. destruct (c1 a' a''); simpl; eauto; done.
    + destruct (c1 a' a'') eqn:H2; simpl; [|intros _|done].
      * apply Heq1 in H2 as <-. by rewrite H1.
      * by rewrite (Htrans1 _ _ _ H1 H2).
Qed.

Lemma tuple_compare_prod a b :
  tuple_compare a b
  = prod_compare (prod_compare (prod_compare String.compare option_compare) bool_compare)
      option_compare a b.
Proof.
  destruct a as [[[n1 v1] e1] t1], b as [[[n2 v2] e2] t2].
  unfold tuple_compare, prod_compare; simpl. by rewrite !lex_assoc.
Qed.

Lemma tuple_comparator : Comparator tuple_compare.
Proof.
  pose proof (prod_comparator _ _
    (prod_comparator _ _ (prod_comparator _ _ string_comparator option_comparator)
       bool_comparator) option_comparator) as [Heq Hopp Htrans].
  split; intros *; rewrite !tuple_compare_prod; eauto.
Qed.

#[global] Instance tuple_le_total : Total tuple_le.
Proof.
  intros x y. unfold tuple_le. rewrite (cmp_opp _ tuple_comparator x y).
  destruct (tuple_compare x y); simpl; auto.
Qed.

#[global] Instance tuple_le_antisymm : AntiSymm (=) tuple_le.
Proof.
  intros x y. unfold tuple_le. rewrite (cmp_opp _ tuple_comparator x y).
  destruct (tuple_compare x y) eqn:Hc; simpl; try done.
  intros _ _. by apply (cmp_eq _ tuple_comparator).
Qed.

#[global] Instance tuple_le_transitive : Transitive tuple_le.
Proof.
  destruct tuple_comparator as [Heq Hopp Htrans].
  intros x y z. unfold tuple_le.
  destruct (tuple_compare x y) eqn:Hxy; [|intros _|done].
  - apply Heq in Hxy as ->. done.
  - destruct (tuple_compare y z) eqn:Hyz; [|intros _|done].
    + apply Heq in Hyz as <-. by rewrite Hxy.
    + by rewrite (Htrans _ _ _ Hxy Hyz).
Qed.

End comparators.

(** ** The digest *)

Section digest.



End digest.

Section python3.
Lemma sortable_spec (l : list DepTuple) :
  Python3.sortable l = true
  ↔ ∀ a b, a ∈ l → b ∈ l → Python3.comparable a b = true.
Proof.
  unfold Python3.sortable. rewrite forallb_forall. split.
  - intros Hall a b Ha%list_elem_of_In Hb%list_elem_of_In.
    specialize (Hall a Ha). rewrite forallb_forall in Hall. by apply Hall.
  - intros Hall a Ha%list_elem_of_In. apply forallb_forall.
    intros b Hb%list_elem_of_In. by apply Hall.
Qed.

Lemma forallb_false {A} (f : A → bool) (l : list A) :
  forallb f l = false → ∃ x, x ∈ l ∧ f x = false.
Proof.
  induction l as [|x l IH]; simpl; [done|]. destruct (f x) eqn:Hx; simpl.
  - intros (y & Hy & Hfy)%IH. exists y. split; [by right|done].
  - intros _. exists x. split; [by left|done].
Qed.

Lemma not_sortable (l : list DepTuple) :
  Python3.sortable l = false
  → ∃ a b, a ∈ l ∧ b ∈ l ∧ Python3.comparable a b = false.
Proof.
  unfold Python3.sortable. intros (a & Ha & (b & Hb & Hab)%forallb_false)%forallb_false.
  eauto.
Qed.



Lemma compare_refl s : String.compare s s = Eq.
Proof. by apply String_as_OT.cmp_eq. Qed.

Lemma compare_neq s1 s2 : s1 ≠ s2 → String.compare s1 s2 ≠ Eq.
Proof. intros Hne Heq. by apply String_as_OT.cmp_eq in Heq. Qed.

Lemma bool_compare_refl b : bool_compare b b = Eq.
Proof. by destruct b. Qed.

Lemma bool_compare_neq b1 b2 : b1 ≠ b2 → bool_compare b1 b2 ≠ Eq.
Proof. by destruct b1, b2. Qed.

Lemma option_compare_same_kind v1 v2 :
  Python3.same_kind v1 v2 = true → Python3.option_compare_last v1 v2 = option_compare v1 v2.
Proof. by destruct v1, v2. Qed.

Lemma option_compare_other_kind v1 v2 :
  Python3.same_kind v1 v2 = false →
  option_compare v1 v2 ≠ Eq ∧ Python3.option_compare_last v1 v2 = CompOpp (option_compare v1 v2).
Proof. by destruct v1, v2. Qed.

Lemma option_compare_refl v : option_compare v v = Eq.
Proof. destruct v; simpl; [apply compare_refl|done]. Qed.

Lemma option_compare_last_refl v : Python3.option_compare_last v v = Eq.
Proof. destruct v; simpl; [apply compare_refl|done]. Qed.

Lemma comparable_agree a b :
  Python3.comparable a b = true → Python3.tuple_compare_last a b = tuple_compare a b.
Proof.
  destruct a as [[[n1 v1] e1] t1], b as [[[n2 v2] e2] t2]. simpl.
  case_bool_decide as Hn.
  { intros _. apply compare_neq in Hn. by destruct (String.compare n1 n2). }
  destruct Hn. rewrite compare_refl. simpl.
  case_bool_decide as Hv.
  { intros Hk. rewrite (option_compare_same_kind _ _ Hk).
    assert (option_compare v1 v2 ≠ Eq) as Hne.
    { destruct v1, v2; simpl in *; try done. apply compare_neq. congruence. }
    by destruct (option_compare v1 v2). }
  destruct Hv. rewrite option_compare_refl, option_compare_last_refl. simpl.
  case_bool_decide as He.
  { intros _. apply bool_compare_neq in He. by destruct (bool_compare e1 e2). }
  destruct He. rewrite bool_compare_refl. simpl.
  apply option_compare_same_kind.
Qed.

Lemma not_comparable_opposite a b :
  Python3.comparable a b = false →
  tuple_compare a b ≠ Eq ∧ Python3.tuple_compare_last a b = CompOpp (tuple_compare a b).
Proof.
  destruct a as [[[n1 v1] e1] t1], b as [[[n2 v2] e2] t2]. simpl.
  case_bool_decide as Hn; [done|]. destruct Hn. rewrite compare_refl. simpl.
  case_bool_decide as Hv.
  { intros [Hne ->]%option_compare_other_kind. by destruct (option_compare v1 v2). }
  destruct Hv. rewrite option_compare_refl, option_compare_last_refl. simpl.
  case_bool_decide as He; [done|]. destruct He. rewrite bool_compare_refl. simpl.
  apply option_compare_other_kind.
Qed.

Lemma comparable_sym a b : Python3.comparable a b = Python3.comparable b a.
Proof.
  destruct a as [[[n1 v1] e1] t1], b as [[[n2 v2] e2] t2]. simpl.
  repeat case_bool_decide; try congruence; by destruct v1, v2, t1, t2.
Qed.

Lemma sorted_for_both_pair (l : list DepTuple) a b :
  StronglySorted tuple_le l → StronglySorted Python3.tuple_le_last l →
  a ∈ l → b ∈ l → a ≠ b →
  (tuple_le a b ∧ Python3.tuple_le_last a b) ∨ (tuple_le b a ∧ Python3.tuple_le_last b a).
Proof.
  induction l as [|x l IH]; intros H1 H2 Ha Hb Hne; [by apply elem_of_nil in Ha|].
  apply StronglySorted_inv in H1 as [H1 Hx1]. apply StronglySorted_inv in H2 as [H2 Hx2].
  rewrite Forall_forall in Hx1, Hx2.
  apply elem_of_cons in Ha as [->|Ha]; apply elem_of_cons in Hb as [->|Hb]; auto.
  done.
Qed.

(** The comparisons that [sorted] may ask on a sortable list have one
    answer, wherever [None] is placed. *)
Lemma sortable_one_order (l : list DepTuple) a b :
  Python3.sortable l = true → a ∈ l → b ∈ l →
  Python3.tuple_compare_last a b = tuple_compare a b.
Proof. rewrite sortable_spec. intros Hall Ha Hb. apply comparable_agree. auto. Qed.

(** No arrangement of a list that is not sortable is in order both with
    [None] first and with [None] last. *)
Lemma not_sortable_no_order (l l' : list DepTuple) :
  Python3.sortable l = false → l' ≡ₚ l →
  ¬ (StronglySorted tuple_le l' ∧ StronglySorted Python3.tuple_le_last l').
Proof.
  intros (a & b & Ha & Hb & Hab)%not_sortable Hp [H1 H2].
  rewrite <-Hp in Ha, Hb.
  pose proof (not_comparable_opposite a b Hab) as [Hne Hopp].
  assert (a ≠ b) as Hdiff.
  { intros ->. apply Hne. by apply (cmp_eq _ tuple_comparator). }
  unfold tuple_le, Python3.tuple_le_last in *.
  destruct (sorted_for_both_pair l' a b H1 H2 Ha Hb Hdiff) as [[Hle Hle']|[Hle Hle']].
  - unfold tuple_le, Python3.tuple_le_last in *. rewrite Hopp in Hle'.
    by destruct (tuple_compare a b).
  - rewrite comparable_sym in Hab.
    pose proof (not_comparable_opposite b a Hab) as [Hne' Hopp'].
    unfold tuple_le, Python3.tuple_le_last in *. rewrite Hopp' in Hle'.
    by destruct (tuple_compare b a).
Qed.

(** Whenever the call returns on Python 3, it returns what it returns on
    Python 2. *)
Lemma hash_dependencies_returned X (l : list Dependency) h :
  Python3.hash_dependencies X l = inl h → hash_dependencies X l = h.
Proof.
  unfold Python3.hash_dependencies, Python3.sorted, hash_dependencies, sorted.
  destruct (Python3.sortable _); by intros [=].
Qed.
End python3.



(** ** The caching layer *)

Lemma resolution_emits self requirements kw o tr :
  _requirements_to_dependencies_dict self requirements kw = (o, tr) →
  ∀ e, e ∈ tr → is_resolution_event e = true.
Proof.
  unfold _requirements_to_dependencies_dict. intros Hrun.
  pose proof (chain_events (enabled_container_types self) kw (resolvable requirements)
                (dependency_resolvers self) 0 initial_state) as Hall.
  destruct (resolve_chain _ _ _ _ _ _) as [[c st]|[e' tr']]; simplify_eq; simpl in Hall;
    apply Forall_forall, Hall; constructor.
Qed.

Section caching.
Context (X : Collaborators) (self : DependencyManager).
Context (requirements : ToolRequirements) (kw : Kwds).
Implicit Types (fs : FileSystem) (m : OrderedDict).

Lemma bind_unfold {A B} (c : M A) (k : A → M B) fs :
  (c ≫= k) fs
  = match c fs with
    | (Returned a, fs', tr) =>
        match k a fs' with
        | (o, fs'', tr') => (o, fs'', tr ++ tr')
        end
    | (Raised e, fs', tr) => (Raised e, fs', tr)
    end.
Proof. done. Qed.

Lemma ret_unfold {A} (a : A) fs : (mret a : M A) fs = (Returned a, fs, []).
Proof. done. Qed.

Lemma requirements_to_dependencies_returned m tr fs :
  _requirements_to_dependencies_dict self requirements kw = (Returned m, tr) →
  requirements_to_dependencies self requirements kw fs
  = (Returned m, fs, resolution_events kw m tr).
Proof. intros Hrun. unfold requirements_to_dependencies. by rewrite Hrun. Qed.

Lemma for_each_build path (deps : list Dependency) fs :
  for_each (build_one X path) deps fs
  = (Returned ((λ _, ()) <$> deps), built X path deps fs,
     (λ dep, EvBuildCache dep path) <$> deps).
Proof.
  revert fs. induction deps as [|dep deps IH]; intros fs; [done|].
  simpl. rewrite !bind_unfold. unfold build_one at 1. rewrite !bind_unfold, IH.
  rewrite ret_unfold. csimpl. by rewrite app_nil_r.
Qed.

Lemma for_each_tell (ev : Dependency → Event) (deps : list Dependency) fs :
  for_each (λ dep, tell (ev dep)) deps fs
  = (Returned ((λ _, ()) <$> deps), fs, ev <$> deps).
Proof.
  induction deps as [|dep deps IH]; [done|].
  simpl. rewrite !bind_unfold. unfold tell at 1. rewrite !bind_unfold, IH.
  rewrite ret_unfold. csimpl. by rewrite app_nil_r.
Qed.

Lemma for_each_ask (deps : list Dependency) fs :
  for_each (ask_shell_commands X) deps fs
  = (Returned (shell_commands X <$> deps), fs, EvShellCommands <$> deps).
Proof.
  induction deps as [|dep deps IH]; [done|].
  simpl. rewrite !bind_unfold. unfold ask_shell_commands at 1.
  rewrite !bind_unfold. unfold tell at 1. rewrite !ret_unfold, !bind_unfold, IH.
  rewrite ret_unfold. csimpl. by rewrite app_nil_r.
Qed.

(** [build_cache] when the cache directory is absent. *)
Lemma build_cache_absent m tr fs :
  _requirements_to_dependencies_dict self requirements kw = (Returned m, tr) →
  fs !! get_hashed_dependencies_path X self (cacheable_values m) = None →
  build_cache X self requirements kw fs
  = (Returned (),
     built X (get_hashed_dependencies_path X self (cacheable_values m))
       (cacheable_values m) fs,
     resolution_events kw m tr
     ++ ((λ dep, EvBuildCache dep
                   (get_hashed_dependencies_path X self (cacheable_values m)))
         <$> cacheable_values m)).
Proof.
  intros Hrun Habsent. unfold build_cache. rewrite bind_unfold.
  rewrite (requirements_to_dependencies_returned m tr) by done.
  fold (cacheable_values m). rewrite bind_unfold. unfold os_path_exists.
  rewrite bool_decide_eq_false_2 by (rewrite Habsent; by intros [? ?]).
  rewrite bind_unfold, for_each_build. simpl. by rewrite !app_nil_r.
Qed.
End caching.

(** C6. With [force_rebuild] unset, [build_cache] on a cache directory that
    already exists returns without running any build routine and without
    removing anything: the file system is left as it was, and the only
    events are those of the resolution and the debug message. A second call
    finds the same directory and does the same; and after a first call that
    built the directory, a second call builds nothing more. *)
Theorem build_cache_skips_existing_cache X self requirements kw fs m tr :
  kw_force_rebuild kw = false →
  _requirements_to_dependencies_dict self requirements kw = (Returned m, tr) →
  let dir := get_hashed_dependencies_path X self (cacheable_values m) in
  let skipped :=
    resolution_events kw m tr
    ++ [EvLog Debug ("Cached dependencies directory '" +:+ dir
                     +:+ "' already exists, skipping build")] in
  let built_events :=
    resolution_events kw m tr ++ ((λ dep, EvBuildCache dep dir) <$> cacheable_values m) in
  (is_Some (fs !! dir) →
   build_cache X self requirements kw fs = (Returned (), fs, skipped)
   ∧ (build_cache X self requirements kw;; build_cache X self requirements kw) fs
     = (Returned (), fs, skipped ++ skipped))
  ∧ (fs !! dir = None →
     is_Some (built X dir (cacheable_values m) fs !! dir) →
     (build_cache X self requirements kw;; build_cache X self requirements kw) fs
     = (Returned (), built X dir (cacheable_values m) fs, built_events ++ skipped))
  ∧ (∀ dep path, EvBuildCache dep path ∉ skipped)
  ∧ (∀ path, EvRmtree path ∉ skipped).
Proof.
  intros Hforce Hrun dir skipped built_events.
  assert (∀ fs0, is_Some (fs0 !! dir) →
            build_cache X self requirements kw fs0 = (Returned (), fs0, skipped)) as Hskip.
  { intros fs0 Hpresent. unfold build_cache. rewrite bind_unfold.
    rewrite (requirements_to_dependencies_returned self requirements kw m tr) by done.
    fold (cacheable_values m). fold dir. rewrite bind_unfold. unfold os_path_exists.
    rewrite bool_decide_eq_true_2 by done. rewrite Hforce. done. }
  split_and!.
  - intros Hpresent. split; [by apply Hskip|].
    by rewrite bind_unfold, !Hskip.
  - intros Habsent Hbuilt. rewrite bind_unfold.
    rewrite (build_cache_absent X self requirements kw m tr) by done.
    fold dir. by rewrite Hskip.
  - intros dep path [Hin|Hin]%elem_of_app.
    + unfold resolution_events in Hin. apply elem_of_app in Hin as [Hin|Hin].
      * by apply (resolution_emits self requirements kw _ _ Hrun) in Hin.
      * destruct (kw_tool_instance kw); [|by apply elem_of_nil in Hin].
        by apply list_elem_of_singleton in Hin.
    + by apply list_elem_of_singleton in Hin.
  - intros path [Hin|Hin]%elem_of_app.
    + unfold resolution_events in Hin. apply elem_of_app in Hin as [Hin|Hin].
      * by apply (resolution_emits self requirements kw _ _ Hrun) in Hin.
      * destruct (kw_tool_instance kw); [|by apply elem_of_nil in Hin].
        by apply list_elem_of_singleton in Hin.
    + by apply list_elem_of_singleton in Hin.
Qed.

(** C7. With [force_rebuild] set, on a cache directory that exists and
    whose removal raises, [build_cache] logs the warning and raises the same
    exception; no build routine is run in that call. *)
Theorem build_cache_reraises_failed_removal X self requirements kw fs m tr e fs' :
  kw_force_rebuild kw = true →
  _requirements_to_dependencies_dict self requirements kw = (Returned m, tr) →
  is_Some (fs !! get_hashed_dependencies_path X self (cacheable_values m)) →
  rmtree X (get_hashed_dependencies_path X self (cacheable_values m)) fs = (Some e, fs') →
  let dir := get_hashed_dependencies_path X self (cacheable_values m) in
  let warning :=
    EvLog Warning ("Could not delete cached dependencies directory '" +:+ dir +:+ "'") in
  build_cache X self requirements kw fs
  = (Raised e, fs', resolution_events kw m tr ++ [EvRmtree dir; warning])
  ∧ ∀ dep path,
      EvBuildCache dep path ∉ resolution_events kw m tr ++ [EvRmtree dir; warning].
Proof.
  intros Hforce Hrun Hpresent Hrm dir warning. split.
  - unfold build_cache. rewrite bind_unfold.
    rewrite (requirements_to_dependencies_returned self requirements kw m tr) by done.
    fold (cacheable_values m). fold dir. rewrite bind_unfold. unfold os_path_exists.
    rewrite bool_decide_eq_true_2 by done. rewrite Hforce.
    rewrite bind_unfold. unfold guarded_rmtree. fold dir in Hrm. rewrite Hrm. done.
  - intros dep path [Hin|Hin]%elem_of_app.
    + unfold resolution_events in Hin. apply elem_of_app in Hin as [Hin|Hin].
      * by apply (resolution_emits self requirements kw _ _ Hrun) in Hin.
      * destruct (kw_tool_instance kw); [|by apply elem_of_nil in Hin].
        by apply list_elem_of_singleton in Hin.
    + apply elem_of_cons in Hin as [?|Hin]; [done|].
      by apply list_elem_of_singleton in Hin.
Qed.

(** C8. Without resolvers, [find_dep] returns, for every name, version and
    type, the Null dependency of that name and version; so does
    [NullDependencyManager.find_dep]. Neither raises. *)
Theorem find_dep_without_resolvers X self name version type kw :
  dependency_resolvers self = [] →
  find_dep X self name version type kw
  = (Returned (NullDependency version name),
     [EvLog Debug ("Find dependency " +:+ name +:+ " version " +:+ format_version version)])
  ∧ NullDependencyManager_find_dep name version type kw = NullDependency version name
  ∧ is_NullDependency (NullDependency version name) = true
  ∧ dep_name (NullDependency version name) = name
  ∧ dep_version (NullDependency version name) = version.
Proof.
  intros Hchain. split_and!; try done.
  unfold find_dep, _requirements_to_dependencies_dict. by rewrite Hchain.
Qed.


(** ** Which resolvers are called *)

Section calls.
Context (ect : list string) (kw : Kwds) (reqs : list ToolRequirement).
Implicit Types (st : State) (resolver : Resolver) (rs : list Resolver) (e : Event).

(** A resolver that is not eligible is passed over. *)
Lemma ineligible_step i resolver st :
  eligible kw i resolver = false →
  ∃ c, resolver_step ect kw reqs i resolver st = inl (c, st).
Proof.
  unfold eligible, resolver_step.
  destruct (index_excludes kw i); [eauto|].
  destruct (resolver_type_excludes kw resolver); [eauto|]. simpl.
  intros ->%negb_false_iff. destruct (bool_decide _); eauto.
Qed.

(** The calls made in one iteration. *)
Lemma step_call i resolver st e :
  e ∈ result_trace (resolver_step ect kw reqs i resolver st) →
  is_invocation e = true →
  e ∈ trace st
  ∨ event_index e = Some i
    ∧ eligible kw i resolver = true
    ∧ call_allowed kw reqs resolver e.
Proof.
  destruct (eligible kw i resolver) eqn:Hel; cycle 1.
  { destruct (ineligible_step i resolver st Hel) as [c ->]. by left. }
  pose proof (resolver_step_case ect kw reqs i resolver st) as Hcase.
  assert (∀ f, select_resolve kw resolver = Some (Some f) →
            ∀ e', e' ∈ [EvResolveAll i] →
              event_index e' = Some i ∧ true = true ∧ call_allowed kw reqs resolver e')
    as Hall.
  { intros f Hsel e' ->%list_elem_of_singleton. split_and!; [done..|]. by exists f. }
  assert (∀ st0, (∀ e', e' ∈ trace st0 → is_invocation e' = true →
                    e' ∈ trace st
                    ∨ event_index e' = Some i ∧ true = true
                      ∧ call_allowed kw reqs resolver e') →
            e ∈ trace (per_item_pass kw i resolver
                         (non_null (requirement_to_dependency st)) reqs st0) →
            is_invocation e = true →
            e ∈ trace st
            ∨ event_index e = Some i ∧ true = true ∧ call_allowed kw reqs resolver e)
    as Hpass.
  { intros st0 Hst0. unfold per_item_pass.
    destruct (resolver_class resolver) as [f|f] eqn:Hcls; [|apply Hst0].
    rewrite per_item_loop_closed. simpl. intros [Hin|Hin]%elem_of_app; [by apply Hst0|].
    intros Hinv. right. destruct e as [j|j r| | | | | | |]; try done.
    - by apply per_item_events_resolve_all in Hin.
    - apply per_item_events_resolve in Hin as (-> & Hr & _).
      split_and!; [done..|]. split; [done|]. by exists f. }
  inversion Hcase as [| |f ? Hsel ? ?|f ? Hsel|f ? Hsel|]; simpl; try (by left).
  - rewrite batch_record_closed. simpl. intros [Hin|Hin]%elem_of_app Hinv.
    + apply elem_of_app in Hin as [?|Hin]; [by left|]. right. by eapply Hall.
    + pose proof (batch_events_no_invocation i
                    (zip reqs (batch_dependencies reqs (f ect (forwarded kw) reqs))))
        as Hno.
      rewrite Forall_forall in Hno. apply Hno in Hin. congruence.
  - intros [?|Hin]%elem_of_app _; [by left|]. right. by eapply Hall.
  - apply Hpass. simpl. intros e' [?|Hin]%elem_of_app _; [by left|].
    right. by eapply Hall.
  - apply Hpass. intros e' ? _. by left.
Qed.

(** The calls made along the chain. *)
Lemma chain_call rs i st e :
  e ∈ result_trace (resolve_chain ect kw reqs i rs st) →
  is_invocation e = true →
  e ∈ trace st
  ∨ ∃ j resolver,
      event_index e = Some j ∧ i ≤ j
      ∧ rs !! (j - i) = Some resolver
      ∧ eligible kw j resolver = true
      ∧ call_allowed kw reqs resolver e.
Proof.
  revert i st. induction rs as [|resolver rs IH]; intros i st; simpl; [by left|].
  pose proof (step_call i resolver st e) as Hstep.
  assert (e ∈ result_trace (resolver_step ect kw reqs i resolver st) →
          is_invocation e = true →
          e ∈ trace st
          ∨ ∃ j resolver',
              event_index e = Some j ∧ i ≤ j
              ∧ (resolver :: rs) !! (j - i) = Some resolver'
              ∧ eligible kw j resolver' = true
              ∧ call_allowed kw reqs resolver' e) as Hhere.
  { intros Hin Hinv. destruct (Hstep Hin Hinv) as [?|(Hidx & Hel & Hok)]; [by left|].
    right. exists i, resolver. by rewrite Nat.sub_diag. }
  destruct (resolver_step ect kw reqs i resolver st) as [[[] st1]|[e' tr]] eqn:Heq;
    simpl in *; [|done..].
  intros Hin Hinv.
  destruct (IH _ _ Hin Hinv) as [Hin1|(j & resolver' & Hidx & Hle & Hlookup & Hok)].
  - by apply Hhere.
  - right. exists j, resolver'. split_and!; [done|lia| |apply Hok..].
    by replace (j - i) with (S (j - S i)) by lia.
Qed.
End calls.

Lemma run_result_trace self requirements kw o tr :
  _requirements_to_dependencies_dict self requirements kw = (o, tr) →
  tr = result_trace (resolve_chain (enabled_container_types self) kw
                       (resolvable requirements) 0 (dependency_resolvers self)
                       initial_state).
Proof.
  unfold _requirements_to_dependencies_dict.
  destruct (resolve_chain _ _ _ _ _ _) as [[c st]|[e tr']]; by intros [= _ <-].
Qed.

Lemma eligible_true kw i resolver :
  eligible kw i resolver = true →
  (∀ index, kw_index kw = Some index → i = index)
  ∧ (∀ t, kw_resolver_type kw = Some t → resolver_type resolver = t)
  ∧ (String.prefix "build_mulled" (resolver_type resolver) = true → kw_install kw = true).
Proof.
  unfold eligible, index_excludes, resolver_type_excludes.
  intros [[Hidx%negb_true_iff Hty%negb_true_iff]%andb_prop Hbm%negb_true_iff]%andb_prop.
  split_and!.
  - intros index Hsome. rewrite Hsome in Hidx.
    apply bool_decide_eq_false in Hidx. by apply dec_stable.
  - intros t Hsome. rewrite Hsome in Hty.
    apply bool_decide_eq_false in Hty. by apply dec_stable.
  - intros Hpre. rewrite Hpre in Hbm. simpl in Hbm. by apply negb_false_iff.
Qed.

(** X1. Every call into a resolver, single-item or whole-set, goes to a
    resolver of the chain that the call options let through: with [index]
    given it is the resolver at that position, with [resolver_type] given
    it has that type, and a resolver whose type starts with [build_mulled]
    is called only under [install]. *)
Theorem called_resolver_passes_filters self requirements kw o tr e :
  _requirements_to_dependencies_dict self requirements kw = (o, tr) →
  e ∈ tr →
  is_invocation e = true →
  ∃ i resolver,
    event_index e = Some i
    ∧ dependency_resolvers self !! i = Some resolver
    ∧ (∀ index, kw_index kw = Some index → i = index)
    ∧ (∀ t, kw_resolver_type kw = Some t → resolver_type resolver = t)
    ∧ (String.prefix "build_mulled" (resolver_type resolver) = true →
       kw_install kw = true).
Proof.
  intros ->%run_result_trace Hin Hinv.
  apply chain_call in Hin as [Hin|(i & resolver & Hidx & _ & Hlookup & Hel & _)];
    [by apply elem_of_nil in Hin| |done].
  exists i, resolver. rewrite Nat.sub_0_r in Hlookup.
  split_and!; [done|done|..]; apply eligible_true in Hel; apply Hel.
Qed.

(** X2. Which kind of call a resolver gets. A single-item [resolve] is
    called only on a plain resolver, never on a [ContainerResolver], and
    only for a resolvable requirement. A whole-set call is made only on a
    resolver that has [resolve_all] or is a [ContainerResolver]; a
    [ContainerResolver] without [resolve_all] whose type starts with neither
    [cached] nor [explicit] gets it only under [search] or [install]. *)
Theorem calls_by_resolver_class self requirements kw o tr i resolver :
  _requirements_to_dependencies_dict self requirements kw = (o, tr) →
  dependency_resolvers self !! i = Some resolver →
  (∀ r, EvResolve i r ∈ tr →
        r ∈ resolvable requirements
        ∧ ∃ f, resolver_class resolver = DependencyResolver f)
  ∧ (EvResolveAll i ∈ tr →
     is_Some (resolve_all resolver)
     ∨ ∃ f, resolver_class resolver = ContainerResolver f
            ∧ (String.prefix "cached" (resolver_type resolver) = true
               ∨ String.prefix "explicit" (resolver_type resolver) = true
               ∨ kw_search kw = true
               ∨ kw_install kw = true)).
Proof.
  intros ->%run_result_trace Hlookup. split.
  - intros r Hin.
    apply chain_call in Hin as [Hin|(j & resolver' & [= <-] & _ & Hlookup' & _ & Hok)];
      [by apply elem_of_nil in Hin| |done].
    rewrite Nat.sub_0_r in Hlookup'. by simplify_eq.
  - intros Hin.
    apply chain_call in Hin as [Hin|(j & resolver' & [= <-] & _ & Hlookup' & _ & Hok)];
      [by apply elem_of_nil in Hin| |done].
    rewrite Nat.sub_0_r in Hlookup'. simplify_eq. destruct Hok as [f Hsel].
    unfold select_resolve in Hsel.
    destruct (resolve_all resolver) as [g|]; [left; eauto|]. right.
    destruct (resolver_class resolver) as [g|g]; [done|]. exists g. split; [done|].
    destruct (String.prefix "cached" _); [by left|].
    destruct (String.prefix "explicit" _); [by right; left|].
    destruct (kw_search kw); [by right; right; left|].
    destruct (kw_install kw); [by right; right; right|]. done.
Qed.

(** X3. With nothing resolvable among the requirements the result is the
    empty mapping, whatever the chain and the options, and no resolver is
    called: nothing is emitted at all. *)
Theorem nothing_to_resolve self requirements kw :
  resolvable requirements = [] →
  _requirements_to_dependencies_dict self requirements kw = (Returned [], []).
Proof.
  intros Hnone. unfold _requirements_to_dependencies_dict. rewrite Hnone.
  destruct (chain_complete (enabled_container_types self) kw []
              (dependency_resolvers self) 0 initial_state) as [c ->]; done.
Qed.

Section once.
Context (ect : list string) (kw : Kwds) (reqs : list ToolRequirement).
Context (Hreqs : NoDup reqs).
Implicit Types (st : State) (resolver : Resolver) (rs : list Resolver) (e : Event).

Lemma invocations_app (l1 l2 : list Event) :
  invocations (l1 ++ l2) = invocations l1 ++ invocations l2.
Proof. apply filter_app. Qed.

Lemma invocations_cons e (l : list Event) :
  invocations (e :: l) = if is_invocation e then e :: invocations l else invocations l.
Proof.
  unfold invocations. rewrite (filter_cons (λ e, is_invocation e = true)).
  destruct (is_invocation e); by destruct (decide _).
Qed.

Lemma invocations_none (l : list Event) :
  Forall (λ e, is_invocation e = false) l → invocations l = [].
Proof.
  induction 1 as [|e l He _ IH]; [done|]. by rewrite invocations_cons, He.
Qed.

Lemma elem_of_invocations e (l : list Event) :
  e ∈ invocations l ↔ is_invocation e = true ∧ e ∈ l.
Proof. unfold invocations. by rewrite list_elem_of_filter. Qed.

Lemma invocations_per_item i f met (rs : list ToolRequirement) :
  invocations (rs ≫= per_item_events kw i f met)
  = EvResolve i <$> filter (λ r, od_mem r met = false) rs.
Proof.
  induction rs as [|r rs IH]; [done|].
  rewrite bind_cons, invocations_app, IH.
  rewrite (filter_cons (λ r, od_mem r met = false)).
  unfold per_item_events at 1. destruct (od_mem r met) eqn:Hmem.
  - by destruct (decide _).
  - destruct (decide _); [|done]. rewrite invocations_cons. simpl.
    rewrite invocations_none; [done|].
    destruct (contribution kw f met r); simpl; repeat constructor.
Qed.

Lemma per_item_pass_calls i resolver met st :
  ∃ new,
    trace (per_item_pass kw i resolver met reqs st) = trace st ++ new
    ∧ NoDup (invocations new)
    ∧ EvResolveAll i ∉ new.
Proof.
  unfold per_item_pass. destruct (resolver_class resolver) as [f|f].
  - eexists. rewrite per_item_loop_closed. simpl. split_and!; [done| |].
    + rewrite invocations_per_item. apply NoDup_fmap_2; [by intros ?? [=]|].
      by apply NoDup_filter.
    + apply per_item_events_resolve_all.
  - exists []. rewrite app_nil_r. split_and!; [done|constructor|]. by intros ?%elem_of_nil.
Qed.

(** The calls of one iteration are pairwise distinct. *)
Lemma step_calls_once i resolver st :
  ∃ new,
    result_trace (resolver_step ect kw reqs i resolver st) = trace st ++ new
    ∧ NoDup (invocations new).
Proof.
  pose proof (resolver_step_case ect kw reqs i resolver st) as Hcase.
  inversion Hcase as [| |f ? ? ? ?|f|f|]; simpl.
  - exists []. rewrite app_nil_r. split; [done|constructor].
  - exists []. rewrite app_nil_r. split; [done|constructor].
  - eexists. rewrite batch_record_closed. simpl. rewrite <-app_assoc. split; [done|].
    rewrite invocations_app, (invocations_none (_ ≫= _))
      by apply batch_events_no_invocation.
    rewrite app_nil_r. apply NoDup_singleton.
  - eexists. split; [done|]. apply NoDup_singleton.
  - destruct (per_item_pass_calls i resolver
                (non_null (requirement_to_dependency st)) (emit (EvResolveAll i) st))
      as (new & -> & Hnd & Hnot).
    exists (EvResolveAll i :: new). simpl. rewrite <-app_assoc. split; [done|].
    change (EvResolveAll i :: new) with ([EvResolveAll i] ++ new).
    rewrite invocations_app. apply NoDup_app. split_and!; [apply NoDup_singleton| |done].
    intros e ->%list_elem_of_singleton [_ ?]%elem_of_invocations. done.
  - destruct (per_item_pass_calls i resolver
                (non_null (requirement_to_dependency st)) st) as (new & -> & Hnd & _).
    by exists new.
Qed.

Lemma chain_calls_once rs i st :
  (∀ e j, e ∈ trace st → event_index e = Some j → j < i) →
  NoDup (invocations (trace st)) →
  NoDup (invocations (result_trace (resolve_chain ect kw reqs i rs st))).
Proof.
  revert i st. induction rs as [|resolver rs IH]; intros i st Hbound Hnd; simpl; [done|].
  destruct (step_calls_once i resolver st) as (new & Htr & Hnew).
  destruct (step_trace ect kw reqs i resolver st) as (new' & Htr' & Hidx).
  rewrite Htr in Htr'. apply app_inv_head in Htr' as <-.
  assert (NoDup (invocations (trace st ++ new))) as Hboth.
  { rewrite invocations_app. apply NoDup_app. split_and!; [done| |done].
    intros e [Hinv Hold]%elem_of_invocations [_ Hin]%elem_of_invocations.
    destruct e as [j|j r| | | | | | |]; try done.
    - pose proof (Hbound _ j Hold eq_refl). pose proof (Hidx _ j Hin eq_refl). lia.
    - pose proof (Hbound _ j Hold eq_refl). pose proof (Hidx _ j Hin eq_refl). lia. }
  destruct (resolver_step ect kw reqs i resolver st) as [[[] st1]|[e' tr]] eqn:Heq;
    simpl in Htr |- *; [|by rewrite Htr..].
  apply IH; [|by rewrite Htr].
  intros e j. rewrite Htr. intros [Hin|Hin]%elem_of_app Hj.
  - pose proof (Hbound _ _ Hin Hj). lia.
  - pose proof (Hidx _ _ Hin Hj). lia.
Qed.
End once.

(** X4. No call into a resolver is made twice in one run: a resolver's
    single-item [resolve] is called at most once for each requirement, and
    its whole-set resolution at most once. *)
Theorem each_call_is_made_once self requirements kw o tr :
  NoDup (resolvable requirements) →
  _requirements_to_dependencies_dict self requirements kw = (o, tr) →
  NoDup (invocations tr).
Proof.
  intros Hnd ->%run_result_trace. apply chain_calls_once; [done| |constructor].
  intros e j Hin. by apply elem_of_nil in Hin.
Qed.

(** ** What the per-item resolution computes *)

Section first_answer.
Context (ect : list string) (kw : Kwds) (reqs : list ToolRequirement).
Context (Hreqs : NoDup reqs).
Implicit Types (st : State) (resolver : Resolver) (rs : list Resolver).
Implicit Types (m : OrderedDict) (R : ToolRequirement).

Lemma is_NullDependency_set_version v d :
  is_NullDependency (set_version v d) = is_NullDependency d.
Proof. done. Qed.

(** With as many met requirements as resolvable ones, each is met. *)
Lemma complete_all_met i st R :
  Inv kw reqs i st →
  length (non_null (requirement_to_dependency st)) = length reqs →
  R ∈ reqs →
  is_Some (od_get R (non_null (requirement_to_dependency st))).
Proof.
  intros HI Hlen HR. pose proof (inv_nodup _ _ _ _ HI) as Hnd.
  apply od_get_is_Some.
  assert (od_keys (non_null (requirement_to_dependency st)) ≡ₚ reqs) as Hperm;
    [|by rewrite Hperm].
  apply submseteq_length_Permutation.
  - apply NoDup_submseteq; [by apply od_keys_non_null_NoDup|].
    intros x Hx%od_keys_non_null_subseteq. by apply (inv_keys _ _ _ _ HI).
  - unfold od_keys. rewrite length_fmap. lia.
Qed.

Lemma contribution_acceptable f met R :
  od_mem R met = false →
  from_option (λ kv, if is_NullDependency kv.2 then None else Some kv.2) None
    (contribution kw f met R)
  = if acceptable kw (f (forwarded kw) R) then Some (f (forwarded kw) R) else None.
Proof.
  intros Hmem. unfold contribution, acceptable. rewrite Hmem.
  destruct (kw_exact kw && negb (dep_exact _)); [done|]. simpl.
  destruct (is_NullDependency (f (forwarded kw) R)) eqn:Hnull; simpl.
  - destruct (kw_return_null kw); [|done]. simpl.
    by rewrite is_NullDependency_set_version, Hnull.
  - by rewrite Hnull.
Qed.

(** The met requirements after the per-item loop of one resolver. *)
Lemma per_item_met f m R :
  NoDup (od_keys m) →
  R ∈ reqs →
  od_get R (non_null (od_update (omap (contribution kw f (non_null m)) reqs) m))
  = match od_get R (non_null m) with
    | Some d => Some d
    | None =>
        if acceptable kw (f (forwarded kw) R) then Some (f (forwarded kw) R) else None
    end.
Proof.
  intros Hnd HR. set (kvs := omap (contribution kw f (non_null m)) reqs).
  assert (NoDup kvs.*1) as Hkvs.
  { eapply sublist_NoDup; [exact Hreqs|]. apply contributions_keys. }
  rewrite od_get_non_null by by apply od_keys_NoDup_od_update.
  destruct (od_mem R (non_null m)) eqn:Hmem.
  - assert (R ∉ kvs.*1) as Hnotin.
    { intros (kv & -> & Hin)%list_elem_of_fmap.
      apply elem_of_contributions in Hin as [_ Hc].
      apply contribution_Some in Hc as (_ & ? & _). congruence. }
    rewrite od_get_od_update_notin by done. rewrite <-od_get_non_null by done.
    apply bool_decide_eq_true, od_get_is_Some in Hmem as [d ->]. done.
  - pose proof Hmem as Hnone. apply bool_decide_eq_false, od_get_None in Hnone.
    rewrite Hnone, <-(contribution_acceptable f (non_null m) R Hmem).
    destruct (contribution kw f (non_null m) R) as [[k d]|] eqn:Hc; simpl.
    + pose proof Hc as (Hk & _)%contribution_Some. simpl in Hk. subst k.
      rewrite (od_get_od_update_in R d); [done|done|].
      apply elem_of_contributions. done.
    + assert (R ∉ kvs.*1) as Hnotin.
      { intros (kv & -> & Hin)%list_elem_of_fmap.
        apply elem_of_contributions in Hin as [_ Hc']. congruence. }
      rewrite od_get_od_update_notin by done. rewrite <-od_get_non_null by done.
      by rewrite Hnone.
Qed.

Lemma per_item_pass_met i resolver st st0 R :
  NoDup (od_keys (requirement_to_dependency st)) →
  requirement_to_dependency st0 = requirement_to_dependency st →
  R ∈ reqs →
  od_get R (non_null (requirement_to_dependency
                        (per_item_pass kw i resolver
                           (non_null (requirement_to_dependency st)) reqs st0)))
  = match od_get R (non_null (requirement_to_dependency st)) with
    | Some d => Some d
    | None =>
        match resolver_class resolver with
        | DependencyResolver f =>
            if acceptable kw (f (forwarded kw) R) then Some (f (forwarded kw) R) else None
        | ContainerResolver _ => None
        end
    end.
Proof.
  intros Hnd Hsame HR. unfold per_item_pass.
  destruct (resolver_class resolver) as [f|f].
  - rewrite per_item_loop_closed. simpl. rewrite Hsame. by apply per_item_met.
  - rewrite Hsame. by destruct (od_get R _).
Qed.

(** One iteration, when the whole-set resolution, if any, gives nothing. *)
Lemma step_first_answer i resolver st :
  Inv kw reqs i st →
  (∀ f, select_resolve kw resolver = Some (Some f) →
        truthy (f ect (forwarded kw) reqs) = false) →
  ∃ c st',
    resolver_step ect kw reqs i resolver st = inl (c, st')
    ∧ (c = Break →
       st' = st ∧ length (non_null (requirement_to_dependency st)) = length reqs)
    ∧ (c = Next →
       ∀ R, R ∈ reqs →
         od_get R (non_null (requirement_to_dependency st'))
         = match od_get R (non_null (requirement_to_dependency st)) with
           | Some d => Some d
           | None => answer kw i resolver R
           end).
Proof.
  intros HI Hfalsy. pose proof (inv_nodup _ _ _ _ HI) as Hnd.
  assert (∀ R, od_get R (non_null (requirement_to_dependency st))
               = match od_get R (non_null (requirement_to_dependency st)) with
                 | Some d => Some d
                 | None => None
                 end) as Hsame.
  { intros R. by destruct (od_get R _). }
  unfold resolver_step, answer, eligible.
  destruct (index_excludes kw i); [by exists Next, st|].
  destruct (resolver_type_excludes kw resolver); [by exists Next, st|].
  case_bool_decide as Hlen; [by exists Break, st|].
  destruct (String.prefix "build_mulled" _ && negb _); [by exists Next, st|]. simpl.
  destruct (select_resolve kw resolver) as [[f|]|] eqn:Hsel.
  - destruct (bool_decide (length _ = 0)).
    + rewrite (Hfalsy f eq_refl). eexists Next, _. split_and!; [done..|].
      intros _ R HR. by apply per_item_pass_met.
    + eexists Next, _. split_and!; [done..|].
      intros _ R HR. by apply per_item_pass_met.
  - assert ((if bool_decide (length (non_null (requirement_to_dependency st)) = 0)
             then @None BatchResolve else None) = None) as -> by by destruct (bool_decide _).
    eexists Next, _. split_and!; [done..|].
    intros _ R HR. by apply per_item_pass_met.
  - exists Next, st. split_and!; [done..|]. intros _ R HR.
    unfold select_resolve in Hsel. destruct (resolve_all resolver); [done|].
    destruct (resolver_class resolver); [done|]. apply Hsame.
Qed.

Lemma chain_first_answer rs i st :
  Inv kw reqs i st →
  no_whole_set_result ect kw reqs rs →
  ∃ c st',
    resolve_chain ect kw reqs i rs st = inl (c, st')
    ∧ ∀ R, R ∈ reqs →
        od_get R (non_null (requirement_to_dependency st'))
        = match od_get R (non_null (requirement_to_dependency st)) with
          | Some d => Some d
          | None => first_answer kw i rs R
          end.
Proof.
  revert i st. induction rs as [|resolver rs IH]; intros i st HI Hfalsy; simpl.
  { exists Next, st. split; [done|]. intros R _. by destruct (od_get R _). }
  destruct (step_first_answer i resolver st HI) as (c & st1 & Hstep & Hbreak & Hnext).
  { intros f. apply Hfalsy. by left. }
  rewrite Hstep. destruct c.
  - destruct (IH (S i) st1) as (c' & st' & Hrun & Hget).
    { by eapply inv_step. }
    { intros resolver' f Hin. apply Hfalsy. by right. }
    exists c', st'. split; [done|]. intros R HR.
    rewrite (Hget R HR), (Hnext eq_refl R HR).
    destruct (od_get R (non_null (requirement_to_dependency st))); [done|].
    by destruct (answer kw i resolver R).
  - destruct (Hbreak eq_refl) as [-> Hlen]. exists Break, st. split; [done|].
    intros R HR. by destruct (complete_all_met i st R HI Hlen HR) as [d ->].
Qed.

(** An assignment from a whole-set result needs a whole-set resolution
    that gave one. *)
Lemma step_batch_record i resolver st j r d :
  EvRecord j BatchPath r d ∈ result_trace (resolver_step ect kw reqs i resolver st) →
  EvRecord j BatchPath r d ∈ trace st
  ∨ ∃ f, select_resolve kw resolver = Some (Some f)
         ∧ truthy (f ect (forwarded kw) reqs) = true.
Proof.
  pose proof (resolver_step_case ect kw reqs i resolver st) as Hcase.
  assert (∀ st0, trace st0 = trace st ∨ trace st0 = trace st ++ [EvResolveAll i] →
            EvRecord j BatchPath r d
            ∈ trace (per_item_pass kw i resolver
                       (non_null (requirement_to_dependency st)) reqs st0) →
            EvRecord j BatchPath r d ∈ trace st) as Hpass.
  { intros st0 Hst0. unfold per_item_pass.
    assert (EvRecord j BatchPath r d ∈ trace st0 → EvRecord j BatchPath r d ∈ trace st)
      as Hold.
    { destruct Hst0 as [->| ->]; [done|]. intros [?|Hin]%elem_of_app; [done|].
      by apply list_elem_of_singleton in Hin. }
    destruct (resolver_class resolver) as [f|f]; [|done].
    rewrite per_item_loop_closed. simpl. intros [Hin|Hin]%elem_of_app; [by apply Hold|].
    by apply per_item_events_record in Hin as (_ & ? & _). }
  inversion Hcase as [| |f ? Hsel Htruthy ?|f ? Hsel Htruthy|f|]; simpl;
    try (by left); try (by right; exists f).
  - intros Hin. left. apply Hpass in Hin; [done|by right].
  - intros Hin. left. apply Hpass in Hin; [done|by left].
Qed.

Lemma chain_batch_record rs i st j r d :
  EvRecord j BatchPath r d ∈ result_trace (resolve_chain ect kw reqs i rs st) →
  EvRecord j BatchPath r d ∈ trace st ∨ ¬ no_whole_set_result ect kw reqs rs.
Proof.
  revert i st. induction rs as [|resolver rs IH]; intros i st; simpl; [by left|].
  pose proof (step_batch_record i resolver st j r d) as Hstep.
  assert (∀ f, select_resolve kw resolver = Some (Some f) →
               truthy (f ect (forwarded kw) reqs) = true →
               ¬ no_whole_set_result ect kw reqs (resolver :: rs)) as Hhere.
  { intros f Hsel Htruthy Hno. rewrite (Hno resolver f) in Htruthy; [done| |done].
    by left. }
  destruct (resolver_step ect kw reqs i resolver st) as [[[] st1]|[e tr]] eqn:Heq;
    simpl in Hstep.
  - intros [Hin|Hnot]%IH.
    + apply Hstep in Hin as [?|(f & Hsel & Htruthy)]; [by left|]. right. by eapply Hhere.
    + right. intros Hno. apply Hnot. intros resolver' f Hin. apply Hno. by right.
  - intros [?|(f & Hsel & Htruthy)]%Hstep; [by left|]. right. by eapply Hhere.
  - intros [?|(f & Hsel & Htruthy)]%Hstep; [by left|]. right. by eapply Hhere.
Qed.

(** The run of a chain none of whose whole-set resolutions gives a result. *)
Lemma run_first_answer rs :
  no_whole_set_result ect kw reqs rs →
  ∃ c st,
    resolve_chain ect kw reqs 0 rs initial_state = inl (c, st)
    ∧ Inv kw reqs (length rs) st
    ∧ (∀ R, R ∈ reqs →
         od_get R (non_null (requirement_to_dependency st)) = first_answer kw 0 rs R)
    ∧ (∀ j r d, EvRecord j BatchPath r d ∉ trace st).
Proof.
  intros Hno.
  destruct (chain_first_answer rs 0 initial_state) as (c & st & Hrun & Hget);
    [apply inv_initial|done|].
  exists c, st. split_and!; [done| |done|].
  - apply (inv_chain ect kw reqs Hreqs rs 0 initial_state c st (inv_initial kw reqs) Hrun).
  - intros j r d Hin.
    pose proof (chain_batch_record rs 0 initial_state j r d) as Hrec.
    rewrite Hrun in Hrec. destruct (Hrec Hin) as [Hnil|?]; [|done].
    by apply elem_of_nil in Hnil.
Qed.
End first_answer.

(** X5. When no whole-set resolution of the chain gives a result, the run
    returns, and the dependency a requirement ends up with is the first
    acceptable single-item answer along the chain: the answer of the first
    plain resolver, among those the call options let through, that is not
    Null and, under [exact], is exact. Requirements without such an answer
    have no entry, or a Null one under [return_null]; nothing else is in
    the mapping. *)
Theorem per_item_resolution_is_first_answer self requirements kw :
  NoDup (resolvable requirements) →
  no_whole_set_result (enabled_container_types self) kw (resolvable requirements)
    (dependency_resolvers self) →
  ∃ m tr,
    _requirements_to_dependencies_dict self requirements kw = (Returned m, tr)
    ∧ (∀ R d,
         od_get R m = Some d ∧ is_NullDependency d = false
         ↔ R ∈ resolvable requirements
           ∧ first_answer kw 0 (dependency_resolvers self) R = Some d)
    ∧ (kw_return_null kw = false →
       ∀ R d, od_get R m = Some d → is_NullDependency d = false).
Proof.
  intros Hnd Hno.
  destruct (run_first_answer _ kw _ Hnd _ Hno) as (c & st & Hrun & HI & Hget & Hbatch).
  exists (requirement_to_dependency st), (trace st).
  pose proof (inv_nodup _ _ _ _ HI) as Hkeys.
  split_and!.
  - unfold _requirements_to_dependencies_dict. by rewrite Hrun.
  - intros R d. split.
    + intros [Hsome Hnn].
      assert (R ∈ resolvable requirements) as HR.
      { apply (inv_keys _ _ _ _ HI), od_get_is_Some. eauto. }
      split; [done|]. rewrite <-(Hget R HR), od_get_non_null, Hsome, Hnn; done.
    + intros [HR Hfirst]. rewrite <-(Hget R HR), od_get_non_null in Hfirst by done.
      destruct (od_get R (requirement_to_dependency st)) as [v|]; [|done].
      destruct (is_NullDependency v) eqn:Hnull; by simplify_eq.
  - intros Hrn R d Hsome.
    destruct (inv_origin _ _ _ _ HI R d Hsome) as (j & [] & Hev).
    + by apply Hbatch in Hev.
    + destruct (is_NullDependency d) eqn:Hnull; [|done].
      destruct (inv_null _ _ _ _ HI j R d Hev Hnull). congruence.
Qed.

(** ** Null entries for every requirement *)

Section coverage.
Context (ect : list string) (kw : Kwds) (reqs : list ToolRequirement).
Context (Hreqs : NoDup reqs).
Context (Hnull : kw_return_null kw = true) (Hexact : kw_exact kw = false).
Implicit Types (st : State) (resolver : Resolver) (rs : list Resolver).
Implicit Types (m : OrderedDict) (kvs : list (ToolRequirement * Dependency)).

Lemma od_keys_od_update_within kvs m :
  (∀ k, k ∈ kvs.*1 → k ∈ od_keys m) → od_keys (od_update kvs m) = od_keys m.
Proof.
  revert m. induction kvs as [|[k v] kvs IH]; intros m Hin; [done|].
  change (od_update ((k, v) :: kvs) m) with (od_update kvs (od_set k v m)).
  assert (od_keys (od_set k v m) = od_keys m) as Hset.
  { rewrite od_keys_od_set. rewrite decide_True; [done|]. apply Hin. by left. }
  rewrite IH, Hset; [done|]. intros k' Hk'. rewrite Hset. apply Hin. by right.
Qed.

Lemma od_keys_od_update_new kvs m :
  NoDup (od_keys m ++ kvs.*1) → od_keys (od_update kvs m) = od_keys m ++ kvs.*1.
Proof.
  revert m. induction kvs as [|[k v] kvs IH]; intros m Hnd; [by rewrite app_nil_r|].
  change (od_update ((k, v) :: kvs) m) with (od_update kvs (od_set k v m)).
  assert (od_keys (od_set k v m) = od_keys m ++ [k]) as Hset.
  { rewrite od_keys_od_set. rewrite decide_False; [done|].
    apply NoDup_app in Hnd as (_ & Hdisj & _). intros Hk. apply (Hdisj k Hk). by left. }
  rewrite IH; rewrite Hset, <-app_assoc; done.
Qed.

(** On an empty snapshot every requirement gets an assignment. *)
Lemma contributions_all f (l : list ToolRequirement) :
  (omap (contribution kw f []) l).*1 = l.
Proof.
  induction l as [|r l IH]; [done|]. simpl. unfold contribution at 1.
  rewrite Hnull, Hexact. simpl.
  destruct (negb (is_NullDependency (f (forwarded kw) r))); csimpl; by rewrite IH.
Qed.

Lemma covered_update kvs st st' :
  NoDup (od_keys (requirement_to_dependency st)) →
  covered reqs st →
  requirement_to_dependency st' = od_update kvs (requirement_to_dependency st) →
  kvs.*1 `sublist_of` reqs →
  (requirement_to_dependency st = [] → kvs.*1 = reqs) →
  od_keys (requirement_to_dependency st') = reqs.
Proof.
  intros Hnd [Hkeys|[Hnil _]] -> Hsub Hall.
  - rewrite od_keys_od_update_within; [done|].
    intros k Hk. rewrite Hkeys. by eapply elem_of_sublist.
  - rewrite Hnil, od_keys_od_update_new; simpl; rewrite Hall; done.
Qed.

Lemma covered_step i resolver st c st' :
  Inv kw reqs i st →
  covered reqs st →
  resolver_step ect kw reqs i resolver st = inl (c, st') →
  covered reqs st'.
Proof.
  intros HI Hcov Hstep. pose proof (inv_nodup _ _ _ _ HI) as Hnd.
  pose proof (resolver_step_case ect kw reqs i resolver st) as Hcase.
  assert (∀ st0, requirement_to_dependency st0 = requirement_to_dependency st →
            (trace st0 = trace st ∨ trace st0 = trace st ++ [EvResolveAll i]) →
            covered reqs (per_item_pass kw i resolver
                            (non_null (requirement_to_dependency st)) reqs st0))
    as Hpass.
  { intros st0 Hsame Htr. unfold per_item_pass.
    destruct (resolver_class resolver) as [f|f].
    - left. eapply covered_update; [done..| | |].
      + rewrite per_item_loop_closed. simpl. by rewrite Hsame.
      + apply contributions_keys.
      + intros ->. apply contributions_all.
    - destruct Hcov as [Hkeys|[Hnil Hnone]]; [left; by rewrite Hsame|].
      right. split; [by rewrite Hsame|]. intros j r.
      destruct Htr as [->| ->]; [done|]. intros [Hin|Hin]%elem_of_app.
      + by apply Hnone in Hin.
      + by apply list_elem_of_singleton in Hin. }
  rewrite Hstep in Hcase. inversion Hcase as [| |f ? ? ? Hlen|f|f|]; subst; try done.
  - left. eapply covered_update; [done..| | |].
    + by rewrite batch_record_closed.
    + rewrite fst_zip by lia. done.
    + intros _. rewrite fst_zip by lia. done.
  - apply Hpass; [done|by right].
  - apply Hpass; [done|by left].
Qed.

Lemma covered_chain rs i st c st' :
  Inv kw reqs i st →
  covered reqs st →
  resolve_chain ect kw reqs i rs st = inl (c, st') →
  covered reqs st'.
Proof.
  revert i st. induction rs as [|resolver rs IH]; intros i st HI Hcov; simpl.
  { by intros [= _ <-]. }
  destruct (resolver_step ect kw reqs i resolver st) as [[[] st1]|[e tr]] eqn:Hstep.
  - apply IH; [by eapply inv_step|by eapply covered_step].
  - intros [= _ <-]. by eapply covered_step.
  - done.
Qed.
End coverage.

(** X6. Under [return_null], and without [exact], a returned mapping has
    an entry, Null or not, for every resolvable requirement, and its keys
    come in the order of the requirements; the one exception is the empty
    mapping of a run in which no single-item resolution was made. *)
Theorem return_null_covers_every_requirement self requirements kw m tr :
  NoDup (resolvable requirements) →
  kw_return_null kw = true →
  kw_exact kw = false →
  _requirements_to_dependencies_dict self requirements kw = (Returned m, tr) →
  od_keys m = resolvable requirements
  ∨ m = [] ∧ ∀ i r, EvResolve i r ∉ tr.
Proof.
  intros Hnd Hnull Hexact. unfold _requirements_to_dependencies_dict.
  destruct (resolve_chain _ _ _ _ _ _) as [[c st]|[e tr']] eqn:Hrun; [|done].
  intros [= <- <-].
  eapply (covered_chain _ kw _ Hnd Hnull Hexact _ 0 initial_state); [|  |done].
  - apply inv_initial.
  - right. split; [done|]. intros j r Hin. by apply elem_of_nil in Hin.
Qed.

(** X7. [find_dep] for a requirement of a resolvable type, when no
    whole-set resolution gives a result for it: the call returns the first
    acceptable single-item answer along the chain and, when there is none, a
    Null dependency of the version asked for. *)
Theorem find_dep_is_first_answer X self name version type kw :
  let requirement := {| req_name := name; req_version := version; req_type := type |} in
  is_resolvable_type X type = true →
  no_whole_set_result (enabled_container_types self) kw [requirement]
    (dependency_resolvers self) →
  ∃ d tr,
    find_dep X self name version type kw = (Returned d, tr)
    ∧ match first_answer kw 0 (dependency_resolvers self) requirement with
      | Some a => d = a
      | None => is_NullDependency d = true ∧ dep_version d = version
      end.
Proof.
  intros requirement Htype Hno.
  assert (NoDup [requirement]) as Hnd by apply NoDup_singleton.
  destruct (run_first_answer _ kw _ Hnd _ Hno) as (c & st & Hrun & HI & Hget & Hbatch).
  specialize (Hget requirement (list_elem_of_here _ _)).
  pose proof (inv_nodup _ _ _ _ HI) as Hkeys.
  rewrite od_get_non_null in Hget by done.
  assert (_requirements_to_dependencies_dict self
            (make_ToolRequirements (is_resolvable_type X) [requirement]) kw
          = (Returned (requirement_to_dependency st), trace st)) as Hdict.
  { unfold make_ToolRequirements, _requirements_to_dependencies_dict. simpl.
    rewrite (filter_cons (λ r, is_resolvable_type X (req_type r) = true)).
    rewrite decide_True by done. rewrite !filter_nil. by rewrite Hrun. }
  unfold find_dep. fold requirement. rewrite Hdict.
  destruct (requirement_to_dependency st) as [|[k d] m] eqn:Hm; simpl.
  - eexists _, _. split; [done|]. simpl in Hget. by rewrite <-Hget.
  - eexists _, _. split; [done|].
    assert (k = requirement) as ->.
    { pose proof (inv_keys _ _ _ _ HI k) as Hk. rewrite Hm in Hk.
      apply list_elem_of_singleton, Hk. by left. }
    simpl in Hget. rewrite decide_True in Hget by done. rewrite <-Hget.
    destruct (is_NullDependency d) eqn:Hnull; [|done]. split; [done|].
    destruct (inv_origin _ _ _ _ HI requirement d) as (j & [] & Hev).
    { rewrite Hm. simpl. by rewrite decide_True. }
    + by apply Hbatch in Hev.
    + by destruct (inv_null _ _ _ _ HI j requirement d Hev Hnull).
Qed.

(** ** More on the caching layer *)

Section more_caching.
Context (X : Collaborators) (self : DependencyManager).
Context (requirements : ToolRequirements) (kw : Kwds).
Implicit Types (fs : FileSystem) (m : OrderedDict).

Lemma requirements_to_dependencies_raised e tr fs :
  _requirements_to_dependencies_dict self requirements kw = (Raised e, tr) →
  requirements_to_dependencies self requirements kw fs = (Raised e, fs, tr).
Proof. intros Hrun. unfold requirements_to_dependencies. by rewrite Hrun. Qed.

(** [build_cache] when the cache directory exists. *)
Lemma build_cache_present m tr fs :
  _requirements_to_dependencies_dict self requirements kw = (Returned m, tr) →
  let dir := get_hashed_dependencies_path X self (cacheable_values m) in
  is_Some (fs !! dir) →
  build_cache X self requirements kw fs
  = if kw_force_rebuild kw then
      match rmtree X dir fs with
      | (None, fs') =>
          (Returned (), built X dir (cacheable_values m) fs',
           resolution_events kw m tr
           ++ EvRmtree dir :: ((λ dep, EvBuildCache dep dir) <$> cacheable_values m))
      | (Some e, fs') =>
          (Raised e, fs',
           resolution_events kw m tr
           ++ [EvRmtree dir;
               EvLog Warning ("Could not delete cached dependencies directory '"
                              +:+ dir +:+ "'")])
      end
    else
      (Returned (), fs,
       resolution_events kw m tr
       ++ [EvLog Debug ("Cached dependencies directory '" +:+ dir
                        +:+ "' already exists, skipping build")]).
Proof.
  intros Hrun dir Hpresent. unfold build_cache. rewrite bind_unfold.
  rewrite (requirements_to_dependencies_returned self requirements kw m tr) by done.
  fold (cacheable_values m). fold dir. rewrite bind_unfold. unfold os_path_exists.
  rewrite bool_decide_eq_true_2 by done.
  destruct (kw_force_rebuild kw); [|done].
  rewrite bind_unfold. unfold guarded_rmtree.
  destruct (rmtree X dir fs) as [[e|] fs']; [done|].
  rewrite bind_unfold, for_each_build, ret_unfold. simpl. by rewrite app_nil_r.
Qed.

Lemma resolution_events_build m tr dep path :
  _requirements_to_dependencies_dict self requirements kw = (Returned m, tr) →
  EvBuildCache dep path ∉ resolution_events kw m tr.
Proof.
  intros Hrun [Hin|Hin]%elem_of_app.
  - by apply (resolution_emits self requirements kw _ _ Hrun) in Hin.
  - destruct (kw_tool_instance kw); [|by apply elem_of_nil in Hin].
    by apply list_elem_of_singleton in Hin.
Qed.

Lemma resolution_events_rmtree m tr path :
  _requirements_to_dependencies_dict self requirements kw = (Returned m, tr) →
  EvRmtree path ∉ resolution_events kw m tr.
Proof.
  intros Hrun [Hin|Hin]%elem_of_app.
  - by apply (resolution_emits self requirements kw _ _ Hrun) in Hin.
  - destruct (kw_tool_instance kw); [|by apply elem_of_nil in Hin].
    by apply list_elem_of_singleton in Hin.
Qed.

Lemma elem_of_build_events dep path dir (deps : list Dependency) :
  EvBuildCache dep path ∈ (λ dep, EvBuildCache dep dir) <$> deps →
  path = dir ∧ dep ∈ deps.
Proof. intros (dep' & [= -> ->] & Hin)%list_elem_of_fmap. done. Qed.

Lemma elem_of_cacheable_values dep m :
  dep ∈ cacheable_values m ↔ cacheable dep = true ∧ dep ∈ od_values m.
Proof. unfold cacheable_values. by rewrite list_elem_of_filter. Qed.

(** [dependency_shell_commands] in closed form. *)
Lemma dependency_shell_commands_closed m tr fs :
  _requirements_to_dependencies_dict self requirements kw = (Returned m, tr) →
  let dir := get_hashed_dependencies_path X self (cacheable_values m) in
  let precache :=
    negb (bool_decide (is_Some (fs !! dir))) && precache_dependencies self in
  let fs1 := if precache then built X dir (cacheable_values m) fs else fs in
  let build_events :=
    if precache
    then resolution_events kw m tr ++ ((λ dep, EvBuildCache dep dir) <$> cacheable_values m)
    else [] in
  let present := bool_decide (is_Some (fs1 !! dir)) in
  let values := if present then point_at_cache dir <$> od_values m else od_values m in
  let set_events :=
    if present then (λ dep, EvSetCachePath dep dir) <$> cacheable_values m else [] in
  dependency_shell_commands X self requirements kw fs
  = (Returned (shell_commands X <$> values), fs1,
     resolution_events kw m tr ++ build_events ++ set_events ++ (EvShellCommands <$> values)).
Proof.
  intros Hrun dir precache fs1 build_events present values set_events.
  unfold dependency_shell_commands. rewrite bind_unfold.
  rewrite (requirements_to_dependencies_returned self requirements kw m tr) by done.
  fold (cacheable_values m). fold dir. rewrite bind_unfold.
  unfold os_path_exists at 1. rewrite bind_unfold.
  change (negb (bool_decide (is_Some (fs !! dir))) && precache_dependencies self)
    with precache.
  assert ((if precache then build_cache X self requirements kw else mret ()) fs
          = (Returned (), fs1, build_events)) as ->.
  { unfold fs1, build_events. destruct precache eqn:Hpre; [|done].
    apply build_cache_absent; [done|]. fold dir.
    apply andb_prop in Hpre as [Habs%negb_true_iff%bool_decide_eq_false _].
    by apply eq_None_not_Some. }
  rewrite bind_unfold. unfold os_path_exists. fold present.
  rewrite bind_unfold.
  assert ((if present
           then for_each (λ dep, tell (EvSetCachePath dep dir)) (cacheable_values m);;
                mret (point_at_cache dir <$> od_values m)
           else mret (od_values m)) fs1
          = (Returned values, fs1, set_events)) as ->.
  { unfold values, set_events. destruct present; [|done].
    rewrite bind_unfold, for_each_tell, ret_unfold. by rewrite app_nil_r. }
  rewrite for_each_ask. simpl. done.
Qed.
End more_caching.

(** X8. A forced rebuild. With [force_rebuild] set, on a cache directory
    that exists and whose removal succeeds, [build_cache] returns after
    removing the directory and then running the build routine of every
    cacheable dependency, in the order of the mapping, against the tree
    the removal left: the removal comes before every build. *)
Theorem forced_rebuild_removes_then_builds X self requirements kw fs m tr fs' :
  kw_force_rebuild kw = true →
  _requirements_to_dependencies_dict self requirements kw = (Returned m, tr) →
  let dir := get_hashed_dependencies_path X self (cacheable_values m) in
  is_Some (fs !! dir) →
  rmtree X dir fs = (None, fs') →
  build_cache X self requirements kw fs
  = (Returned (), built X dir (cacheable_values m) fs',
     resolution_events kw m tr
     ++ EvRmtree dir :: ((λ dep, EvBuildCache dep dir) <$> cacheable_values m)).
Proof.
  intros Hforce Hrun dir Hpresent Hrm.
  rewrite (build_cache_present X self requirements kw m tr) by done.
  fold dir. by rewrite Hforce, Hrm.
Qed.

(** X9. Whatever the state of the cache and the options, [build_cache]
    runs build routines only for cacheable dependencies of the resolved
    mapping and only against the hashed directory of that set; and it
    removes nothing but that directory, and this only under [force_rebuild]
    when the directory exists. *)
Theorem build_cache_touches_only_its_directory X self requirements kw fs m tr o fs1 events :
  _requirements_to_dependencies_dict self requirements kw = (Returned m, tr) →
  build_cache X self requirements kw fs = (o, fs1, events) →
  let dir := get_hashed_dependencies_path X self (cacheable_values m) in
  (∀ dep path, EvBuildCache dep path ∈ events →
     path = dir ∧ cacheable dep = true ∧ dep ∈ od_values m)
  ∧ (∀ path, EvRmtree path ∈ events →
       path = dir ∧ kw_force_rebuild kw = true ∧ is_Some (fs !! dir)).
Proof.
  intros Hrun Hbuild dir.
  pose proof (λ dep path, resolution_events_build self requirements kw m tr dep path Hrun)
    as Hnb.
  pose proof (λ path, resolution_events_rmtree self requirements kw m tr path Hrun) as Hnr.
  assert (∀ dep path,
            EvBuildCache dep path ∈ (λ dep, EvBuildCache dep dir) <$> cacheable_values m →
            path = dir ∧ cacheable dep = true ∧ dep ∈ od_values m) as Hbuilds.
  { intros dep path [-> Hin%elem_of_cacheable_values]%elem_of_build_events. done. }
  destruct (fs !! dir) as [entries|] eqn:Hdir.
  - rewrite (build_cache_present X self requirements kw m tr) in Hbuild
      by (try done; fold dir; by rewrite Hdir).
    fold dir in Hbuild. destruct (kw_force_rebuild kw).
    + destruct (rmtree X dir fs) as [[e|] fs']; simplify_eq; split.
      * intros dep path [Hin|Hin]%elem_of_app; [by apply Hnb in Hin|].
        apply elem_of_cons in Hin as [?|Hin]; [done|].
        by apply list_elem_of_singleton in Hin.
      * intros path [Hin|Hin]%elem_of_app; [by apply Hnr in Hin|].
        apply elem_of_cons in Hin as [[= ->]|Hin]; [done|].
        by apply list_elem_of_singleton in Hin.
      * intros dep path [Hin|Hin]%elem_of_app; [by apply Hnb in Hin|].
        apply elem_of_cons in Hin as [?|Hin]; [done|]. by apply Hbuilds.
      * intros path [Hin|Hin]%elem_of_app; [by apply Hnr in Hin|].
        apply elem_of_cons in Hin as [[= ->]|Hin]; [done|].
        by apply list_elem_of_fmap in Hin as (? & ? & _).
    + simplify_eq. split.
      * intros dep path [Hin|Hin]%elem_of_app; [by apply Hnb in Hin|].
        by apply list_elem_of_singleton in Hin.
      * intros path [Hin|Hin]%elem_of_app; [by apply Hnr in Hin|].
        by apply list_elem_of_singleton in Hin.
  - rewrite (build_cache_absent X self requirements kw m tr) in Hbuild by done.
    fold dir in Hbuild. simplify_eq. split.
    + intros dep path [Hin|Hin]%elem_of_app; [by apply Hnb in Hin|]. by apply Hbuilds.
    + intros path [Hin|Hin]%elem_of_app; [by apply Hnr in Hin|].
      by apply list_elem_of_fmap in Hin as (? & ? & _).
Qed.

(** X10. [dependency_shell_commands] of the cached manager never removes
    anything, [force_rebuild] or not: however a call ends, no removal was
    made in it. And it leaves the file system as it found it when
    [precache_dependencies] is off, when the cache directory of the
    resolved set is already there, and when the resolution raises. *)
Theorem shell_commands_never_remove X self requirements kw fs o fs1 events :
  dependency_shell_commands X self requirements kw fs = (o, fs1, events) →
  (∀ path, EvRmtree path ∉ events)
  ∧ (precache_dependencies self = false → fs1 = fs)
  ∧ (∀ m tr,
       _requirements_to_dependencies_dict self requirements kw = (Returned m, tr) →
       is_Some (fs !! get_hashed_dependencies_path X self (cacheable_values m)) →
       fs1 = fs)
  ∧ (∀ e tr,
       _requirements_to_dependencies_dict self requirements kw = (Raised e, tr) →
       fs1 = fs).
Proof.
  intros Hcall.
  destruct (_requirements_to_dependencies_dict self requirements kw) as [[m|e] tr]
    eqn:Hrun.
  - pose proof (λ path, resolution_events_rmtree self requirements kw m tr path Hrun)
      as Hnr.
    rewrite (dependency_shell_commands_closed X self requirements kw m tr) in Hcall
      by done.
    set (dir := get_hashed_dependencies_path X self (cacheable_values m)) in *.
    injection Hcall as <- <- <-. split_and!.
    + intros path [Hin|Hin]%elem_of_app; [by apply Hnr in Hin|].
      apply elem_of_app in Hin as [Hin|Hin].
      { destruct (_ && _); [|by apply elem_of_nil in Hin].
        apply elem_of_app in Hin as [Hin|Hin]; [by apply Hnr in Hin|].
        by apply list_elem_of_fmap in Hin as (? & ? & _). }
      apply elem_of_app in Hin as [Hin|Hin].
      { destruct (bool_decide _); [|by apply elem_of_nil in Hin].
        by apply list_elem_of_fmap in Hin as (? & ? & _). }
      by apply list_elem_of_fmap in Hin as (? & ? & _).
    + intros Hoff. by rewrite Hoff, andb_false_r.
    + intros m' tr' [= <- <-] Hpresent. by rewrite bool_decide_eq_true_2.
    + by intros e tr' [=].
  - pose proof (resolution_emits self requirements kw _ _ Hrun) as Hres.
    unfold dependency_shell_commands in Hcall. rewrite bind_unfold in Hcall.
    rewrite (requirements_to_dependencies_raised self requirements kw e tr) in Hcall
      by done.
    injection Hcall as <- <- <-. split_and!; [|done..].
    intros path Hin. by apply Hres in Hin.
Qed.

(** X11. An exception of the resolution goes through the managers'
    operations as it is: [requirements_to_dependencies], [build_cache],
    [dependency_shell_commands] and [find_dep] raise it, the file system
    is left untouched, and nothing is emitted beyond the events of the
    resolution: no build, no removal, no shell command is run. *)
Theorem resolution_failure_propagates X self requirements kw fs e tr :
  _requirements_to_dependencies_dict self requirements kw = (Raised e, tr) →
  requirements_to_dependencies self requirements kw fs = (Raised e, fs, tr)
  ∧ build_cache X self requirements kw fs = (Raised e, fs, tr)
  ∧ dependency_shell_commands X self requirements kw fs = (Raised e, fs, tr)
  ∧ (∀ ev, ev ∈ tr → is_resolution_event ev = true)
  ∧ (∀ name version type,
       make_ToolRequirements (is_resolvable_type X)
         [ {| req_name := name; req_version := version; req_type := type |} ]
       = requirements →
       ∃ log, find_dep X self name version type kw = (Raised e, log :: tr)).
Proof.
  intros Hrun. split_and!.
  - by apply requirements_to_dependencies_raised.
  - unfold build_cache. rewrite bind_unfold.
    by rewrite (requirements_to_dependencies_raised self requirements kw e tr).
  - unfold dependency_shell_commands. rewrite bind_unfold.
    by rewrite (requirements_to_dependencies_raised self requirements kw e tr).
  - by apply (resolution_emits self requirements kw _ _ Hrun).
  - intros name version type Hreqs. unfold find_dep. rewrite Hreqs, Hrun. eauto.
Qed.

(** ** Container destinations and configuration options *)

Section destinations.
Implicit Types (ds : list Containers.Destination).

Lemma params_of_id_first wanted ds params :
  Containers.params_of_id wanted ds = Some params
  ↔ ∃ pre d post,
      ds = pre ++ d :: post
      ∧ Containers.dest_id d = wanted ∧ Containers.dest_params d = params
      ∧ wanted ∉ Containers.dest_id <$> pre.
Proof.
  induction ds as [|d ds IH]; simpl.
  { split; [done|]. intros (pre & d & post & Heq & _). by destruct pre. }
  destruct (decide (Containers.dest_id d = wanted)) as [Hid|Hid].
  - split.
    + intros [= <-]. exists [], d, ds. split_and!; [done..|]. by intros ?%elem_of_nil.
    + intros ([|d' pre] & d0 & post & Heq & Hid0 & Hparams & Hnotin);
        simpl in Heq; injection Heq as -> ->.
      * by rewrite Hparams.
      * exfalso. apply Hnotin. csimpl. rewrite Hid. by left.
  - rewrite IH. split.
    + intros (pre & d0 & post & -> & Hid0 & Hparams & Hnotin).
      exists (d :: pre), d0, post. split_and!; [done..|].
      csimpl. by intros [?|?]%elem_of_cons.
    + intros ([|d' pre] & d0 & post & Heq & Hid0 & Hparams & Hnotin);
        simpl in Heq; injection Heq as -> ->; [done|].
      exists pre, d0, post. split_and!; [done..|].
      intros Hin. apply Hnotin. csimpl. by right.
Qed.

Lemma params_of_id_None wanted ds :
  Containers.params_of_id wanted ds = None ↔ wanted ∉ Containers.dest_id <$> ds.
Proof.
  induction ds as [|d ds IH]; simpl.
  { split; [by intros _ ?%elem_of_nil|done]. }
  destruct (decide (Containers.dest_id d = wanted)) as [Hid|Hid].
  - split; [done|]. intros Hnotin. exfalso. apply Hnotin. csimpl. rewrite Hid. by left.
  - rewrite IH. csimpl. split.
    + by intros ? [?|?]%elem_of_cons.
    + intros Hnotin Hin. apply Hnotin. by right.
Qed.
End destinations.

(** X13. After [set_enabled_container_types], the enabled container types
    are the keys of the dictionary handed over, each listed once, and they
    are the container types for which a destination lookup does not raise
    [KeyError]; on a manager on which it was never called, every lookup
    raises [KeyError]. *)
Theorem enabled_types_are_the_lookup_domain
    (destinations : gmap string (list Containers.Destination)) self container_type
    destination_id :
  let self' := Containers.set_enabled_container_types destinations self in
  NoDup (Containers.enabled_container_types self')
  ∧ (container_type ∈ Containers.enabled_container_types self'
     ↔ is_Some (destinations !! container_type))
  ∧ (container_type ∈ Containers.enabled_container_types self'
     ↔ Containers.get_destination_info_for_container_type self' container_type
         destination_id
       ≠ inr (Containers.KeyError container_type))
  ∧ Containers.get_destination_info_for_container_type Containers.init container_type
      destination_id
    = inr (Containers.KeyError container_type).
Proof.
  intros self'.
  assert (container_type ∈ Containers.enabled_container_types self'
          ↔ is_Some (destinations !! container_type)) as Hdom.
  { unfold Containers.enabled_container_types. simpl. rewrite list_elem_of_fmap. split.
    - intros ([k ds] & -> & Hin%elem_of_map_to_list). by exists ds.
    - intros [ds Hds]. exists (container_type, ds). split; [done|].
      by apply elem_of_map_to_list. }
  split_and!; [apply NoDup_fst_map_to_list|done| |done].
  rewrite Hdom. unfold Containers.get_destination_info_for_container_type. simpl.
  destruct (destinations !! container_type) as [ds|]; split.
  - intros _. destruct destination_id; [done|]. by destruct ds.
  - eauto.
  - by intros [? ?].
  - by intros ?.
Qed.

(** X14. Looking up the destination of a configured container type.
    Without a destination id the parameters of the first destination are
    returned, and [StopIteration] is raised when there is none. With an id,
    the parameters of the first destination of that id are returned, so
    each destination is found by its id when the ids are distinct; an id
    of no destination gives [None] and no exception. *)
Theorem destination_lookup self container_type destinations :
  Containers._destination_for_container_type self !! container_type = Some destinations →
  let lookup := Containers.get_destination_info_for_container_type self container_type in
  (lookup None = inr Containers.StopIteration ↔ destinations = [])
  ∧ (∀ first rest, destinations = first :: rest →
       lookup None = inl (Some (Containers.dest_params first)))
  ∧ (∀ wanted params,
       lookup (Some wanted) = inl (Some params)
       ↔ ∃ pre d post,
           destinations = pre ++ d :: post
           ∧ Containers.dest_id d = wanted ∧ Containers.dest_params d = params
           ∧ wanted ∉ Containers.dest_id <$> pre)
  ∧ (∀ wanted, lookup (Some wanted) = inl None
               ↔ wanted ∉ Containers.dest_id <$> destinations)
  ∧ (NoDup (Containers.dest_id <$> destinations) →
     ∀ d, d ∈ destinations →
          lookup (Some (Containers.dest_id d)) = inl (Some (Containers.dest_params d))).
Proof.
  intros Hds lookup. unfold lookup, Containers.get_destination_info_for_container_type.
  rewrite Hds. split_and!.
  - by destruct destinations.
  - by intros first rest ->.
  - intros wanted params. rewrite <-params_of_id_first. split; [by intros [=]|by intros ->].
  - intros wanted. rewrite <-params_of_id_None. split; [by intros [=]|by intros ->].
  - intros Hnd d (pre & post & ->)%list_elem_of_split. f_equal.
    apply params_of_id_first. exists pre, d, post. split_and!; [done..|].
    rewrite fmap_app in Hnd. apply NoDup_app in Hnd as (_ & Hdisj & _).
    intros Hin. apply (Hdisj _ Hin). csimpl. by left.
Qed.

(** X15. Where a resolver option comes from. An explicit option wins,
    whatever its value, on every manager. Without one, the application
    option named by the resolver type, an underscore and the key is looked
    up: on a manager set up by [DependencyManager.__init__], in the
    configuration itself and then, for a configuration object, in its
    [config_dict]; it wins over the resolver's own [config_options], which
    only provide the default, [None] when they lack the key. On a
    [NullDependencyManager] the lookup of an application option raises
    [AttributeError], whatever the configuration, the attribute it reads
    being written under another name. The lookup fails exactly when there
    is no explicit option and either that attribute is missing, or the
    configuration is an object that lacks the option and whose
    [config_dict] is not a dictionary. *)
Theorem resolver_option_precedence self resolver config_options key explicit :
  let global_key := resolver_type resolver +:+ "_" +:+ key in
  let own := default PyNone (dict_get key config_options) in
  let option := get_resolver_option self resolver config_options key explicit in
  (∀ v, dict_get key explicit = Some v → option = inl v)
  ∧ (∀ app_config,
       _DependencyManager__app_config self = Some app_config →
       dict_get key explicit = None →
       let direct :=
         match app_config with
         | ConfigDict items => dict_get global_key items
         | ConfigObject attributes => dict_get global_key attributes
         end in
       (∀ v, direct = Some v → option = inl v)
       ∧ (direct = None →
          match app_config with
          | ConfigDict _ => option = inl own
          | ConfigObject attributes =>
              match dict_get "config_dict" attributes with
              | None => option = inl own
              | Some (PyDict items) =>
                  option = inl (default own (dict_get global_key items))
              | Some _ => option = inr (AttributeError "get")
              end
          end))
  ∧ (∀ app_config default,
       get_app_option (NullDependencyManager__init__ app_config) key default
       = inr (AttributeError "_DependencyManager__app_config"))
  ∧ ((∃ e, option = inr e)
     ↔ dict_get key explicit = None
       ∧ (_DependencyManager__app_config self = None
          ∨ ∃ attributes v,
              _DependencyManager__app_config self = Some (ConfigObject attributes)
              ∧ dict_get global_key attributes = None
              ∧ dict_get "config_dict" attributes = Some v
              ∧ ∀ items, v ≠ PyDict items)).
Proof.
  intros global_key own option.
  unfold option, get_resolver_option, get_app_option. fold global_key. fold own.
  split_and!.
  - by intros v ->.
  - intros app_config -> ->. split.
    + intros v Hdirect. destruct app_config as [items|attributes]; by rewrite Hdirect.
    + intros Hdirect.
      destruct app_config as [items|attributes]; rewrite Hdirect; [done|].
      destruct (dict_get "config_dict" attributes) as [[]|]; try done.
      by destruct (dict_get global_key items).
  - done.
  - split.
    + intros [e He]. destruct (dict_get key explicit); [done|]. split; [done|].
      destruct (_DependencyManager__app_config self) as [[items|attributes]|];
        [|right|by left].
      { by destruct (dict_get global_key items). }
      destruct (dict_get global_key attributes) eqn:Hattr; [done|].
      destruct (dict_get "config_dict" attributes) as [v|] eqn:Hcd; [|done].
      exists attributes, v. split_and!; [done..|].
      intros items ->. by destruct (dict_get global_key items).
    + intros (-> & [->|(attributes & v & -> & -> & -> & Hv)]); [by eexists|].
      destruct v; try (by eexists). by destruct (Hv items).
Qed.

(** ** Longer chains *)


(** ** Whole-set calls and results *)

Section whole_set.
Context (ect : list string) (kw : Kwds) (reqs : list ToolRequirement).
Context (Hreqs : NoDup reqs).
Implicit Types (st : State) (resolver : Resolver) (rs : list Resolver).

(** A whole-set call is made only while nothing is met. *)
Lemma step_resolve_all_unmet i resolver st j :
  EvResolveAll j ∈ result_trace (resolver_step ect kw reqs i resolver st) →
  EvResolveAll j ∈ trace st
  ∨ length (non_null (requirement_to_dependency st)) = 0.
Proof.
  pose proof (resolver_step_case ect kw reqs i resolver st) as Hcase.
  inversion Hcase as [| |f Hlen ? ? ?|f Hlen|f Hlen|]; simpl; try (by left); try (by right).
  unfold per_item_pass. destruct (resolver_class resolver) as [f|f]; [|by left].
  rewrite per_item_loop_closed. simpl. intros [?|Hin]%elem_of_app; [by left|].
  by apply per_item_events_resolve_all in Hin.
Qed.

Lemma whole_set_first_step i resolver st :
  Inv kw reqs i st →
  whole_set_first (trace st) →
  whole_set_first (result_trace (resolver_step ect kw reqs i resolver st)).
Proof.
  intros HI Hfirst i0 j via r d Hall Hrec Hnn.
  pose proof (step_resolve_all_unmet i resolver st i0 Hall) as Hunmet.
  destruct (step_trace ect kw reqs i resolver st) as (new & Htr & Hidx).
  rewrite Htr in Hall, Hrec.
  apply elem_of_app in Hall as [Hall|Hall]; apply elem_of_app in Hrec as [Hrec|Hrec].
  - by eapply Hfirst.
  - pose proof (inv_bound _ _ _ _ HI _ i0 Hall eq_refl).
    pose proof (Hidx _ j Hrec eq_refl). lia.
  - exfalso. destruct Hunmet as [Hold|Hnone].
    + pose proof (inv_bound _ _ _ _ HI _ i0 Hold eq_refl).
      pose proof (Hidx _ i0 Hall eq_refl). lia.
    + pose proof (inv_kept _ _ _ _ HI j via r d Hrec Hnn) as Hget.
      apply (non_null_nil_inv _ _ _ Hnone) in Hget. congruence.
  - pose proof (Hidx _ i0 Hall eq_refl). pose proof (Hidx _ j Hrec eq_refl). lia.
Qed.

Lemma whole_set_first_chain rs i st :
  Inv kw reqs i st →
  whole_set_first (trace st) →
  whole_set_first (result_trace (resolve_chain ect kw reqs i rs st)).
Proof.
  revert i st. induction rs as [|resolver rs IH]; intros i st HI Hfirst; simpl; [done|].
  pose proof (whole_set_first_step i resolver st HI Hfirst) as Hstep.
  destruct (resolver_step ect kw reqs i resolver st) as [[[] st1]|[e tr]] eqn:Heq;
    [|done..].
  apply IH; [by eapply inv_step|done].
Qed.
End whole_set.

(** X17. A whole-set resolution is attempted only before anything is
    resolved: if the resolver at position [i] got a whole-set call, every
    non-Null dependency of the run was recorded by that resolver or a later
    one. *)
Theorem whole_set_calls_come_first self requirements kw o tr i j via R d :
  NoDup (resolvable requirements) →
  _requirements_to_dependencies_dict self requirements kw = (o, tr) →
  EvResolveAll i ∈ tr →
  EvRecord j via R d ∈ tr →
  is_NullDependency d = false →
  i ≤ j.
Proof.
  intros Hnd ->%run_result_trace.
  apply (whole_set_first_chain _ kw _ Hnd _ 0 initial_state); [apply inv_initial|].
  intros ????? Hin. by apply elem_of_nil in Hin.
Qed.

(** X18. How a resolution fails. The only exception of the engine is the
    [AssertionError] on the length of a whole-set result: it is raised
    right after a whole-set call, at a point where no requirement is met,
    and it takes a whole-set resolution of the chain that gives a result. *)
Theorem resolution_raises_only_on_whole_set_result self requirements kw e tr :
  NoDup (resolvable requirements) →
  _requirements_to_dependencies_dict self requirements kw = (Raised e, tr) →
  e = AssertionError
  ∧ (∃ before i,
       tr = before ++ [EvResolveAll i]
       ∧ ∀ j via R d, EvRecord j via R d ∈ before → is_NullDependency d = true)
  ∧ ¬ no_whole_set_result (enabled_container_types self) kw (resolvable requirements)
        (dependency_resolvers self).
Proof.
  intros Hnd Hrun. split_and!.
  - unfold _requirements_to_dependencies_dict in Hrun.
    destruct (resolve_chain _ _ _ _ _ _) as [[c st]|[e' tr']] eqn:Hchain; [done|].
    simplify_eq.
    by apply (chain_raises _ kw _ Hnd _ 0 initial_state _ _ (inv_initial _ _)) in Hchain
      as (_ & _ & _ & _ & _ & _ & _ & ->).
  - unfold _requirements_to_dependencies_dict in Hrun.
    destruct (resolve_chain _ _ _ _ _ _) as [[c st]|[e' tr']] eqn:Hchain; [done|].
    simplify_eq.
    apply (chain_raises _ kw _ Hnd _ 0 initial_state _ _ (inv_initial _ _)) in Hchain
      as (i & st1 & new & HI & _ & Hnone & -> & _).
    exists (trace st1), i. split; [done|]. intros j via R d Hrec.
    destruct (is_NullDependency d) eqn:Hnull; [done|].
    pose proof (inv_kept _ _ _ _ HI j via R d Hrec Hnull) as Hget.
    apply (non_null_nil_inv _ _ _ Hnone) in Hget. congruence.
  - intros Hno.
    destruct (run_first_answer _ kw _ Hnd _ Hno) as (c & st & Hchain & _).
    unfold _requirements_to_dependencies_dict in Hrun. by rewrite Hchain in Hrun.
Qed.

(** ** Options that select nothing, options that are not forwarded *)

Section filters.
Context (ect : list string) (reqs : list ToolRequirement).
Implicit Types (kw : Kwds) (st : State) (resolver : Resolver) (rs : list Resolver).

(** A chain all of whose resolvers are filtered out does nothing. *)
Lemma chain_all_excluded kw rs i st :
  (∀ n resolver, rs !! n = Some resolver →
     index_excludes kw (i + n) = true ∨ resolver_type_excludes kw resolver = true) →
  resolve_chain ect kw reqs i rs st = inl (Next, st).
Proof.
  revert i. induction rs as [|resolver rs IH]; intros i Hex; simpl; [done|].
  assert (resolver_step ect kw reqs i resolver st = inl (Next, st)) as ->.
  { unfold resolver_step. destruct (Hex 0 resolver eq_refl) as [Hidx|Hty].
    - rewrite Nat.add_0_r in Hidx. by rewrite Hidx.
    - rewrite Hty. by destruct (index_excludes kw i). }
  apply IH. intros n resolver' Hlookup.
  replace (S i + n) with (i + S n) by lia. by apply Hex.
Qed.

Lemma per_item_loop_forwarded kw kw' i f met (rs : list ToolRequirement) st :
  forwarded kw' = forwarded kw →
  per_item_loop kw' i f met rs st = per_item_loop kw i f met rs st.
Proof.
  intros Hfw.
  assert (kw_exact kw' = kw_exact kw) as Hexact by apply (f_equal kw_exact Hfw).
  assert (kw_return_null kw' = kw_return_null kw) as Hnull
    by apply (f_equal kw_return_null Hfw).
  revert st. induction rs as [|r rs IH]; intros st; simpl; [done|].
  rewrite IH. f_equal. unfold per_item_body. by rewrite Hfw, Hexact, Hnull.
Qed.

(** On a plain resolver, one iteration sees the options only through what
    is forwarded. *)
Lemma step_forwarded kw kw' i resolver f st :
  forwarded kw' = forwarded kw →
  resolver_class resolver = DependencyResolver f →
  resolver_step ect kw' reqs i resolver st = resolver_step ect kw reqs i resolver st.
Proof.
  intros Hfw Hcls.
  assert (kw_index kw' = kw_index kw) as Hidx by apply (f_equal kw_index Hfw).
  assert (kw_resolver_type kw' = kw_resolver_type kw) as Hty
    by apply (f_equal kw_resolver_type Hfw).
  assert (kw_install kw' = kw_install kw) as Hinstall by apply (f_equal kw_install Hfw).
  unfold resolver_step, index_excludes, resolver_type_excludes, select_resolve,
    per_item_pass.
  rewrite Hidx, Hty, Hinstall, Hfw, Hcls.
  rewrite !(per_item_loop_forwarded kw kw') by done. done.
Qed.

Lemma chain_forwarded kw kw' rs i st :
  forwarded kw' = forwarded kw →
  (∀ resolver, resolver ∈ rs → ∃ f, resolver_class resolver = DependencyResolver f) →
  resolve_chain ect kw' reqs i rs st = resolve_chain ect kw reqs i rs st.
Proof.
  intros Hfw. revert i st. induction rs as [|resolver rs IH]; intros i st Hplain; simpl;
    [done|].
  destruct (Hplain resolver) as [f Hcls]; [by left|].
  rewrite (step_forwarded kw kw' i resolver f) by done.
  destruct (resolver_step ect kw reqs i resolver st) as [[[] st1]|[e tr]]; [|done..].
  apply IH. intros resolver' Hin. apply Hplain. by right.
Qed.
End filters.

(** X19. An [index] beyond the end of the chain, or a [resolver_type] that
    no resolver of the chain has, selects nothing: the call returns the
    empty mapping and no resolver is called. *)
Theorem filters_selecting_nothing self requirements kw :
  (∀ index, kw_index kw = Some index →
            length (dependency_resolvers self) ≤ index →
            _requirements_to_dependencies_dict self requirements kw = (Returned [], []))
  ∧ (∀ t, kw_resolver_type kw = Some t →
          (∀ resolver, resolver ∈ dependency_resolvers self → resolver_type resolver ≠ t) →
          _requirements_to_dependencies_dict self requirements kw = (Returned [], [])).
Proof.
  split.
  - intros index Hidx Hlen. unfold _requirements_to_dependencies_dict.
    rewrite chain_all_excluded; [done|].
    intros n resolver Hlookup%lookup_lt_Some. left.
    unfold index_excludes. rewrite Hidx. apply bool_decide_eq_true. simpl. lia.
  - intros t Hty Hnone. unfold _requirements_to_dependencies_dict.
    rewrite chain_all_excluded; [done|].
    intros n resolver Hlookup%list_elem_of_lookup_2. right.
    unfold resolver_type_excludes. rewrite Hty. apply bool_decide_eq_true.
    by apply Hnone.
Qed.

(** X20. [search] is consumed by the engine and not forwarded: on a chain
    of plain resolvers, two calls whose options differ in [search] only
    return the same mapping after the same calls. *)
Theorem search_matters_to_container_resolvers_only self requirements kw kw' :
  forwarded kw' = forwarded kw →
  (∀ resolver, resolver ∈ dependency_resolvers self →
               ∃ f, resolver_class resolver = DependencyResolver f) →
  _requirements_to_dependencies_dict self requirements kw'
  = _requirements_to_dependencies_dict self requirements kw.
Proof.
  intros Hfw Hplain. unfold _requirements_to_dependencies_dict.
  by rewrite (chain_forwarded _ _ kw kw').
Qed.

(** ** The theorems at concrete inputs *)

(** Finds an element in a list given in full. *)
Ltac in_list := repeat first [left | right].

(** C1 on the chain whose first resolver knows only the second requirement. *)
Lemma keys_in_order_of_first_recording_witness :
  let self := Scenario.manager [Scenario.knows "galaxy_packages" "bwa" true;
                                Scenario.knows "conda" "samtools" true] in
  ∃ m tr,
    _requirements_to_dependencies_dict self Scenario.both Scenario.default_kwds
    = (Returned m, tr)
    ∧ (NoDup (od_keys m)
       ∧ ∃ blocks,
           od_keys m = concat blocks
           ∧ length blocks = length (dependency_resolvers self)
           ∧ ∀ i block, blocks !! i = Some block →
               block `sublist_of` resolvable Scenario.both
               ∧ ∀ r, r ∈ block →
                   (∃ via d, EvRecord i via r d ∈ tr)
                   ∧ ∀ j via d, EvRecord j via r d ∈ tr → i ≤ j).
Proof.
  intros self. eexists _, _. split; [vm_compute; reflexivity|].
  apply (keys_in_order_of_first_recording self Scenario.both Scenario.default_kwds).
  vm_compute; reflexivity.
Defined.


(** C3 on a chain of two resolvers that both know the first requirement:
    the first one's answer stands and the second is not asked for it. *)
Lemma chain_precedence_and_early_stop_witness :
  let first := Scenario.knows "galaxy_packages" "samtools" true in
  let second := Scenario.knows "conda" "samtools" false in
  let self := Scenario.manager [first; second] in
  let requirements := {| resolvable := [Scenario.samtools] |} in
  let d := Scenario.installed "samtools" (Some "1.9") true in
  NoDup (resolvable requirements)
  ∧ ∃ o tr,
      _requirements_to_dependencies_dict self requirements Scenario.default_kwds = (o, tr)
      ∧ EvRecord 0 PerItemPath Scenario.samtools d ∈ tr
      ∧ is_NullDependency d = false
      ∧ ((∃ m, o = Returned m ∧ od_get Scenario.samtools m = Some d)
         ∧ (∀ j, 0 < j → EvResolve j Scenario.samtools ∉ tr)
         ∧ (PerItemPath = PerItemPath →
            ∃ resolver f,
              dependency_resolvers self !! 0 = Some resolver
              ∧ resolver_class resolver = DependencyResolver f
              ∧ d = f (forwarded Scenario.default_kwds) Scenario.samtools))
      ∧ ∃ st,
          resolve_chain (enabled_container_types self) Scenario.default_kwds
            (resolvable requirements) 0 [first] initial_state = inl (Next, st)
          ∧ _requirements_to_dependencies_dict self requirements Scenario.default_kwds
            = (Returned (requirement_to_dependency st), trace st).
Proof.
  intros first second self requirements d.
  assert (NoDup (resolvable requirements)) as Hnd.
  { apply (bool_decide_unpack _). vm_compute. exact I. }
  split; [exact Hnd|].
  destruct (chain_precedence_and_early_stop self requirements Scenario.default_kwds Hnd)
    as [Hprecedence Hstop].
  eexists _, _. split; [vm_compute; reflexivity|].
  split; [in_list|]. split; [reflexivity|].
  split.
  - apply (Hprecedence _ _ 0 PerItemPath Scenario.samtools d).
    + vm_compute; reflexivity.
    + in_list.
    + reflexivity.
  - eexists. split; [vm_compute; reflexivity|].
    apply (Hstop [first] [second] Next).
    + reflexivity.
    + vm_compute; reflexivity.
    + intros r ->%list_elem_of_singleton. exists d. split; reflexivity.
Defined.

(** C4 on a chain whose first resolver has the package in another version
    only and whose second one has it exactly. *)
Lemma exactness_filter_on_per_item_path_witness :
  let versionless := Scenario.knows "galaxy_packages" "samtools" false in
  let exact_one := Scenario.knows "conda" "samtools" true in
  let self := Scenario.manager [versionless; exact_one] in
  let requirements := {| resolvable := [Scenario.samtools] |} in
  let kw := Scenario.with_exact Scenario.default_kwds in
  let d := Scenario.installed "samtools" (Some "1.9") true in
  NoDup (resolvable requirements)
  ∧ kw_exact kw = true
  ∧ ∃ m tr,
      _requirements_to_dependencies_dict self requirements kw = (Returned m, tr)
      ∧ od_get Scenario.samtools m = Some d
      ∧ EvResolve 0 Scenario.samtools ∈ tr
      ∧ EvRecord 1 PerItemPath Scenario.samtools d ∈ tr
      ∧ dep_exact d = true.
Proof.
  intros versionless exact_one self requirements kw d.
  assert (NoDup (resolvable requirements)) as Hnd.
  { apply (bool_decide_unpack _). vm_compute. exact I. }
  split; [exact Hnd|]. split; [reflexivity|].
  destruct (exactness_filter_on_per_item_path self requirements kw Hnd eq_refl)
    as (_ & Hrecorded & _).
  eexists _, _. split; [vm_compute; reflexivity|].
  split; [vm_compute; reflexivity|].
  split; [in_list|]. split; [in_list|].
  eapply (Hrecorded _ _ 1 Scenario.samtools d).
  - vm_compute; reflexivity.
  - in_list.
Defined.


(** C6 on a cache directory that is already there, and on two calls in a
    row from an empty cache. *)
Lemma build_cache_skips_existing_cache_witness :
  let self := Scenario.manager [Scenario.knows "galaxy_packages" "bwa" true;
                                Scenario.knows "conda" "samtools" true] in
  let kw := Scenario.default_kwds in
  let dir := "/galaxy/database/dependencies/_cache/efdc0000" in
  let fs : FileSystem := {[ dir := ["bwa"; "samtools"] ]} in
  kw_force_rebuild kw = false
  ∧ ∃ m tr,
      _requirements_to_dependencies_dict self Scenario.both kw = (Returned m, tr)
      ∧ get_hashed_dependencies_path Scenario.host self (cacheable_values m) = dir
      ∧ is_Some (fs !! dir)
      ∧ (∃ events,
           build_cache Scenario.host self Scenario.both kw fs = (Returned (), fs, events)
           ∧ (∀ dep path, EvBuildCache dep path ∉ events)
           ∧ (∀ path, EvRmtree path ∉ events))
      ∧ ∃ events,
          (build_cache Scenario.host self Scenario.both kw;;
           build_cache Scenario.host self Scenario.both kw) ∅
          = (Returned (), fs, events).
Proof.
  intros self kw dir fs. split; [reflexivity|].
  eassert (_requirements_to_dependencies_dict self Scenario.both kw = (Returned _, _))
    as Hrun by (vm_compute; reflexivity).
  destruct (build_cache_skips_existing_cache Scenario.host self Scenario.both kw fs
              _ _ eq_refl Hrun) as (Hpresent & _ & Hbuild & Hrmtree).
  destruct (build_cache_skips_existing_cache Scenario.host self Scenario.both kw ∅
              _ _ eq_refl Hrun) as (_ & Habsent & _).
  eexists _, _. split; [exact Hrun|]. split; [vm_compute; reflexivity|].
  split; [vm_compute; eexists; reflexivity|]. split.
  - eexists. split; [|split; [exact Hbuild|exact Hrmtree]].
    apply Hpresent. vm_compute; eexists; reflexivity.
  - eexists. rewrite Habsent;
      [|vm_compute; reflexivity|vm_compute; eexists; reflexivity].
    vm_compute. reflexivity.
Defined.

(** C7 on a cache directory that cannot be removed. *)
Lemma build_cache_reraises_failed_removal_witness :
  let self := Scenario.manager [Scenario.knows "galaxy_packages" "bwa" true;
                                Scenario.knows "conda" "samtools" true] in
  let kw := Scenario.with_force_rebuild Scenario.default_kwds in
  let dir := "/galaxy/database/dependencies/_cache/efdc0000" in
  let fs : FileSystem := {[ dir := ["bwa"; "samtools"] ]} in
  let e := OSError "Permission denied" in
  kw_force_rebuild kw = true
  ∧ ∃ m tr,
      _requirements_to_dependencies_dict self Scenario.both kw = (Returned m, tr)
      ∧ get_hashed_dependencies_path Scenario.read_only_host self (cacheable_values m) = dir
      ∧ is_Some (fs !! dir)
      ∧ rmtree Scenario.read_only_host dir fs = (Some e, fs)
      ∧ ∃ events,
          build_cache Scenario.read_only_host self Scenario.both kw fs
          = (Raised e, fs, events)
          ∧ ∀ dep path, EvBuildCache dep path ∉ events.
Proof.
  intros self kw dir fs e. split; [reflexivity|].
  eexists _, _. split; [vm_compute; reflexivity|].
  split; [vm_compute; reflexivity|].
  split; [vm_compute; eexists; reflexivity|].
  split; [reflexivity|].
  eexists.
  eapply (build_cache_reraises_failed_removal Scenario.read_only_host self Scenario.both
            kw fs _ _ e fs).
  - reflexivity.
  - vm_compute; reflexivity.
  - vm_compute; eexists; reflexivity.
  - reflexivity.
Defined.

(** C8 on a manager without resolvers. *)
Lemma find_dep_without_resolvers_witness :
  let self := Scenario.manager [] in
  dependency_resolvers self = []
  ∧ find_dep Scenario.host self "samtools" (Some "1.9") "package" Scenario.default_kwds
    = (Returned (NullDependency (Some "1.9") "samtools"),
       [EvLog Debug "Find dependency samtools version 1.9"])
  ∧ NullDependencyManager_find_dep "samtools" (Some "1.9") "package" Scenario.default_kwds
    = NullDependency (Some "1.9") "samtools".
Proof.
  intros self. split; [reflexivity|].
  destruct (find_dep_without_resolvers Scenario.host self "samtools" (Some "1.9")
              "package" Scenario.default_kwds eq_refl) as (Hfind & Hnull & _).
  split; [exact Hfind|exact Hnull].
Defined.


(** C10 on a chain whose first resolver leaves a Null entry for the first
    requirement and whose second resolver, which has both [resolve_all] and
    [resolve], then fills it in. *)
Lemma null_entry_stays_open_witness :
  let first := Scenario.knows "galaxy_packages" "bwa" true in
  let second := Scenario.conda_like "samtools" in
  let self := Scenario.manager [first; second] in
  let kw := Scenario.with_return_null Scenario.default_kwds in
  let d := Scenario.installed "samtools" (Some "1.9") true in
  NoDup (resolvable Scenario.both)
  ∧ is_Some (resolve_all second)
  ∧ ∃ st,
      resolve_chain (enabled_container_types self) kw (resolvable Scenario.both)
        0 [first] initial_state = inl (Next, st)
      ∧ requirement_to_dependency st
        = [(Scenario.samtools, NullDependency (Some "1.9") "samtools");
           (Scenario.bwa, Scenario.installed "bwa" (Some "0.7.17") true)]
      ∧ ∃ o tr,
          _requirements_to_dependencies_dict self Scenario.both kw = (o, tr)
          ∧ EvResolve 1 Scenario.samtools ∈ tr
          ∧ ∃ m, o = Returned m
                 ∧ od_get Scenario.samtools m = Some d
                 ∧ od_keys m !! 0 = Some Scenario.samtools.
Proof.
  intros first second self kw d.
  assert (NoDup (resolvable Scenario.both)) as Hnd.
  { apply (bool_decide_unpack _). vm_compute. exact I. }
  split; [exact Hnd|]. split; [eexists; reflexivity|].
  destruct (null_entry_stays_open self Scenario.both kw Hnd) as (_ & _ & Hopen).
  eassert (resolve_chain (enabled_container_types self) kw (resolvable Scenario.both)
             0 [first] initial_state = inl (Next, _)) as Hpre
    by (vm_compute; reflexivity).
  eexists. split; [exact Hpre|]. split; [reflexivity|].
  destruct (Hopen [first] second [] (Scenario.knows_resolve "samtools" true) _
              Scenario.samtools (NullDependency (Some "1.9") "samtools")
              eq_refl Hpre)
    as (o & tr & Hrun & _ & _ & Hper_item).
  - in_list.
  - reflexivity.
  - reflexivity.
  - reflexivity.
  - reflexivity.
  - reflexivity.
  - reflexivity.
  - destruct Hper_item as [Hresolve Hfill].
    { intros g Hg _. injection Hg as <-. reflexivity. }
    exists o, tr. split; [exact Hrun|]. split; [exact Hresolve|].
    destruct Hfill as (m & Hm & Hget & Hpos); [reflexivity|reflexivity|].
    exists m. split; [exact Hm|]. split; [exact Hget|].
    apply Hpos. reflexivity.
Defined.

(** ** The further theorems at concrete inputs *)

(** X1 with [index] set to the second position of a chain of two. *)
Lemma called_resolver_passes_filters_witness :
  let self := Scenario.manager [Scenario.knows "galaxy_packages" "bwa" true;
                                Scenario.knows "conda" "samtools" true] in
  let kw := Scenario.with_index 1 Scenario.default_kwds in
  let e := EvResolve 1 Scenario.samtools in
  ∃ o tr,
    _requirements_to_dependencies_dict self Scenario.both kw = (o, tr)
    ∧ e ∈ tr
    ∧ is_invocation e = true
    ∧ ∃ i resolver,
        event_index e = Some i
        ∧ dependency_resolvers self !! i = Some resolver
        ∧ (∀ index, kw_index kw = Some index → i = index)
        ∧ (∀ t, kw_resolver_type kw = Some t → resolver_type resolver = t)
        ∧ (String.prefix "build_mulled" (resolver_type resolver) = true →
           kw_install kw = true).
Proof.
  intros self kw e. eexists _, _. split; [vm_compute; reflexivity|].
  split; [in_list|]. split; [reflexivity|].
  eapply (called_resolver_passes_filters self Scenario.both kw _ _ e).
  - vm_compute; reflexivity.
  - in_list.
  - reflexivity.
Defined.

(** X2 on the second resolver of a chain of two plain resolvers. *)
Lemma calls_by_resolver_class_witness :
  let resolver := Scenario.knows "conda" "samtools" true in
  let self := Scenario.manager [Scenario.knows "galaxy_packages" "bwa" true; resolver] in
  let kw := Scenario.default_kwds in
  ∃ o tr,
    _requirements_to_dependencies_dict self Scenario.both kw = (o, tr)
    ∧ dependency_resolvers self !! 1 = Some resolver
    ∧ EvResolve 1 Scenario.samtools ∈ tr
    ∧ Scenario.samtools ∈ resolvable Scenario.both
    ∧ ∃ f, resolver_class resolver = DependencyResolver f.
Proof.
  intros resolver self kw. eexists _, _. split; [vm_compute; reflexivity|].
  split; [reflexivity|]. split; [in_list|].
  eapply (calls_by_resolver_class self Scenario.both kw _ _ 1 resolver).
  - vm_compute; reflexivity.
  - reflexivity.
  - in_list.
Defined.

(** X3 on requirements none of which is resolvable. *)
Lemma nothing_to_resolve_witness :
  let self := Scenario.manager [Scenario.knows "galaxy_packages" "bwa" true] in
  let requirements := {| resolvable := [] |} in
  resolvable requirements = []
  ∧ _requirements_to_dependencies_dict self requirements Scenario.default_kwds
    = (Returned [], []).
Proof.
  intros self requirements. split; [reflexivity|].
  apply (nothing_to_resolve self requirements Scenario.default_kwds). reflexivity.
Defined.

(** X4 on a chain of two resolvers and two requirements. *)
Lemma each_call_is_made_once_witness :
  let self := Scenario.manager [Scenario.knows "galaxy_packages" "bwa" true;
                                Scenario.knows "conda" "samtools" true] in
  NoDup (resolvable Scenario.both)
  ∧ ∃ o tr,
      _requirements_to_dependencies_dict self Scenario.both Scenario.default_kwds = (o, tr)
      ∧ NoDup (invocations tr).
Proof.
  intros self.
  assert (NoDup (resolvable Scenario.both)) as Hnd.
  { apply (bool_decide_unpack _). vm_compute. exact I. }
  split; [exact Hnd|]. eexists _, _. split; [vm_compute; reflexivity|].
  eapply (each_call_is_made_once self Scenario.both Scenario.default_kwds _ _ Hnd).
  vm_compute; reflexivity.
Defined.

(** X5 on a chain whose first resolver lacks the first requirement. *)
Lemma per_item_resolution_is_first_answer_witness :
  let self := Scenario.manager [Scenario.knows "galaxy_packages" "bwa" true;
                                Scenario.knows "conda" "samtools" true] in
  let kw := Scenario.default_kwds in
  let d := Scenario.installed "samtools" (Some "1.9") true in
  NoDup (resolvable Scenario.both)
  ∧ no_whole_set_result (enabled_container_types self) kw (resolvable Scenario.both)
      (dependency_resolvers self)
  ∧ first_answer kw 0 (dependency_resolvers self) Scenario.samtools = Some d
  ∧ ∃ m tr,
      _requirements_to_dependencies_dict self Scenario.both kw = (Returned m, tr)
      ∧ od_get Scenario.samtools m = Some d.
Proof.
  intros self kw d.
  assert (NoDup (resolvable Scenario.both)) as Hnd.
  { apply (bool_decide_unpack _). vm_compute. exact I. }
  assert (no_whole_set_result (enabled_container_types self) kw (resolvable Scenario.both)
            (dependency_resolvers self)) as Hno.
  { intros resolver f Hin Hsel.
    repeat (apply elem_of_cons in Hin as [->|Hin]); try discriminate Hsel.
    by apply elem_of_nil in Hin. }
  split; [exact Hnd|]. split; [exact Hno|]. split; [reflexivity|].
  destruct (per_item_resolution_is_first_answer self Scenario.both kw Hnd Hno)
    as (m & tr & Hrun & Hiff & _).
  exists m, tr. split; [exact Hrun|].
  apply (Hiff Scenario.samtools d). split; [in_list|reflexivity].
Defined.

(** X6 on a resolver that knows one of two requirements. *)
Lemma return_null_covers_every_requirement_witness :
  let self := Scenario.manager [Scenario.knows "galaxy_packages" "bwa" true] in
  let kw := Scenario.with_return_null Scenario.default_kwds in
  NoDup (resolvable Scenario.both)
  ∧ kw_return_null kw = true
  ∧ kw_exact kw = false
  ∧ ∃ m tr,
      _requirements_to_dependencies_dict self Scenario.both kw = (Returned m, tr)
      ∧ (od_keys m = resolvable Scenario.both ∨ m = [] ∧ ∀ i r, EvResolve i r ∉ tr).
Proof.
  intros self kw.
  assert (NoDup (resolvable Scenario.both)) as Hnd.
  { apply (bool_decide_unpack _). vm_compute. exact I. }
  split; [exact Hnd|]. split; [reflexivity|]. split; [reflexivity|].
  eexists _, _. split; [vm_compute; reflexivity|].
  eapply (return_null_covers_every_requirement self Scenario.both kw _ _ Hnd).
  - reflexivity.
  - reflexivity.
  - vm_compute; reflexivity.
Defined.

(** X7 on a chain whose second resolver has the package. *)
Lemma find_dep_is_first_answer_witness :
  let self := Scenario.manager [Scenario.knows "galaxy_packages" "bwa" true;
                                Scenario.knows "conda" "samtools" true] in
  let kw := Scenario.default_kwds in
  is_resolvable_type Scenario.host "package" = true
  ∧ no_whole_set_result (enabled_container_types self) kw [Scenario.samtools]
      (dependency_resolvers self)
  ∧ first_answer kw 0 (dependency_resolvers self) Scenario.samtools
    = Some (Scenario.installed "samtools" (Some "1.9") true)
  ∧ ∃ d tr,
      find_dep Scenario.host self "samtools" (Some "1.9") "package" kw = (Returned d, tr)
      ∧ match first_answer kw 0 (dependency_resolvers self) Scenario.samtools with
        | Some a => d = a
        | None => is_NullDependency d = true ∧ dep_version d = Some "1.9"
        end.
Proof.
  intros self kw.
  assert (no_whole_set_result (enabled_container_types self) kw [Scenario.samtools]
            (dependency_resolvers self)) as Hno.
  { intros resolver f Hin Hsel.
    repeat (apply elem_of_cons in Hin as [->|Hin]); try discriminate Hsel.
    by apply elem_of_nil in Hin. }
  split; [reflexivity|]. split; [exact Hno|]. split; [reflexivity|].
  apply (find_dep_is_first_answer Scenario.host self "samtools" (Some "1.9") "package" kw).
  - reflexivity.
  - exact Hno.
Defined.

(** X8 on a cache directory that is there, holds a stale entry and can be
    removed. *)
Lemma forced_rebuild_removes_then_builds_witness :
  let self := Scenario.manager [Scenario.knows "galaxy_packages" "bwa" true;
                                Scenario.knows "conda" "samtools" true] in
  let kw := Scenario.with_force_rebuild Scenario.default_kwds in
  let dir := "/galaxy/database/dependencies/_cache/efdc0000" in
  let fs : FileSystem := {[ dir := ["stale"] ]} in
  kw_force_rebuild kw = true
  ∧ ∃ m tr,
      _requirements_to_dependencies_dict self Scenario.both kw = (Returned m, tr)
      ∧ get_hashed_dependencies_path Scenario.host self (cacheable_values m) = dir
      ∧ is_Some (fs !! dir)
      ∧ rmtree Scenario.host dir fs = (None, delete dir fs)
      ∧ ∃ fs1 events,
          build_cache Scenario.host self Scenario.both kw fs = (Returned (), fs1, events)
          ∧ fs1 !! dir = Some ["bwa"; "samtools"].
Proof.
  intros self kw dir fs. split; [reflexivity|].
  eexists _, _. split; [vm_compute; reflexivity|].
  split; [vm_compute; reflexivity|].
  split; [vm_compute; eexists; reflexivity|].
  split; [reflexivity|].
  eexists _, _. split.
  - eapply (forced_rebuild_removes_then_builds Scenario.host self Scenario.both kw fs).
    + reflexivity.
    + vm_compute; reflexivity.
    + vm_compute; eexists; reflexivity.
    + reflexivity.
  - vm_compute; reflexivity.
Defined.

(** X9 on an empty cache. *)
Lemma build_cache_touches_only_its_directory_witness :
  let self := Scenario.manager [Scenario.knows "galaxy_packages" "bwa" true;
                                Scenario.knows "conda" "samtools" true] in
  let kw := Scenario.default_kwds in
  let result := build_cache Scenario.host self Scenario.both kw ∅ in
  ∃ m tr,
    _requirements_to_dependencies_dict self Scenario.both kw = (Returned m, tr)
    ∧ (∀ dep path, EvBuildCache dep path ∈ result.2 →
         path = get_hashed_dependencies_path Scenario.host self (cacheable_values m)
         ∧ cacheable dep = true ∧ dep ∈ od_values m)
    ∧ (∀ path, EvRmtree path ∈ result.2 →
         path = get_hashed_dependencies_path Scenario.host self (cacheable_values m)
         ∧ kw_force_rebuild kw = true
         ∧ is_Some ((∅ : FileSystem)
                    !! get_hashed_dependencies_path Scenario.host self
                         (cacheable_values m))).
Proof.
  intros self kw result. eexists _, _. split; [vm_compute; reflexivity|].
  eapply (build_cache_touches_only_its_directory Scenario.host self Scenario.both kw ∅
            _ _ result.1.1 result.1.2 result.2).
  - vm_compute; reflexivity.
  - unfold result.
    by destruct (build_cache Scenario.host self Scenario.both kw ∅) as [[o fs1] events].
Defined.

(** X10 under [force_rebuild], on a cache directory that is there. *)
Lemma shell_commands_never_remove_witness :
  let self := Scenario.manager [Scenario.knows "galaxy_packages" "bwa" true;
                                Scenario.knows "conda" "samtools" true] in
  let kw := Scenario.with_force_rebuild Scenario.default_kwds in
  let dir := "/galaxy/database/dependencies/_cache/efdc0000" in
  let fs : FileSystem := {[ dir := ["bwa"; "samtools"] ]} in
  let result := dependency_shell_commands Scenario.host self Scenario.both kw fs in
  kw_force_rebuild kw = true
  ∧ (∀ path, EvRmtree path ∉ result.2)
  ∧ ∃ m tr,
      _requirements_to_dependencies_dict self Scenario.both kw = (Returned m, tr)
      ∧ is_Some (fs !! get_hashed_dependencies_path Scenario.host self
                         (cacheable_values m))
      ∧ result.1.2 = fs.
Proof.
  intros self kw dir fs result. split; [reflexivity|].
  destruct (shell_commands_never_remove Scenario.host self Scenario.both kw fs
              result.1.1 result.1.2 result.2) as (Hnever & _ & Hpresent & _).
  { unfold result.
    by destruct (dependency_shell_commands Scenario.host self Scenario.both kw fs)
      as [[o fs1] events]. }
  split; [exact Hnever|].
  eassert (_requirements_to_dependencies_dict self Scenario.both kw = (Returned _, _))
    as Hrun by (vm_compute; reflexivity).
  match type of Hrun with
  | _ = (Returned ?m, _) =>
      assert (get_hashed_dependencies_path Scenario.host self (cacheable_values m)
              = dir) as Hpath by (vm_compute; reflexivity)
  end.
  eassert (is_Some (fs !! get_hashed_dependencies_path Scenario.host self
                            (cacheable_values _))) as Hdir.
  { rewrite Hpath. unfold fs. rewrite lookup_singleton_eq. by eexists. }
  eexists _, _. split; [exact Hrun|]. split; [exact Hdir|].
  exact (Hpresent _ _ Hrun Hdir).
Defined.

(** X11 on a whole-set result of the wrong length. *)
Lemma resolution_failure_propagates_witness :
  let result := BatchList [Scenario.installed "samtools" (Some "1.9") true] in
  let self := Scenario.manager [Scenario.answers_all "conda" result] in
  let kw := Scenario.default_kwds in
  _requirements_to_dependencies_dict self Scenario.both kw
  = (Raised AssertionError, [EvResolveAll 0])
  ∧ build_cache Scenario.host self Scenario.both kw ∅
    = (Raised AssertionError, ∅, [EvResolveAll 0])
  ∧ dependency_shell_commands Scenario.host self Scenario.both kw ∅
    = (Raised AssertionError, ∅, [EvResolveAll 0]).
Proof.
  intros result self kw.
  assert (_requirements_to_dependencies_dict self Scenario.both kw
          = (Raised AssertionError, [EvResolveAll 0])) as Hrun by (vm_compute; reflexivity).
  destruct (resolution_failure_propagates Scenario.host self Scenario.both kw ∅ _ _ Hrun)
    as (_ & Hbuild & Hshell & _).
  split; [exact Hrun|]. split; [exact Hbuild|exact Hshell].
Defined.


(** X13 on one container type with two destinations. *)
Lemma enabled_types_are_the_lookup_domain_witness :
  let self := Containers.set_enabled_container_types Scenario.docker_destinations
                Containers.init in
  Containers.enabled_container_types self = ["docker"]
  ∧ ("docker" ∈ Containers.enabled_container_types self
     ↔ is_Some (Scenario.docker_destinations !! "docker"))
  ∧ Containers.get_destination_info_for_container_type Containers.init "docker" None
    = inr (Containers.KeyError "docker").
Proof.
  intros self. split; [vm_compute; reflexivity|].
  destruct (enabled_types_are_the_lookup_domain Scenario.docker_destinations
              Containers.init "docker" None) as (_ & Hdom & _ & Hinit).
  split; [exact Hdom|exact Hinit].
Defined.

(** X14 on one container type with two destinations. *)
Lemma destination_lookup_witness :
  let self := Containers.set_enabled_container_types Scenario.docker_destinations
                Containers.init in
  let destinations := [Scenario.local_docker; Scenario.cluster_docker] in
  Containers._destination_for_container_type self !! "docker" = Some destinations
  ∧ NoDup (Containers.dest_id <$> destinations)
  ∧ Containers.get_destination_info_for_container_type self "docker" None
    = inl (Some (Containers.dest_params Scenario.local_docker))
  ∧ Containers.get_destination_info_for_container_type self "docker"
      (Some "cluster_docker")
    = inl (Some (Containers.dest_params Scenario.cluster_docker)).
Proof.
  intros self destinations.
  assert (Containers._destination_for_container_type self !! "docker" = Some destinations)
    as Hds by (vm_compute; reflexivity).
  assert (NoDup (Containers.dest_id <$> destinations)) as Hnd.
  { apply (bool_decide_unpack _). vm_compute. exact I. }
  destruct (destination_lookup self "docker" destinations Hds)
    as (_ & Hfirst & _ & _ & Hid).
  split; [exact Hds|]. split; [exact Hnd|]. split.
  - exact (Hfirst _ _ eq_refl).
  - apply (Hid Hnd Scenario.cluster_docker). in_list.
Defined.

(** X15 on a configuration object and a Conda resolver, for a manager set
    up by the base constructor and for a [NullDependencyManager]. *)
Lemma resolver_option_precedence_witness :
  let resolver := Scenario.knows "conda" "samtools" true in
  let own := [("auto_install", PyBool false); ("prefix", PyStr "/opt/conda")] in
  let self := DependencyManager__init__ Scenario.app_config in
  let null := NullDependencyManager__init__ Scenario.app_config in
  get_resolver_option self resolver own "auto_install" [("auto_install", PyNone)]
  = inl PyNone
  ∧ get_resolver_option self resolver own "auto_install" [] = inl (PyBool true)
  ∧ get_resolver_option self resolver own "prefix" [] = inl (PyStr "/galaxy/conda")
  ∧ get_resolver_option null resolver own "auto_install" [("auto_install", PyNone)]
    = inl PyNone
  ∧ ∃ e, get_resolver_option null resolver own "auto_install" [] = inr e.
Proof.
  intros resolver own self null.
  destruct (resolver_option_precedence self resolver own "auto_install"
              [("auto_install", PyNone)]) as (Hexplicit & _).
  destruct (resolver_option_precedence self resolver own "auto_install" [])
    as (_ & Hconfigured & _).
  destruct (Hconfigured Scenario.app_config eq_refl eq_refl) as [Hdirect _].
  destruct (resolver_option_precedence self resolver own "prefix" [])
    as (_ & Hconfigured' & _).
  destruct (Hconfigured' Scenario.app_config eq_refl eq_refl) as [_ Hdict].
  destruct (resolver_option_precedence null resolver own "auto_install"
              [("auto_install", PyNone)]) as (Hexplicit' & _).
  destruct (resolver_option_precedence null resolver own "auto_install" [])
    as (_ & _ & _ & Hfails).
  split; [exact (Hexplicit PyNone eq_refl)|].
  split; [exact (Hdirect (PyBool true) eq_refl)|].
  split; [exact (Hdict eq_refl)|].
  split; [exact (Hexplicit' PyNone eq_refl)|].
  apply Hfails. split; [reflexivity|]. left. reflexivity.
Defined.


(** X17 on a resolver whose whole-set resolution gives nothing and that
    then answers for one requirement, before a second resolver. *)
Lemma whole_set_calls_come_first_witness :
  let d := Scenario.installed "samtools" (Some "1.9") true in
  let self := Scenario.manager [Scenario.answers_all "conda" BatchNone;
                                Scenario.knows "galaxy_packages" "samtools" true] in
  let kw := Scenario.default_kwds in
  NoDup (resolvable Scenario.both)
  ∧ ∃ o tr,
      _requirements_to_dependencies_dict self Scenario.both kw = (o, tr)
      ∧ EvResolveAll 0 ∈ tr
      ∧ EvRecord 1 PerItemPath Scenario.samtools d ∈ tr
      ∧ is_NullDependency d = false
      ∧ 0 ≤ 1.
Proof.
  intros d self kw.
  assert (NoDup (resolvable Scenario.both)) as Hnd.
  { apply (bool_decide_unpack _). vm_compute. exact I. }
  split; [exact Hnd|]. eexists _, _. split; [vm_compute; reflexivity|].
  split; [in_list|]. split; [in_list|]. split; [reflexivity|].
  eapply (whole_set_calls_come_first self Scenario.both kw _ _ 0 1 PerItemPath
            Scenario.samtools d Hnd).
  - vm_compute; reflexivity.
  - in_list.
  - in_list.
  - reflexivity.
Defined.

(** X18 on a whole-set result of the wrong length. *)
Lemma resolution_raises_only_on_whole_set_result_witness :
  let result := BatchList [Scenario.installed "samtools" (Some "1.9") true] in
  let self := Scenario.manager [Scenario.answers_all "conda" result] in
  let kw := Scenario.default_kwds in
  NoDup (resolvable Scenario.both)
  ∧ _requirements_to_dependencies_dict self Scenario.both kw
    = (Raised AssertionError, [EvResolveAll 0])
  ∧ ¬ no_whole_set_result (enabled_container_types self) kw (resolvable Scenario.both)
        (dependency_resolvers self).
Proof.
  intros result self kw.
  assert (NoDup (resolvable Scenario.both)) as Hnd.
  { apply (bool_decide_unpack _). vm_compute. exact I. }
  assert (_requirements_to_dependencies_dict self Scenario.both kw
          = (Raised AssertionError, [EvResolveAll 0])) as Hrun by (vm_compute; reflexivity).
  destruct (resolution_raises_only_on_whole_set_result self Scenario.both kw _ _ Hnd Hrun)
    as (_ & _ & Hsome).
  split; [exact Hnd|]. split; [exact Hrun|exact Hsome].
Defined.

(** X19 on a chain of one resolver, asked for position 3 and for a type
    it does not have. *)
Lemma filters_selecting_nothing_witness :
  let self := Scenario.manager [Scenario.knows "galaxy_packages" "bwa" true] in
  let kw := Scenario.with_index 3 Scenario.default_kwds in
  kw_index kw = Some 3
  ∧ length (dependency_resolvers self) ≤ 3
  ∧ _requirements_to_dependencies_dict self Scenario.both kw = (Returned [], []).
Proof.
  intros self kw. split; [reflexivity|]. split; [simpl; lia|].
  destruct (filters_selecting_nothing self Scenario.both kw) as [Hindex _].
  apply (Hindex 3); [reflexivity|simpl; lia].
Defined.

(** X20 on a chain of two plain resolvers, with and without [search]. *)
Lemma search_matters_to_container_resolvers_only_witness :
  let self := Scenario.manager [Scenario.knows "galaxy_packages" "bwa" true;
                                Scenario.knows "conda" "samtools" true] in
  let kw := Scenario.default_kwds in
  let kw' := Scenario.with_search kw in
  kw_search kw' = true
  ∧ kw_search kw = false
  ∧ forwarded kw' = forwarded kw
  ∧ _requirements_to_dependencies_dict self Scenario.both kw'
    = _requirements_to_dependencies_dict self Scenario.both kw.
Proof.
  intros self kw kw'. split; [reflexivity|]. split; [reflexivity|].
  split; [reflexivity|].
  apply (search_matters_to_container_resolvers_only self Scenario.both kw kw').
  - reflexivity.
  - intros resolver Hin.
    repeat (apply elem_of_cons in Hin as [->|Hin]); try (by eexists).
    by apply elem_of_nil in Hin.
Defined.
